(** * qdyno: the Redfield engine, the Hamiltonian layer and the linear-algebra
    kernel, embedded over exact arithmetic.

    Sources embedded here:
    - [utils.py]       (dag, commutator, anticommutator, matmult, norm,
                        is_vector, is_matrix, is_hermitian, to_liouville,
                        from_liouville)
    - [hamiltonian.py] (Hamiltonian: construction, frequencies, basis changes,
                        commutator)
    - [redfield.py]    (Redfield: setup, dressing recurrence, equations of
                        motion, solve loop)

    numpy's complex128 scalars are idealised as an arbitrary commutative ring
    [C] with a conjugation, an inverse and an exponential that are left
    uninterpreted; rounding is not modelled.  numpy's 2-D arrays are records
    carrying their shape and their rows. *)

From Stdlib Require Import ZArith Lia Ring.
From stdpp Require Import base option list gmap strings.

(** ** Python exceptions and fallible results *)

Inductive exn : Set :=
  | IndexError | AttributeError | ValueError | NotImplementedError
  | AssertionError | ZeroDivisionError | TypeError.

Inductive result (A : Type) : Type :=
  | Ok (a : A)
  | Raise (e : exn).
Arguments Ok {A} a.
Arguments Raise {A} e.

Definition rbind {A B} (x : result A) (f : A -> result B) : result B :=
  match x with Ok a => f a | Raise e => Raise e end.

Declare Scope res_scope.
Delimit Scope res_scope with res.
Notation "x <- e ;; k" := (rbind e (fun x => k))
  (at level 100, e at next level, right associativity) : res_scope.
Open Scope res_scope.

(** [for x in xs: acc = body(acc, x)] with exceptions. *)
Fixpoint rfold {A S} (body : S -> A -> result S) (xs : list A) (s : S)
  : result S :=
  match xs with
  | [] => Ok s
  | x :: xs' => s' <- body s x ;; rfold body xs' s'
  end.

(** [[f(x) for x in xs]] with exceptions, left to right. *)
Fixpoint rmap {A B} (f : A -> result B) (xs : list A) : result (list B) :=
  match xs with
  | [] => Ok []
  | x :: xs' => y <- f x ;; ys <- rmap f xs' ;; Ok (y :: ys)
  end.

(** Indexing of a Python list / tuple: negative indices count from the end,
    anything else out of range raises [IndexError]. *)
Definition py_index {A} (l : list A) (i : Z) : result A :=
  let n := Z.of_nat (length l) in
  let j := if (i <? 0)%Z then (i + n)%Z else i in
  if (j <? 0)%Z then Raise IndexError
  else match l !! Z.to_nat j with
       | Some x => Ok x
       | None => Raise IndexError
       end.

(** [l[i] = x] on a Python list, for a non-negative index. *)
Definition py_setitem {A} (l : list A) (i : nat) (x : A) : result (list A) :=
  if decide (i < length l) then Ok (<[i := x]> l) else Raise IndexError.

Lemma rmap_ok {A B} (f : A -> result B) (g : A -> B) xs :
  (forall x, x ∈ xs -> f x = Ok (g x)) -> rmap f xs = Ok (map g xs).
Proof.
  induction xs as [|x xs IH]; intros H; simpl; [done|].
  rewrite H by (left). simpl. rewrite IH; [done|].
  intros y Hy. apply H. by right.
Qed.

Lemma py_index_nat {A} (l : list A) (i : nat) x :
  l !! i = Some x -> py_index l (Z.of_nat i) = Ok x.
Proof.
  intros H. unfold py_index.
  destruct (Z.of_nat i <? 0)%Z eqn:E; [apply Z.ltb_lt in E; lia|].
  rewrite E, Nat2Z.id, H. done.
Qed.

Lemma py_index_last {A} (l : list A) x :
  last l = Some x -> py_index l (-1) = Ok x.
Proof.
  intros H. unfold py_index. simpl.
  assert (Hl : length l > 0).
  { destruct l; [done|simpl; lia]. }
  destruct (-1 + Z.of_nat (length l) <? 0)%Z eqn:E;
    [apply Z.ltb_lt in E; lia|].
  replace (Z.to_nat (-1 + Z.of_nat (length l))) with (pred (length l)) by lia.
  rewrite last_lookup in H. by rewrite H.
Qed.

(** ** Gaussian integers: a concrete scalar ring on which the model runs *)

Module GZ.
Definition t : Type := (Z * Z)%type.
Definition zero : t := (0, 0)%Z.
Definition one : t := (1, 0)%Z.
Definition i : t := (0, 1)%Z.
Definition add (x y : t) : t := (x.1 + y.1, x.2 + y.2)%Z.
Definition sub (x y : t) : t := (x.1 - y.1, x.2 - y.2)%Z.
Definition opp (x : t) : t := (- x.1, - x.2)%Z.
Definition mul (x y : t) : t :=
  (x.1 * y.1 - x.2 * y.2, x.1 * y.2 + x.2 * y.1)%Z.
Definition conj (x : t) : t := (x.1, - x.2)%Z.
(** Stand-ins for the operations the theorems leave uninterpreted. *)
Definition inv (x : t) : t := x.
Definition exp (x : t) : t := add one x.
Definition ltb (x y : t) : bool := (x.1 <? y.1)%Z.
Definition of_Z (n : Z) : t := (n, 0%Z).
End GZ.

Section Qdynos.

(** ** Scalars *)

Variable C : Type.
Variables (c0 c1 : C) (cadd cmul csub : C -> C -> C) (copp : C -> C).
Hypothesis Cring : ring_theory c0 c1 cadd cmul csub copp (@eq C).
(** [1/x], [conj(x)], [np.exp(x)], the imaginary unit [1j], the literal
    [0.5] and the comparison [x < y] of two floats. *)
Variables (cinv cconj cexp : C -> C) (ci chalf : C) (cltb : C -> C -> bool).

Add Ring Cring_ring : Cring.

Declare Scope C_scope.
Delimit Scope C_scope with C.
Local Notation "0" := c0 : C_scope.
Local Notation "1" := c1 : C_scope.
Local Infix "+" := cadd : C_scope.
Local Infix "*" := cmul : C_scope.
Local Infix "-" := csub : C_scope.
Local Notation "- x" := (copp x) : C_scope.

(** [x / y] on scalars. *)
Definition cdiv (x y : C) : C := (x * cinv y)%C.
Local Infix "/" := cdiv : C_scope.

(** [sum(f(k) for k in range(n))]. *)
Fixpoint csum (n : nat) (f : nat -> C) : C :=
  match n with
  | O => 0%C
  | S n' => (csum n' f + f n')%C
  end.

(** ** numpy arrays *)

(** A 2-D array: its [shape] and its rows. *)
Record matrix : Type := Matrix {
  nrows : nat;
  ncols : nat;
  rows : list (list C)
}.

(** [A[i,j]] for indices in range. *)
Definition entry (A : matrix) (i j : nat) : C :=
  nth j (nth i (rows A) []) 0%C.

(** The [r] by [c] array whose entry [(i,j)] is [f i j]. *)
Definition tab (r c : nat) (f : nat -> nat -> C) : list (list C) :=
  map (fun i => map (f i) (seq 0 c)) (seq 0 r).
Definition mk (r c : nat) (f : nat -> nat -> C) : matrix :=
  Matrix r c (tab r c f).

(** The rows of an array agree with its shape. *)
Definition wf (A : matrix) : Prop := A = mk (nrows A) (ncols A) (entry A).
Definition has_shape (r c : nat) (A : matrix) : Prop :=
  nrows A = r /\ ncols A = c /\ wf A.

(** An operand handed to the library: a 0-d, 1-d or 2-d array. *)
Inductive ndarray : Type :=
  | Nd0 (x : C)
  | Nd1 (v : list C)
  | Nd2 (A : matrix).

(** [op.shape] *)
Definition shape (op : ndarray) : list nat :=
  match op with
  | Nd0 _ => []
  | Nd1 v => [length v]
  | Nd2 A => [nrows A; ncols A]
  end.

(** [np.zeros((r,c), dtype=complex)] and the identity. *)
Definition np_zeros (r c : nat) : matrix := mk r c (fun _ _ => 0%C).
Definition identity (n : nat) : matrix :=
  mk n n (fun i j => if decide (i = j) then 1%C else 0%C).

(** [np.diag(v)] of a 1-d array. *)
Definition np_diag (v : list C) : matrix :=
  mk (length v) (length v)
     (fun i j => if decide (i = j) then nth i v 0%C else 0%C).

(** [np.dot(A, B)] / [A.dot(B)] on 2-d arrays: the inner dimensions have to
    agree, otherwise numpy raises [ValueError]. *)
Definition dot (A B : matrix) : matrix :=
  mk (nrows A) (ncols B)
     (fun i j => csum (ncols A) (fun k => entry A i k * entry B k j)%C).
Definition np_dot (A B : matrix) : result matrix :=
  if decide (ncols A = nrows B) then Ok (dot A B) else Raise ValueError.

(** Broadcasting of one dimension, and the index read in an operand along a
    dimension of length [n]. *)
Definition bdim (a b : nat) : option nat :=
  if decide (a = b) then Some a
  else if decide (a = 1) then Some b
  else if decide (b = 1) then Some a
  else None.
Definition bidx (n i : nat) : nat := if decide (n = 1) then 0 else i.

(** An elementwise binary operation [A op B] with broadcasting. *)
Definition np_ew (f : C -> C -> C) (A B : matrix) : result matrix :=
  match bdim (nrows A) (nrows B), bdim (ncols A) (ncols B) with
  | Some r, Some c =>
      Ok (mk r c (fun i j =>
            f (entry A (bidx (nrows A) i) (bidx (ncols A) j))
              (entry B (bidx (nrows B) i) (bidx (ncols B) j))))
  | _, _ => Raise ValueError
  end.
Definition np_add := np_ew cadd.
Definition np_sub := np_ew csub.
Definition np_mul := np_ew cmul.

(** [A += B]: the broadcast result has to have the shape of [A]. *)
Definition np_iadd (A B : matrix) : result matrix :=
  R <- np_add A B ;;
  if decide (nrows R = nrows A /\ ncols R = ncols A) then Ok R
  else Raise ValueError.

(** Elementwise map, [s * A], [A * s] and [A / s] for a scalar [s]. *)
Definition ew_map (f : C -> C) (A : matrix) : matrix :=
  mk (nrows A) (ncols A) (fun i j => f (entry A i j)).
Definition smul (s : C) (A : matrix) : matrix := ew_map (fun x => s * x)%C A.
Definition muls (A : matrix) (s : C) : matrix := ew_map (fun x => x * s)%C A.
Definition divs (A : matrix) (s : C) : matrix := ew_map (fun x => x / s)%C A.
Definition np_exp (A : matrix) : matrix := ew_map cexp A.

(** ** utils.py *)

(** [dag(op) = op.conj().T] *)
Definition dag (op : matrix) : matrix :=
  mk (ncols op) (nrows op) (fun i j => cconj (entry op j i)).

(** [commutator(op1, op2) = op1.dot(op2) - op2.dot(op1)] *)
Definition commutator (op1 op2 : matrix) : result matrix :=
  a <- np_dot op1 op2 ;;
  b <- np_dot op2 op1 ;;
  np_sub a b.

(** [is_vector(vec) = vec.shape[0] != vec.shape[1]] *)
Definition is_vector (vec : ndarray) : result bool :=
  s0 <- py_index (shape vec) 0 ;;
  s1 <- py_index (shape vec) 1 ;;
  Ok (negb (bool_decide (s0 = s1))).

(** [is_matrix(mat) = mat.shape[0] == mat.shape[1]] *)
Definition is_matrix (mat : ndarray) : result bool :=
  s0 <- py_index (shape mat) 0 ;;
  s1 <- py_index (shape mat) 1 ;;
  Ok (bool_decide (s0 = s1)).

(** [np.allclose(A, B)]: comparison within numpy's floating tolerance. *)
Variable allclose : matrix -> matrix -> bool.

(** [is_hermitian(op)], with [sparse_lib = False]: only the dense branch
    runs. *)
Definition is_hermitian (op : matrix) : result bool :=
  m <- is_matrix (Nd2 op) ;;
  if m then
    if allclose (dag op) op then Ok true else Raise ValueError
  else Raise ValueError.

(** ** The bath interface (consumed) *)

Record Bath : Type := {
  c_op : ndarray;
  bath_corr_t : C -> C;
  ft_bath_corr : C -> C
}.

(** ** hamiltonian.py *)

(** [np.linalg.eigh]: the eigenvalues and the matrix of eigenvectors. *)
Variable eigh : matrix -> list C * matrix.

Record Hamiltonian : Type := {
  nstates : nat;
  is_hermitian_attr : bool;
  ham : matrix;
  ev : list C;
  ek : matrix;
  omegas : matrix;
  baths : option (list Bath);
  (** [nbaths] is only assigned when [baths] is not [None]. *)
  nbaths : option nat;
  (** [repr(self) == "Multidimensional Hamiltonian class"] *)
  is_md : bool
}.

(** [A[i,j]] with numpy's bounds check (for non-negative indices). *)
Definition np_getitem (A : matrix) (i j : nat) : result C :=
  if decide (i < nrows A /\ j < ncols A) then Ok (entry A i j)
  else Raise IndexError.

(** An [r] by [c] array filled by a double loop
    [for i in range(r): for j in range(c): A[i,j] = f(i,j)]. *)
Definition rtab (r c : nat) (f : nat -> nat -> result C) : result matrix :=
  rws <- rmap (fun i => rmap (f i) (seq 0 c)) (seq 0 r) ;;
  Ok (Matrix r c rws).

(** [compute_frequencies(self)]: the new [self.omegas]; [ev[i]] raises when
    out of range. *)
Definition compute_frequencies (n : nat) (ev : list C) (const_hbar : C)
  : result matrix :=
  rtab n n (fun i j =>
    ei <- py_index ev (Z.of_nat i) ;;
    ej <- py_index ev (Z.of_nat j) ;;
    Ok ((ei - ej) / const_hbar)%C).

(** [eigensystem(self)]; [const_hbar] is the module-level [const.hbar]. *)
Definition eigensystem (self : Hamiltonian) (const_hbar : C)
  : result Hamiltonian :=
  let '(w, v) := eigh (ham self) in
  om <- compute_frequencies (nstates self) w const_hbar ;;
  Ok {| nstates := nstates self; is_hermitian_attr := is_hermitian_attr self;
        ham := ham self; ev := w; ek := v; omegas := om;
        baths := baths self; nbaths := nbaths self; is_md := is_md self |}.

(** [check_hermiticity(self, H)] *)
Definition check_hermiticity (H : matrix) : result bool :=
  h <- is_hermitian H ;;
  if h then Ok true else Raise ValueError.

(** [Hamiltonian.__init__(self, H, baths, hbar)]: it stores [hbar] in the
    module-level constant before anything else, so the frequencies are
    computed with it. *)
Definition Hamiltonian_init (H : matrix) (bs : option (list Bath)) (hbar : C)
  : result Hamiltonian :=
  let const_hbar := hbar in
  let n := nrows H in
  hflag <- check_hermiticity H ;;
  let '(w, v) := eigh H in
  om <- compute_frequencies n w const_hbar ;;
  Ok {| nstates := n; is_hermitian_attr := hflag; ham := H;
        ev := w; ek := v; omegas := om;
        baths := bs; nbaths := length <$> bs; is_md := false |}.

(** An operand whose [shape[1]] exists is two-dimensional here. *)
Definition as_2d (op : ndarray) : result matrix :=
  match op with
  | Nd2 A => Ok A
  | _ => Raise IndexError
  end.

Definition to_eigenbasis (self : Hamiltonian) (op : ndarray) : result matrix :=
  v <- is_vector op ;;
  if v then
    A <- as_2d op ;; np_dot (dag (ek self)) A
  else
    m <- is_matrix op ;;
    if m then
      A <- as_2d op ;; X <- np_dot A (ek self) ;; np_dot (dag (ek self)) X
    else Raise AttributeError.

Definition from_eigenbasis (self : Hamiltonian) (op : ndarray)
  : result matrix :=
  v <- is_vector op ;;
  if v then
    A <- as_2d op ;; np_dot (ek self) A
  else
    m <- is_matrix op ;;
    if m then
      A <- as_2d op ;; X <- np_dot A (dag (ek self)) ;; np_dot (ek self) X
    else Raise AttributeError.

(** [Hamiltonian.commutator(self, op, eig)] *)
Definition Hamiltonian_commutator (self : Hamiltonian) (op : matrix)
    (eig : bool) : result matrix :=
  if eig then
    a <- np_dot (np_diag (ev self)) op ;;
    b <- np_dot op (np_diag (ev self)) ;;
    np_sub a b
  else
    a <- np_dot (ham self) op ;;
    b <- np_dot op (ham self) ;;
    np_sub a b.

(** ** Options, Results and the Integrator (consumed) *)

Record Options : Type := {
  method : string;
  markov_time : C;
  progress : bool
}.

(** Modelled from the spec: the Results class is not part of the sources.
    [analyze_state(index, time, state)] records its arguments; [every] is the
    sampling stride and [map_ops] asks for the post-processing hook. *)
Record Results : Type := {
  every : Z;
  map_ops : bool;
  map_function : bool;
  analyzed : list (Z * C * matrix)
}.

(** Modelled from the spec: [analyze_state(index, time, state)], the one
    method of Results that [solve] calls, appends what it is given. *)
Definition analyze_state (r : Results) (i : Z) (time : C) (state : matrix)
  : Results :=
  {| every := every r; map_ops := map_ops r; map_function := map_function r;
     analyzed := analyzed r ++ [(i, time, state)] |}.

(** Modelled from the spec: the Integrator class is not part of the sources.
    It exposes [order] (the stage count), [b] (the stage abscissae), the
    current state [y], [_set_y_value(state, t0)] to seed and [integrate()] to
    advance one full step in place.  [y] is a reference to an array of the
    heap. *)
Record Integrator : Type := {
  order : nat;
  b : list C;
  ode_dt : C;
  y : option nat;
  ode_t : C
}.

(** What the constructors of the absent classes return: the defaults of
    [Options()] and [Results()], and the stage table selected by the method
    of the options. *)
Variable default_options : Options.
Variable default_results : Results.
Variable rk_method : Options -> result (nat * list C).

(** One full step of the integrator on the value of [y], given the
    right-hand side [rhs(state, stage)]. *)
Variable rk_step :
  (matrix -> Z -> result matrix) -> Integrator -> matrix -> result matrix.

(** Modelled from the spec: [Integrator(dt, rhs, options)] fixes the stage
    table from the options and holds no state yet; the right-hand side it is
    given is the bound method [self.eom], read through [self] at every
    step. *)
Definition Integrator_init (dt : C) (opts : Options) : result Integrator :=
  tbl <- rk_method opts ;;
  let '(n, bs) := tbl in
  Ok {| order := n; b := bs; ode_dt := dt; y := None; ode_t := 0%C |}.

(** ** redfield.py *)

(** [self.E] is a list of arrays in the time-independent mode and a list of
    lists of arrays (one per stage) in the time-dependent mode. *)
Inductive dressed : Type :=
  | E_list (l : list matrix)
  | E_stages (l : list (list matrix)).

Inductive eom_kind : Set := Rf_eom | Td_rf_eom.

Record Redfield : Type := {
  rf_ham : Hamiltonian;
  rf_time_dep : bool;
  rf_is_secular : bool;
  rf_dt : C;
  rf_options : Options;
  rf_results : Results;
  rf_ode : Integrator;
  rf_C : list matrix;
  rf_E : dressed;
  rf_gamma_n : list (list matrix);
  rf_gamma_n_1 : list (list matrix);
  rf_equation_of_motion : option eom_kind
}.

(** [Redfield.__init__]: the other attributes are created by [solve] and
    [setup] before they are read. *)
Definition Redfield_init (h : Hamiltonian) (time_dependent secular : bool)
  : Redfield :=
  {| rf_ham := h; rf_time_dep := time_dependent; rf_is_secular := secular;
     rf_dt := 0%C; rf_options := default_options;
     rf_results := default_results;
     rf_ode := {| order := 0; b := []; ode_dt := 0%C; y := None;
                  ode_t := 0%C |};
     rf_C := []; rf_E := E_list []; rf_gamma_n := []; rf_gamma_n_1 := [];
     rf_equation_of_motion := None |}.

(** Iterating over [self.ham.baths] and reading [self.ham.nbaths]. *)
Definition the_baths (h : Hamiltonian) : result (list Bath) :=
  match baths h with Some bs => Ok bs | None => Raise TypeError end.
Definition the_nbaths (h : Hamiltonian) : result nat :=
  match nbaths h with Some n => Ok n | None => Raise AttributeError end.

(** The table [theta_plus] of [make_redfield_operators]. *)
Definition ft_theta_plus (h : Hamiltonian) (bath : Bath) : result matrix :=
  rtab (nstates h) (nstates h)
       (fun i j => w <- np_getitem (omegas h) i j ;;
                   Ok (ft_bath_corr bath (- w)%C)).

(** [make_redfield_operators(self)]: returns the new [self.C] and
    [self.E]. *)
Definition make_redfield_operators (h : Hamiltonian)
  : result (list matrix * list matrix) :=
  bs <- the_baths h ;;
  rfold (fun '(Cs, Es) bath =>
           Ga <- to_eigenbasis h (c_op bath) ;;
           theta_plus <- ft_theta_plus h bath ;;
           Ga_plus <- np_mul Ga theta_plus ;;
           Ok (Cs ++ [Ga], Es ++ [Ga_plus]))
        bs ([], []).

(** [np.exp(-1.j*self.ham.omegas*t)*bath.bath_corr_t(t)] *)
Definition theta_plus_t (h : Hamiltonian) (bath : Bath) (t : C) : matrix :=
  muls (np_exp (muls (smul (- ci)%C (omegas h)) t)) (bath_corr_t bath t).

(** [l[op][k] = x] and [l[op].append(x)] on a list of lists. *)
Definition set2 {A} (l : list (list A)) (op k : nat) (x : A)
  : result (list (list A)) :=
  inner <- py_index l (Z.of_nat op) ;;
  inner' <- py_setitem inner k x ;;
  py_setitem l op inner'.
Definition append2 {A} (l : list (list A)) (op : nat) (x : A)
  : result (list (list A)) :=
  inner <- py_index l (Z.of_nat op) ;;
  py_setitem l op (inner ++ [x]).
Definition get2 {A} (l : list (list A)) (op : nat) (k : Z) : result A :=
  inner <- py_index l (Z.of_nat op) ;;
  py_index inner k.

(** The recurrence state [(self.gamma_n, self.gamma_n_1)]. *)
Definition gammas : Type := (list (list matrix) * list (list matrix))%type.

(** One stage of the second loop of [coupling_operators_setup]. *)
Definition setup_stage (h : Hamiltonian) (bs : list C) (dt : C)
    (op : nat) (bath : Bath) (g : gammas) (k : nat) : result gammas :=
  let '(gn, gn1) := g in
  bk <- py_index bs (Z.of_nat k) ;;
  let t := (bk * dt)%C in
  if decide (k = 0) then
    gn' <- append2 gn op (np_zeros (nstates h) (nstates h)) ;;
    let theta_plus := theta_plus_t h bath 0%C in
    gn1' <- append2 gn1 op theta_plus ;;
    Ok (gn', gn1')
  else
    let theta_plus := theta_plus_t h bath t in
    prev <- get2 gn op (Z.of_nat k - 1) ;;
    bk' <- py_index bs (Z.of_nat k) ;;
    bk1 <- py_index bs (Z.of_nat k - 1) ;;
    prev1 <- get2 gn1 op (Z.of_nat k - 1) ;;
    s <- np_add theta_plus prev1 ;;
    x <- np_add prev (smul (chalf * (bk' - bk1) * dt)%C s) ;;
    gn' <- append2 gn op x ;;
    gn1' <- append2 gn1 op theta_plus ;;
    Ok (gn', gn1').

(** [for op,bath in enumerate(xs)] *)
Definition enumerate {A} (xs : list A) : list (nat * A) :=
  zip (seq 0 (length xs)) xs.

(** [coupling_operators_setup(self)]: returns the new [self.C],
    [self.gamma_n] and [self.gamma_n_1]. *)
Definition coupling_operators_setup (h : Hamiltonian) (ode : Integrator)
    (dt : C) : result (list matrix * gammas) :=
  nb <- the_nbaths h ;;
  let gn0 : list (list matrix) := replicate nb [] in
  let gn10 : list (list matrix) := replicate nb [] in
  bs <- the_baths h ;;
  st <- rfold (fun '(Cs, (gn, gn1)) '(op, bath) =>
            Ck <- to_eigenbasis h (c_op bath) ;;
            gn' <- py_setitem gn op [] ;;
            gn1' <- py_setitem gn1 op [] ;;
            Ok (Cs ++ [Ck], (gn', gn1')))
         (enumerate bs) ([], (gn0, gn10)) ;;
  let '(Cs, g) := st in
  g' <- rfold (fun g '(op, bath) =>
           rfold (setup_stage h (b ode) dt op bath) (seq 0 (order ode)) g)
        (enumerate bs) g ;;
  Ok (Cs, g').

(** One stage of [make_tcl2_operators]. *)
Definition tcl2_stage (h : Hamiltonian) (bs : list C) (dt time : C)
    (op : nat) (bath : Bath) (g : gammas) (k : nat) : result gammas :=
  let '(gn, gn1) := g in
  bk <- py_index bs (Z.of_nat k) ;;
  let t := (time + bk * dt)%C in
  let theta_plus := theta_plus_t h bath t in
  if decide (k = 0) then
    lst <- get2 gn op (-1) ;;
    gn' <- set2 gn op k lst ;;
    gn1' <- set2 gn1 op k theta_plus ;;
    Ok (gn', gn1')
  else
    prev <- get2 gn op (Z.of_nat k - 1) ;;
    bk' <- py_index bs (Z.of_nat k) ;;
    bk1 <- py_index bs (Z.of_nat k - 1) ;;
    prev1 <- get2 gn1 op (Z.of_nat k - 1) ;;
    s <- np_add theta_plus prev1 ;;
    x <- np_add prev (smul (chalf * dt * (bk' - bk1))%C s) ;;
    gn' <- set2 gn op k x ;;
    gn1' <- set2 gn1 op k theta_plus ;;
    Ok (gn', gn1').

(** [make_tcl2_operators(self, time)] *)
Definition make_tcl2_operators (h : Hamiltonian) (ode : Integrator) (dt : C)
    (g : gammas) (time : C) : result gammas :=
  bs <- the_baths h ;;
  rfold (fun g '(op, bath) =>
           rfold (tcl2_stage h (b ode) dt time op bath) (seq 0 (order ode)) g)
        (enumerate bs) g.

(** [self.E[i].append(self.gamma_n[i][j]*self.C[i])] *)
Definition dress_stage (Cs : list matrix) (gn : list (list matrix))
    (i : nat) (E : list (list matrix)) (j : nat)
  : result (list (list matrix)) :=
  g <- get2 gn i (Z.of_nat j) ;;
  Ci <- py_index Cs (Z.of_nat i) ;;
  x <- np_mul g Ci ;;
  append2 E i x.

(** The first loop of [update_ops]: the new [self.E]. *)
Definition dress (h : Hamiltonian) (ode : Integrator) (Cs : list matrix)
    (gn : list (list matrix)) : result (list (list matrix)) :=
  nb <- the_nbaths h ;;
  rfold (fun E i =>
           E0 <- py_setitem E i [] ;;
           rfold (dress_stage Cs gn i) (seq 0 (order ode)) E0)
        (seq 0 (length Cs)) (replicate nb []).

(** [update_ops(self, time)] *)
Definition update_ops (self : Redfield) (time : C) : result Redfield :=
  E <- dress (rf_ham self) (rf_ode self) (rf_C self) (rf_gamma_n self) ;;
  g <- (if cltb time (markov_time (rf_options self)) then
          make_tcl2_operators (rf_ham self) (rf_ode self) (rf_dt self)
            (rf_gamma_n self, rf_gamma_n_1 self) time
        else Ok (rf_gamma_n self, rf_gamma_n_1 self)) ;;
  Ok {| rf_ham := rf_ham self; rf_time_dep := rf_time_dep self;
        rf_is_secular := rf_is_secular self; rf_dt := rf_dt self;
        rf_options := rf_options self; rf_results := rf_results self;
        rf_ode := rf_ode self; rf_C := rf_C self; rf_E := E_stages E;
        rf_gamma_n := g.1; rf_gamma_n_1 := g.2;
        rf_equation_of_motion := rf_equation_of_motion self |}.

(** The term that one bath adds to [dy] in [rf_eom] / [td_rf_eom], given
    the dressed operator [Ej] that the variant selects. *)
Definition bath_term (const_hbar : C) (state Ej Cj : matrix)
  : result matrix :=
  a <- np_dot Ej state ;;
  t1 <- commutator a Cj ;;
  b' <- np_dot state (dag Ej) ;;
  t2 <- commutator Cj b' ;;
  s <- np_add t1 t2 ;;
  Ok (divs s (const_hbar * const_hbar)%C).

(** [rf_eom(self, state, order)] *)
Definition rf_eom (self : Redfield) (const_hbar : C) (state : matrix)
    (stage : Z) : result matrix :=
  hc <- Hamiltonian_commutator (rf_ham self) state true ;;
  let dy := smul (- ci / const_hbar)%C hc in
  bs <- the_baths (rf_ham self) ;;
  rfold (fun dy j =>
           Ej <- match rf_E self with
                 | E_list l => py_index l (Z.of_nat j)
                 | E_stages _ => Raise TypeError
                 end ;;
           Cj <- py_index (rf_C self) (Z.of_nat j) ;;
           x <- bath_term const_hbar state Ej Cj ;;
           np_iadd dy x)
        (seq 0 (length bs)) dy.

(** [td_rf_eom(self, state, order)] *)
Definition td_rf_eom (self : Redfield) (const_hbar : C) (state : matrix)
    (stage : Z) : result matrix :=
  hc <- Hamiltonian_commutator (rf_ham self) state true ;;
  let dy := smul (- ci / const_hbar)%C hc in
  bs <- the_baths (rf_ham self) ;;
  rfold (fun dy j =>
           Ej <- match rf_E self with
                 | E_stages l =>
                     Es <- py_index l (Z.of_nat j) ;; py_index Es stage
                 | E_list _ => Raise TypeError
                 end ;;
           Cj <- py_index (rf_C self) (Z.of_nat j) ;;
           x <- bath_term const_hbar state Ej Cj ;;
           np_iadd dy x)
        (seq 0 (length bs)) dy.

(** [eom(self, state, order)] dispatches on [self.equation_of_motion]. *)
Definition eom (self : Redfield) (const_hbar : C) (state : matrix)
    (stage : Z) : result matrix :=
  match rf_equation_of_motion self with
  | Some Rf_eom => rf_eom self const_hbar state stage
  | Some Td_rf_eom => td_rf_eom self const_hbar state stage
  | None => Raise AttributeError
  end.

(** *** The equation of motion as the specification writes it

    [dρ/dt = -(i/ħ)[H, ρ]_eig + Σ_k { [E_k ρ, C_k] + [C_k, ρ E_k†] } / ħ²],
    with total entrywise operations on [n] by [n] matrices. *)
Definition madd (n : nat) (A B : matrix) : matrix :=
  mk n n (fun i j => entry A i j + entry B i j)%C.
Definition msub (n : nat) (A B : matrix) : matrix :=
  mk n n (fun i j => entry A i j - entry B i j)%C.
Definition comm (n : nat) (A B : matrix) : matrix :=
  msub n (dot A B) (dot B A).
Definition msum (n : nat) (Ms : list matrix) : matrix :=
  foldr (madd n) (np_zeros n n) Ms.
Definition redfield_rhs (n : nat) (hbar : C) (evs : list C)
    (CE : list (matrix * matrix)) (rho : matrix) : matrix :=
  madd n
    (smul (- (ci / hbar))%C (comm n (np_diag evs) rho))
    (divs (msum n (map (fun '(Ck, Ek) =>
                     madd n (comm n (dot Ek rho) Ck)
                            (comm n Ck (dot rho (dag Ek)))) CE))
          (hbar * hbar)%C).

(** ** The solve loop

    [solve] mutates the engine, allocates arrays and lets the integrator
    overwrite its state in place, so it runs in a state-and-exception monad
    over a [world]: the heap of the arrays that the caller, the engine and
    the integrator hold references to, the engine [self] and what
    [print] wrote.  When a statement raises, the world is the one it
    raised in. *)

Record world : Type := {
  heap : gmap nat ndarray;
  self : Redfield;
  stdout : list Z
}.

Definition M (A : Type) : Type := world -> result A * world.

Definition mret {A} (a : A) : M A := fun w => (Ok a, w).
Definition mraise {A} (e : exn) : M A := fun w => (Raise e, w).
Definition mbind {A B} (m : M A) (f : A -> M B) : M B :=
  fun w => match m w with
           | (Ok a, w') => f a w'
           | (Raise e, w') => (Raise e, w')
           end.
Definition lift {A} (r : result A) : M A := fun w => (r, w).

Declare Scope M_scope.
Delimit Scope M_scope with M.
Notation "x <~ e ;; k" := (mbind e (fun x => k))
  (at level 100, e at next level, right associativity) : M_scope.
Notation "e ;;; k" := (mbind e (fun _ => k))
  (at level 100, right associativity) : M_scope.

Definition get_self : M Redfield := fun w => (Ok (self w), w).
Definition modify_self (f : Redfield -> Redfield) : M unit :=
  fun w => (Ok tt, {| heap := heap w; self := f (self w);
                      stdout := stdout w |}).
(** A method of [self] that may raise: [self] is replaced by what the method
    leaves, and is untouched when it raises. *)
Definition call_self (f : Redfield -> result Redfield) : M unit :=
  fun w => match f (self w) with
           | Ok s' => (Ok tt, {| heap := heap w; self := s';
                                 stdout := stdout w |})
           | Raise e => (Raise e, w)
           end.
Definition print (i : Z) : M unit :=
  fun w => (Ok tt, {| heap := heap w; self := self w;
                      stdout := stdout w ++ [i] |}).

(** A new array object, reading through a reference, and overwriting the
    array a reference points to. *)
Definition alloc (v : ndarray) : M nat :=
  fun w => let l := fresh (dom (heap w)) in
           (Ok l, {| heap := <[l := v]> (heap w); self := self w;
                     stdout := stdout w |}).
Definition load (l : nat) : M ndarray :=
  fun w => match heap w !! l with
           | Some v => (Ok v, w)
           | None => (Raise AttributeError, w)
           end.
Definition store (l : nat) (v : ndarray) : M unit :=
  fun w => (Ok tt, {| heap := <[l := v]> (heap w); self := self w;
                      stdout := stdout w |}).

(** [for x in xs: body(x)] *)
Fixpoint mfor {A} (body : A -> M unit) (xs : list A) : M unit :=
  match xs with
  | [] => mret tt
  | x :: xs' => (body x ;;; mfor body xs')%M
  end.

(** Assignments to the attributes of [self]. *)
Definition with_dt (v : C) (s : Redfield) : Redfield :=
  {| rf_ham := rf_ham s; rf_time_dep := rf_time_dep s;
     rf_is_secular := rf_is_secular s; rf_dt := v;
     rf_options := rf_options s; rf_results := rf_results s;
     rf_ode := rf_ode s; rf_C := rf_C s; rf_E := rf_E s;
     rf_gamma_n := rf_gamma_n s; rf_gamma_n_1 := rf_gamma_n_1 s;
     rf_equation_of_motion := rf_equation_of_motion s |}.
Definition with_options (v : Options) (s : Redfield) : Redfield :=
  {| rf_ham := rf_ham s; rf_time_dep := rf_time_dep s;
     rf_is_secular := rf_is_secular s; rf_dt := rf_dt s;
     rf_options := v; rf_results := rf_results s;
     rf_ode := rf_ode s; rf_C := rf_C s; rf_E := rf_E s;
     rf_gamma_n := rf_gamma_n s; rf_gamma_n_1 := rf_gamma_n_1 s;
     rf_equation_of_motion := rf_equation_of_motion s |}.
Definition with_results (v : Results) (s : Redfield) : Redfield :=
  {| rf_ham := rf_ham s; rf_time_dep := rf_time_dep s;
     rf_is_secular := rf_is_secular s; rf_dt := rf_dt s;
     rf_options := rf_options s; rf_results := v;
     rf_ode := rf_ode s; rf_C := rf_C s; rf_E := rf_E s;
     rf_gamma_n := rf_gamma_n s; rf_gamma_n_1 := rf_gamma_n_1 s;
     rf_equation_of_motion := rf_equation_of_motion s |}.
Definition with_ode (v : Integrator) (s : Redfield) : Redfield :=
  {| rf_ham := rf_ham s; rf_time_dep := rf_time_dep s;
     rf_is_secular := rf_is_secular s; rf_dt := rf_dt s;
     rf_options := rf_options s; rf_results := rf_results s;
     rf_ode := v; rf_C := rf_C s; rf_E := rf_E s;
     rf_gamma_n := rf_gamma_n s; rf_gamma_n_1 := rf_gamma_n_1 s;
     rf_equation_of_motion := rf_equation_of_motion s |}.
Definition with_operators (Cs : list matrix) (E : dressed) (g : gammas)
    (k : eom_kind) (s : Redfield) : Redfield :=
  {| rf_ham := rf_ham s; rf_time_dep := rf_time_dep s;
     rf_is_secular := rf_is_secular s; rf_dt := rf_dt s;
     rf_options := rf_options s; rf_results := rf_results s;
     rf_ode := rf_ode s; rf_C := Cs; rf_E := E;
     rf_gamma_n := g.1; rf_gamma_n_1 := g.2;
     rf_equation_of_motion := Some k |}.

Definition with_map_function (r : Results) : Results :=
  {| every := every r; map_ops := map_ops r; map_function := true;
     analyzed := analyzed r |}.

(** [self.options.method == "exact"] *)
Definition is_exact (o : Options) : bool :=
  bool_decide (method o = "exact"%string).

(** [setup(self, options, results)] *)
Definition setup (options : option Options) (results : option Results)
  : M unit :=
  (match options with
   | None => modify_self (with_options default_options)
   | Some o =>
       modify_self (with_options o) ;;;
       if is_exact o then mraise NotImplementedError else mret tt
   end ;;;
   match results with
   | None => modify_self (with_results default_results)
   | Some r =>
       modify_self (with_results r) ;;;
       if map_ops r then
         s <~ get_self ;;
         if is_md (rf_ham s) then
           modify_self (with_results (with_map_function r))
         else mraise AssertionError
       else mret tt
   end ;;;
   s <~ get_self ;;
   ode <~ lift (Integrator_init (rf_dt s) (rf_options s)) ;;
   modify_self (with_ode ode) ;;;
   s <~ get_self ;;
   if negb (is_exact (rf_options s)) then
     if rf_time_dep s then
       r <~ lift (coupling_operators_setup (rf_ham s) (rf_ode s) (rf_dt s)) ;;
       modify_self (with_operators r.1 (rf_E s) r.2 Td_rf_eom)
     else
       r <~ lift (make_redfield_operators (rf_ham s)) ;;
       modify_self (with_operators r.1 (E_list r.2)
                      (rf_gamma_n s, rf_gamma_n_1 s) Rf_eom)
   else mret tt)%M.

(** Modelled from the spec: [_set_y_value(state, t0)] seeds the integrator
    with the array it is given (the reference, not a copy). *)
Definition set_y_value (rho : nat) (t0 : C) : M unit :=
  modify_self (fun s =>
    with_ode {| order := order (rf_ode s); b := b (rf_ode s);
                ode_dt := ode_dt (rf_ode s); y := Some rho; ode_t := t0 |} s).

(** Modelled from the spec: [integrate()] advances the array behind [y] by
    one full step in place, evaluating the right-hand side on the engine as
    it is at that moment. *)
Definition integrate (const_hbar : C) : M unit :=
  (s <~ get_self ;;
   match y (rf_ode s) with
   | None => mraise AttributeError
   | Some l =>
       v <~ load l ;;
       A <~ lift (as_2d v) ;;
       A' <~ lift (rk_step (eom s const_hbar) (rf_ode s) A) ;;
       store l (Nd2 A') ;;;
       modify_self (fun s =>
         with_ode {| order := order (rf_ode s); b := b (rf_ode s);
                     ode_dt := ode_dt (rf_ode s); y := y (rf_ode s);
                     ode_t := (ode_t (rf_ode s) + ode_dt (rf_ode s))%C |} s)
   end)%M.

(** [i % every] on Python integers. *)
Definition py_mod (i k : Z) : result Z :=
  if decide (k = 0%Z) then Raise ZeroDivisionError else Ok (i mod k)%Z.

(** The statements of [solve] before the branch on the method: the step
    size, [setup], and the copy of [rho0] taken to the eigenbasis.  Returns
    the value of [rho]. *)
Definition solve_init (rho0 : nat) (times : list C)
    (options : option Options) (results : option Results) : M matrix :=
  (t1 <~ lift (py_index times 1) ;;
   t0 <~ lift (py_index times 0) ;;
   modify_self (with_dt (t1 - t0)%C) ;;;
   setup options results ;;;
   v <~ load rho0 ;;
   cp <~ alloc v ;;
   v' <~ load cp ;;
   s <~ get_self ;;
   lift (to_eigenbasis (rf_ham s) v'))%M.

(** The body of [for i,time in enumerate(times)]. *)
Definition solve_step (const_hbar : C) (it : nat * C) : M unit :=
  (let '(i, time) := it in
   s <~ get_self ;;
   (if rf_time_dep s then call_self (fun s => update_ops s time)
    else mret tt) ;;;
   s <~ get_self ;;
   m <~ lift (py_mod (Z.of_nat i) (every (rf_results s))) ;;
   (if decide (m = 0%Z) then
      (if progress (rf_options s) then print (Z.of_nat i) else mret tt) ;;;
      match y (rf_ode s) with
      | None => mraise AttributeError
      | Some l =>
          v <~ load l ;;
          lab <~ lift (from_eigenbasis (rf_ham s) v) ;;
          st <~ alloc (Nd2 lab) ;;
          modify_self (fun s =>
            with_results (analyze_state (rf_results s) (Z.of_nat i) time lab)
                         s)
      end
    else mret tt) ;;;
   integrate const_hbar)%M.

(** The statements of [solve] before its loop; [rho] is a new array. *)
Definition solve_seed (rho0 : nat) (times : list C)
    (options : option Options) (results : option Results) : M unit :=
  (rho_v <~ solve_init rho0 times options results ;;
   rho <~ alloc (Nd2 rho_v) ;;
   s <~ get_self ;;
   if is_exact (rf_options s) then mraise NotImplementedError
   else
     t0 <~ lift (py_index times 0) ;;
     set_y_value rho t0)%M.

(** [solve(self, rho0, times, options, results)]; [rho0] is the reference
    the caller passes. *)
Definition solve (const_hbar : C) (rho0 : nat) (times : list C)
    (options : option Options) (results : option Results) : M Results :=
  (solve_seed rho0 times options results ;;;
   mfor (solve_step const_hbar) (enumerate times) ;;;
   s <~ get_self ;;
   mret (rf_results s))%M.

(** The engine as it is when iteration [i] of the loop starts. *)
Definition pre_step (const_hbar : C) (rho0 : nat) (times : list C)
    (options : option Options) (results : option Results) (i : nat)
    (w : world) : world :=
  ((solve_seed rho0 times options results ;;;
    mfor (solve_step const_hbar) (take i (enumerate times)))%M w).2.

(** ** The dressed operators as the specification writes them *)

(** An array has [r] rows and [c] columns. *)
Definition dims (r c : nat) (A : matrix) : Prop := nrows A = r /\ ncols A = c.

(** [A ⊙ B], entry by entry, on [n] by [n] matrices. *)
Definition hadamard (n : nat) (A B : matrix) : matrix :=
  mk n n (fun i j => entry A i j * entry B i j)%C.

(** [theta_plus(t) = exp(-i·omegas·t)·bath_corr_t(t)], elementwise over the
    [n] by [n] frequency matrix. *)
Definition theta_plus_spec (n : nat) (h : Hamiltonian) (bath : Bath) (t : C)
  : matrix :=
  mk n n (fun i j =>
    cexp (- (ci * entry (omegas h) i j * t)) * bath_corr_t bath t)%C.

(** One trapezoidal update: [prev + w·(theta + prev1)]. *)
Definition trapezoid (n : nat) (prev prev1 theta : matrix) (w : C) : matrix :=
  mk n n (fun i j =>
    entry prev i j + w * (entry theta i j + entry prev1 i j))%C.

(** The seeding of the recurrence for one bath: the pair
    [(gamma_n[k], gamma_n_1[k])] at stage [k], with abscissae [bs] and step
    [dt]. *)
Fixpoint seed_stage (n : nat) (h : Hamiltonian) (bath : Bath) (bs : list C)
    (dt : C) (k : nat) : matrix * matrix :=
  match k with
  | O => (np_zeros n n, theta_plus_spec n h bath 0%C)
  | S k' =>
      let '(g, g1) := seed_stage n h bath bs dt k' in
      let theta := theta_plus_spec n h bath (nth k bs 0 * dt)%C in
      (trapezoid n g g1 theta (chalf * (nth k bs 0 - nth k' bs 0) * dt)%C,
       theta)
  end.

(** One full step of the recurrence for one bath at [time], from the rows
    [old] of the previous step: stage 0 carries the last accumulated value
    forward, the later stages apply the trapezoidal update at
    [time + b[k]·dt]. *)
Fixpoint advance_stage (n : nat) (h : Hamiltonian) (bath : Bath)
    (bs : list C) (dt time : C) (old : list matrix) (k : nat)
  : matrix * matrix :=
  let theta := theta_plus_spec n h bath (time + nth k bs 0 * dt)%C in
  match k with
  | O => (List.last old (np_zeros n n), theta)
  | S k' =>
      let '(g, g1) := advance_stage n h bath bs dt time old k' in
      (trapezoid n g g1 theta (chalf * (nth k bs 0 - nth k' bs 0) * dt)%C,
       theta)
  end.

(** The state a time-dependent engine is in between two calls of
    [update_ops]: one coupling operator and one row of [order] stages per
    bath, all [n] by [n]. *)
Definition stage_rows (n ord nb : nat) (G : list (list matrix)) : Prop :=
  length G = nb /\
  Forall (fun row => length row = ord /\ Forall (dims n n) row) G.

Definition engine_ok (n : nat) (bs : list Bath) (s : Redfield) : Prop :=
  baths (rf_ham s) = Some bs /\ nbaths (rf_ham s) = Some (length bs) /\
  nstates (rf_ham s) = n /\ dims n n (omegas (rf_ham s)) /\
  length (rf_C s) = length bs /\ Forall (dims n n) (rf_C s) /\
  stage_rows n (order (rf_ode s)) (length bs) (rf_gamma_n s) /\
  stage_rows n (order (rf_ode s)) (length bs) (rf_gamma_n_1 s) /\
  order (rf_ode s) <= length (b (rf_ode s)).

(** A computation that does not raise [NotImplementedError]. *)
Definition implemented {A} (r : result A) : Prop :=
  r <> Raise NotImplementedError.

(** ** Frames of the solve loop *)

(** A computation whose final world, whether it returns or raises, is
    related to its initial world by [Rel]. *)
Definition framed (Rel : world -> world -> Prop) {A} (m : M A) : Prop :=
  forall w, Rel w (m w).2.

(** Arrays are only added to the heap. *)
Definition heap_grows (w w' : world) : Prop :=
  forall l v, heap w !! l = Some v -> heap w' !! l = Some v.

(** The integrator keeps its array, and no other array is overwritten. *)
Definition integrator_owns (w w' : world) : Prop :=
  y (rf_ode (self w')) = y (rf_ode (self w)) /\
  forall l v, heap w !! l = Some v -> y (rf_ode (self w)) <> Some l ->
              heap w' !! l = Some v.

(** ** The sampling cadence as the specification writes it *)

(** The indices below [n] that are multiples of the stride [k]. *)
Definition multiples (k n : nat) : list nat :=
  filter (fun j => j mod k = 0) (seq 0 n).

(** [ceil(n / k)] *)
Definition ceil_div (n k : nat) : nat := (n + k - 1) / k.

(** What the sample of index [i] has to be: the index, its time and the
    array that the integrator holds when iteration [i] starts, taken back to
    the lab basis. *)
Definition pre_step_sample (wi : world) (times : list C) (i : nat)
    (smp : Z * C * matrix) : Prop :=
  exists t l v X,
    times !! i = Some t /\
    y (rf_ode (self wi)) = Some l /\ heap wi !! l = Some v /\
    from_eigenbasis (rf_ham (self wi)) v = Ok X /\
    smp = (Z.of_nat i, t, X).

(** ** The rest of utils.py *)

(** [x.real] *)
Variable creal : C -> C.

(** [anticommutator(op1, op2) = op1.dot(op2) + op2.dot(op1)] *)
Definition anticommutator (op1 op2 : matrix) : result matrix :=
  a <- np_dot op1 op2 ;;
  b <- np_dot op2 op1 ;;
  np_add a b.

(** [matmult(mat0, *mats)], for a call with at least one argument: the
    loop keeps the running product in [matout] and the function returns
    [mat], the variable of the loop. *)
Definition matmult_step (st : matrix * matrix) (mat : matrix)
  : result (matrix * matrix) :=
  matout' <- np_dot st.1 mat ;;
  Ok (matout', mat).
Definition matmult (mat0 : matrix) (mats : list matrix) : result matrix :=
  st <- rfold matmult_step mats (mat0, mat0) ;;
  Ok st.2.

(** [psi.diagonal().sum()] *)
Definition diagonal_sum (psi : matrix) : C :=
  csum (Nat.min (nrows psi) (ncols psi)) (fun i => entry psi i i).

(** [norm(psi)]; a call that falls through both tests returns [None]. *)
Definition norm (psi : ndarray) : result (option C) :=
  v <- is_vector psi ;;
  if v then
    A <- as_2d psi ;;
    P <- np_dot (dag A) A ;;
    x <- np_getitem P 0 0 ;;
    Ok (Some (creal x))
  else
    m <- is_matrix psi ;;
    if m then
      A <- as_2d psi ;;
      Ok (Some (creal (diagonal_sum A)))
    else Ok None.

(** [rho.flatten()] of a 2-d array, row by row. *)
Definition flatten (rho : matrix) : list C := concat (rows rho).

(** [to_liouville(rho)], with [sparse_lib = False].  A 2-d array is
    flattened.  Any other operand is read as a 4-index tensor
    [rho[i,j,k,l]]: of the operands modelled here a 0-d array has no
    [shape[0]], and a 1-d array is indexed with too many indices as soon as
    the loops run. *)
Definition to_liouville (rho : ndarray) : result ndarray :=
  if decide (length (shape rho) = 2) then
    A <- as_2d rho ;; Ok (Nd1 (flatten A))
  else
    ns <- py_index (shape rho) 0 ;;
    if decide (ns = 0) then Ok (Nd2 (np_zeros (ns * ns) (ns * ns)))
    else Raise IndexError.

(** [rho_vec.reshape(ns, ns)]: the sizes have to agree. *)
Definition reshape (v : list C) (r c : nat) : result matrix :=
  if decide (r * c = length v)
  then Ok (mk r c (fun i j => nth (i * c + j) v 0%C))
  else Raise ValueError.

(** [from_liouville(rho_vec, ns)]; without [ns] it is
    [int(np.sqrt(len(rho_vec)))]. *)
Definition from_liouville (rho_vec : list C) (ns : option nat)
  : result matrix :=
  let n := match ns with
           | Some n => n
           | None => Nat.sqrt (length rho_vec)
           end in
  reshape rho_vec n n.

(** Conjugation is an involution that respects sums and products. *)
Definition conj_ok : Prop :=
  (forall x, cconj (cconj x) = x) /\
  (forall x y, cconj (x + y)%C = (cconj x + cconj y)%C) /\
  (forall x y, cconj (x * y)%C = (cconj x * cconj y)%C).

(** Consecutive arrays of a list can be multiplied. *)
Definition conformable (ms : list matrix) : Prop :=
  forall i X Y, ms !! i = Some X -> ms !! S i = Some Y -> ncols X = nrows Y.

(** ** What [solve] leaves alone *)

(** The Hamiltonian and the two flags stored by the constructor are the
    same in both worlds. *)
Definition engine_fixed (w w' : world) : Prop :=
  rf_ham (self w') = rf_ham (self w) /\
  rf_time_dep (self w') = rf_time_dep (self w) /\
  rf_is_secular (self w') = rf_is_secular (self w).

(** The indices of a list of samples. *)
Definition sample_indices (smp : list (Z * C * matrix)) : list Z :=
  (fun s => s.1.1) <$> smp.

(** The loop of [solve] leaves the coupling operators and the selected
    equation of motion alone, and the dressed operators too unless the
    engine is time-dependent. *)
Definition operators_fixed (w w' : world) : Prop :=
  rf_time_dep (self w') = rf_time_dep (self w) /\
  rf_C (self w') = rf_C (self w) /\
  rf_equation_of_motion (self w') = rf_equation_of_motion (self w) /\
  (rf_time_dep (self w) = false ->
   rf_E (self w') = rf_E (self w) /\
   rf_gamma_n (self w') = rf_gamma_n (self w) /\
   rf_gamma_n_1 (self w') = rf_gamma_n_1 (self w)).

(** * Properties *)

(** ** Arrays built by [mk] *)

Lemma nth_map_seq {A} (f : nat -> A) (n i : nat) (d : A) :
  i < n -> nth i (map f (seq 0 n)) d = f i.
Proof.
  intros Hi. rewrite (nth_indep _ d (f 0)) by (rewrite length_map, length_seq; lia).
  rewrite (map_nth f (seq 0 n) 0 i). by rewrite seq_nth.
Qed.

Lemma map_seq_ext {A} (f g : nat -> A) (n : nat) :
  (forall i, i < n -> f i = g i) -> map f (seq 0 n) = map g (seq 0 n).
Proof.
  intros H. apply map_ext_in. intros i Hi. apply in_seq in Hi. apply H. lia.
Qed.

Lemma entry_mk r c f i j :
  i < r -> j < c -> entry (mk r c f) i j = f i j.
Proof.
  intros Hi Hj. unfold entry, mk, tab. simpl.
  rewrite (nth_map_seq (fun i => map (f i) (seq 0 c))) by done.
  by rewrite nth_map_seq.
Qed.

Lemma mk_ext r c f g :
  (forall i j, i < r -> j < c -> f i j = g i j) -> mk r c f = mk r c g.
Proof.
  intros H. unfold mk, tab. f_equal.
  apply map_seq_ext. intros i Hi. apply map_seq_ext. intros j Hj. by apply H.
Qed.

Lemma has_shape_mk r c f : has_shape r c (mk r c f).
Proof.
  split; [done|]. split; [done|]. unfold wf. simpl.
  apply mk_ext. intros i j Hi Hj. by rewrite entry_mk.
Qed.

Lemma has_shape_eq r c A f :
  has_shape r c A ->
  (forall i j, i < r -> j < c -> entry A i j = f i j) -> A = mk r c f.
Proof.
  intros (Hr & Hc & Hwf) H. rewrite Hwf, Hr, Hc. by apply mk_ext.
Qed.

Lemma has_shape_ext r c A B :
  has_shape r c A -> has_shape r c B ->
  (forall i j, i < r -> j < c -> entry A i j = entry B i j) -> A = B.
Proof.
  intros HA (Hr & Hc & Hwf) H. rewrite Hwf, Hr, Hc. by apply has_shape_eq.
Qed.

(** ** Finite sums *)

Lemma csum_ext n f g :
  (forall k, k < n -> f k = g k) -> csum n f = csum n g.
Proof.
  induction n as [|n IH]; intros H; simpl; [done|].
  rewrite IH by (intros; apply H; lia). rewrite (H n) by lia. done.
Qed.

Lemma csum_zero n : csum n (fun _ => 0%C) = 0%C.
Proof. induction n as [|n IH]; simpl; [done|]. rewrite IH. ring. Qed.

Lemma csum_add n f g :
  csum n (fun k => f k + g k)%C = (csum n f + csum n g)%C.
Proof. induction n as [|n IH]; simpl; [ring|]. rewrite IH. ring. Qed.

Lemma csum_mul_l n x f :
  csum n (fun k => x * f k)%C = (x * csum n f)%C.
Proof. induction n as [|n IH]; simpl; [ring|]. rewrite IH. ring. Qed.

Lemma csum_mul_r n x f :
  csum n (fun k => f k * x)%C = (csum n f * x)%C.
Proof. induction n as [|n IH]; simpl; [ring|]. rewrite IH. ring. Qed.

Lemma csum_swap n m (f : nat -> nat -> C) :
  csum n (fun i => csum m (fun j => f i j))
  = csum m (fun j => csum n (fun i => f i j)).
Proof.
  induction n as [|n IH]; simpl.
  - by rewrite csum_zero.
  - rewrite IH. by rewrite <- csum_add.
Qed.

(** A sum that meets the diagonal once. *)
Lemma csum_delta_l n i (f : nat -> C) :
  i < n ->
  csum n (fun k => (if decide (i = k) then 1 else 0) * f k)%C = f i.
Proof.
  induction n as [|n IH]; intros Hi; simpl; [lia|].
  destruct (decide (i = n)) as [->|Hne].
  - rewrite (csum_ext n _ (fun _ => 0%C)).
    + rewrite csum_zero. ring.
    + intros k Hk. destruct (decide (n = k)); [lia|ring].
  - rewrite IH by lia. ring.
Qed.

Lemma csum_delta_r n j (f : nat -> C) :
  j < n ->
  csum n (fun k => f k * (if decide (k = j) then 1 else 0))%C = f j.
Proof.
  intros Hj. rewrite <- (csum_delta_l n j f Hj).
  apply csum_ext. intros k Hk.
  destruct (decide (k = j)), (decide (j = k)); try lia; ring.
Qed.

(** ** Matrix products *)

Lemma has_shape_dot A B : has_shape (nrows A) (ncols B) (dot A B).
Proof. apply has_shape_mk. Qed.

Lemma entry_dot A B i j :
  i < nrows A -> j < ncols B ->
  entry (dot A B) i j
  = csum (ncols A) (fun k => entry A i k * entry B k j)%C.
Proof. intros Hi Hj. unfold dot. by rewrite entry_mk. Qed.

Lemma dot_assoc A B D :
  ncols A = nrows B -> ncols B = nrows D ->
  dot (dot A B) D = dot A (dot B D).
Proof.
  intros HAB HBD. unfold dot at 1 3. simpl.
  apply mk_ext. intros i j Hi Hj.
  rewrite (csum_ext (ncols B) _
    (fun m => csum (ncols A)
       (fun k => entry A i k * entry B k m * entry D m j))%C).
  2:{ intros m Hm. rewrite entry_dot by done. by rewrite csum_mul_r. }
  rewrite csum_swap. apply csum_ext. intros k Hk.
  rewrite entry_dot by (simpl; lia).
  rewrite <- csum_mul_l. apply csum_ext. intros m Hm. ring.
Qed.

Lemma dot_identity_l n c A : has_shape n c A -> dot (identity n) A = A.
Proof.
  intros HA. apply (has_shape_ext n c); [|done|].
  - destruct HA as (_ & <- & _). apply has_shape_dot.
  - intros i j Hi Hj. destruct HA as (Hr & Hc & _).
    rewrite entry_dot by (simpl; lia). simpl.
    rewrite (csum_ext n _
      (fun k => (if decide (i = k) then 1 else 0) * entry A k j)%C).
    + by rewrite csum_delta_l.
    + intros k Hk. unfold identity. by rewrite entry_mk.
Qed.

Lemma dot_identity_r r n A : has_shape r n A -> dot A (identity n) = A.
Proof.
  intros HA. apply (has_shape_ext r n); [|done|].
  - destruct HA as (<- & _ & _). apply (has_shape_dot A (identity n)).
  - intros i j Hi Hj. destruct HA as (Hr & Hc & _).
    rewrite entry_dot by (simpl; lia). rewrite Hc.
    rewrite (csum_ext n _
      (fun k => entry A i k * (if decide (k = j) then 1 else 0))%C).
    + by rewrite csum_delta_r.
    + intros k Hk. unfold identity. by rewrite entry_mk.
Qed.

Lemma np_dot_ok A B : ncols A = nrows B -> np_dot A B = Ok (dot A B).
Proof. intros H. unfold np_dot. by rewrite decide_True. Qed.

Lemma np_dot_err A B : ncols A <> nrows B -> np_dot A B = Raise ValueError.
Proof. intros H. unfold np_dot. by rewrite decide_False. Qed.

(** ** Successful comprehensions *)

Lemma rmap_inv {A B} (f : A -> result B) xs ys :
  rmap f xs = Ok ys -> Forall2 (fun x y => f x = Ok y) xs ys.
Proof.
  revert ys; induction xs as [|x xs IH]; intros ys; simpl.
  - intros [= <-]. constructor.
  - destruct (f x) as [y|] eqn:Ey; simpl; [|done].
    destruct (rmap f xs) as [ys'|] eqn:Eys; simpl; [|done].
    intros [= <-]. constructor; auto.
Qed.

Lemma rmap_seq_inv {B} (f : nat -> result B) n ys i :
  rmap f (seq 0 n) = Ok ys -> i < n ->
  exists y, ys !! i = Some y /\ f i = Ok y.
Proof.
  intros H Hi. apply rmap_inv in H.
  destruct (Forall2_lookup_l _ _ _ i i H) as (y & Hy & Hf).
  - by apply lookup_seq_lt.
  - eauto.
Qed.

Lemma py_index_nat_inv {A} (l : list A) (i : nat) x :
  py_index l (Z.of_nat i) = Ok x -> l !! i = Some x.
Proof.
  unfold py_index.
  destruct (Z.of_nat i <? 0)%Z eqn:E; [apply Z.ltb_lt in E; lia|].
  rewrite E, Nat2Z.id. destruct (l !! i); [|done]. by intros [= ->].
Qed.

Lemma nth_lookup_Some' {A} (l : list A) i d x :
  l !! i = Some x -> nth i l d = x.
Proof. intros H. by apply nth_lookup_Some. Qed.

(** ** The transition frequencies *)

Lemma compute_frequencies_entry n evs hbar om i j :
  compute_frequencies n evs hbar = Ok om -> i < n -> j < n ->
  exists ei ej, evs !! i = Some ei /\ evs !! j = Some ej /\
                entry om i j = ((ei - ej) / hbar)%C.
Proof.
  unfold compute_frequencies, rtab. intros H Hi Hj.
  destruct (rmap _ (seq 0 n)) as [rws|] eqn:E; simpl in H; [|done].
  injection H as <-.
  destruct (rmap_seq_inv _ _ _ i E Hi) as (row & Hrow & Erow).
  destruct (rmap_seq_inv _ _ _ j Erow Hj) as (x & Hx & Ex).
  destruct (py_index evs (Z.of_nat i)) as [ei|] eqn:Ei; simpl in Ex; [|done].
  destruct (py_index evs (Z.of_nat j)) as [ej|] eqn:Ej; simpl in Ex; [|done].
  injection Ex as <-.
  exists ei, ej. repeat split; [by apply py_index_nat_inv..|].
  unfold entry. simpl.
  rewrite (nth_lookup_Some' _ _ _ _ Hrow). by apply nth_lookup_Some'.
Qed.

Lemma compute_frequencies_shape n evs hbar om :
  compute_frequencies n evs hbar = Ok om -> nrows om = n /\ ncols om = n.
Proof.
  unfold compute_frequencies, rtab.
  destruct (rmap _ (seq 0 n)) as [rws|]; simpl; [|done].
  by intros [= <-].
Qed.

Lemma omegas_of_init H bs hbar h :
  Hamiltonian_init H bs hbar = Ok h ->
  compute_frequencies (nstates h) (ev h) hbar = Ok (omegas h).
Proof.
  unfold Hamiltonian_init.
  destruct (check_hermiticity H); simpl; [|done].
  destruct (eigh H) as [w v].
  destruct (compute_frequencies (nrows H) w hbar) eqn:E; simpl; [|done].
  by intros [= <-].
Qed.

Lemma omegas_of_eigensystem h0 hbar h :
  eigensystem h0 hbar = Ok h ->
  compute_frequencies (nstates h) (ev h) hbar = Ok (omegas h).
Proof.
  unfold eigensystem. destruct (eigh (ham h0)) as [w v].
  destruct (compute_frequencies (nstates h0) w hbar) eqn:E; simpl; [|done].
  by intros [= <-].
Qed.

(** C6. After construction, and after any recomputation of the
    eigendecomposition, [omegas[i,j] = (ev[i]-ev[j])/hbar], hence
    [omegas[i,j] = -omegas[j,i]] and [omegas[i,i] = 0] for all states
    [i], [j]. *)
Theorem omegas_antisymmetric H bs h0 hbar h :
  Hamiltonian_init H bs hbar = Ok h \/ eigensystem h0 hbar = Ok h ->
  forall i j, i < nstates h -> j < nstates h ->
    (exists ei ej, ev h !! i = Some ei /\ ev h !! j = Some ej /\
                   entry (omegas h) i j = ((ei - ej) / hbar)%C) /\
    entry (omegas h) i j = (- entry (omegas h) j i)%C /\
    entry (omegas h) i i = 0%C.
Proof.
  intros Hh i j Hi Hj.
  assert (Hom : compute_frequencies (nstates h) (ev h) hbar = Ok (omegas h)).
  { destruct Hh; eauto using omegas_of_init, omegas_of_eigensystem. }
  destruct (compute_frequencies_entry _ _ _ _ i j Hom Hi Hj)
    as (ei & ej & Ei & Ej & Eij).
  destruct (compute_frequencies_entry _ _ _ _ j i Hom Hj Hi)
    as (ej' & ei' & Ej' & Ei' & Eji).
  destruct (compute_frequencies_entry _ _ _ _ i i Hom Hi Hi)
    as (a & a' & Ea & Ea' & Eii).
  simplify_eq. split; [eauto|]. split.
  - rewrite Eij, Eji. unfold cdiv. ring.
  - rewrite Eii. unfold cdiv. ring.
Qed.

(** ** Shape classification and the basis changes *)

Lemma is_vector_2d A :
  is_vector (Nd2 A) = Ok (negb (bool_decide (nrows A = ncols A))).
Proof. done. Qed.

Lemma is_matrix_2d A :
  is_matrix (Nd2 A) = Ok (bool_decide (nrows A = ncols A)).
Proof. done. Qed.

(** On an operand that has two dimensions the two classifications are
    complementary. *)
Lemma classification_complementary op v :
  is_vector op = Ok v -> is_matrix op = Ok (negb v).
Proof.
  destruct op as [x|l|A]; [done..|].
  rewrite is_vector_2d, is_matrix_2d. intros [= <-].
  by rewrite negb_involutive.
Qed.

(** An operand with fewer than two dimensions is classified as neither:
    reading [shape[1]] raises. *)
Lemma classification_low_dim op :
  length (shape op) < 2 ->
  is_vector op = Raise IndexError /\ is_matrix op = Raise IndexError.
Proof. destruct op as [x|l|A]; simpl; [done|done|lia]. Qed.

Lemma to_eigenbasis_vector (h : Hamiltonian) A :
  nrows A <> ncols A -> ncols (ek h) = nrows (ek h) ->
  nrows A = nrows (ek h) ->
  to_eigenbasis h (Nd2 A) = Ok (dot (dag (ek h)) A).
Proof.
  intros Hne Hek HA. unfold to_eigenbasis. rewrite is_vector_2d.
  rewrite bool_decide_eq_false_2 by done. simpl.
  apply np_dot_ok. simpl. lia.
Qed.

Lemma to_eigenbasis_matrix (h : Hamiltonian) A :
  nrows A = ncols A -> ncols (ek h) = nrows (ek h) ->
  nrows A = nrows (ek h) ->
  to_eigenbasis h (Nd2 A) = Ok (dot (dag (ek h)) (dot A (ek h))).
Proof.
  intros Hsq Hek HA. unfold to_eigenbasis. rewrite is_vector_2d, is_matrix_2d.
  rewrite bool_decide_eq_true_2 by done. simpl.
  rewrite np_dot_ok by lia. simpl. apply np_dot_ok. simpl. lia.
Qed.

Lemma from_eigenbasis_vector (h : Hamiltonian) A :
  nrows A <> ncols A -> ncols (ek h) = nrows A ->
  from_eigenbasis h (Nd2 A) = Ok (dot (ek h) A).
Proof.
  intros Hne Hek. unfold from_eigenbasis. rewrite is_vector_2d.
  rewrite bool_decide_eq_false_2 by done. simpl. by apply np_dot_ok.
Qed.

Lemma from_eigenbasis_matrix (h : Hamiltonian) A :
  nrows A = ncols A -> ncols (ek h) = nrows (ek h) ->
  nrows A = nrows (ek h) ->
  from_eigenbasis h (Nd2 A) = Ok (dot (ek h) (dot A (dag (ek h)))).
Proof.
  intros Hsq Hek HA. unfold from_eigenbasis.
  rewrite is_vector_2d, is_matrix_2d.
  rewrite bool_decide_eq_true_2 by done. simpl.
  rewrite np_dot_ok by (simpl; lia). simpl. apply np_dot_ok. simpl. lia.
Qed.

(** The branch [raise AttributeError("Not a valid operator")] is never
    taken, whatever the operand. *)
Lemma not_a_valid_operator_unreachable (h : Hamiltonian) op :
  to_eigenbasis h op <> Raise AttributeError /\
  from_eigenbasis h op <> Raise AttributeError.
Proof.
  destruct op as [x|l|A]; [done..|].
  unfold to_eigenbasis, from_eigenbasis. rewrite is_vector_2d, is_matrix_2d.
  destruct (bool_decide (nrows A = ncols A)); simpl; unfold np_dot;
    repeat (case_decide; simpl); done.
Qed.

(** For operands of the dimension of the system the basis changes return
    [ek† op] / [ek op] on a vector and [ek† op ek] / [ek op ek†] on a square
    matrix. *)
Lemma basis_change_classified (h : Hamiltonian) n m A :
  has_shape n n (ek h) -> has_shape n m A ->
  (is_vector (Nd2 A) = Ok true /\
   to_eigenbasis h (Nd2 A) = Ok (dot (dag (ek h)) A) /\
   from_eigenbasis h (Nd2 A) = Ok (dot (ek h) A)) \/
  (is_matrix (Nd2 A) = Ok true /\
   to_eigenbasis h (Nd2 A) = Ok (dot (dag (ek h)) (dot A (ek h))) /\
   from_eigenbasis h (Nd2 A) = Ok (dot (ek h) (dot A (dag (ek h))))).
Proof.
  intros (Hr & Hc & _) (HrA & HcA & _).
  destruct (decide (nrows A = ncols A)) as [Hsq|Hne].
  - right. rewrite is_matrix_2d, bool_decide_eq_true_2 by done.
    split; [done|].
    rewrite to_eigenbasis_matrix, from_eigenbasis_matrix by lia. done.
  - left. rewrite is_vector_2d, bool_decide_eq_false_2 by done.
    split; [done|].
    rewrite to_eigenbasis_vector, from_eigenbasis_vector by lia. done.
Qed.

(** C9. An operand that has no second dimension is classified neither as
    a vector nor as a square matrix; [to_eigenbasis] and [from_eigenbasis]
    then fail inside the classification with an index error, not with the
    error of their last branch. *)
Theorem basis_change_unclassified (h : Hamiltonian) (v : list C) :
  is_vector (Nd1 v) = Raise IndexError /\
  is_matrix (Nd1 v) = Raise IndexError /\
  to_eigenbasis h (Nd1 v) = Raise IndexError /\
  from_eigenbasis h (Nd1 v) = Raise IndexError.
Proof. done. Qed.

(** C5. With a unitary [ek] ([ek† ek = I]), taking an operator of the
    system's dimension out of the eigenbasis and back gives the operator
    again, for vectors and for square matrices. *)
Theorem eigenbasis_round_trip (h : Hamiltonian) n m op :
  has_shape n n (ek h) ->
  dot (dag (ek h)) (ek h) = identity n ->
  has_shape n m op ->
  (X <- from_eigenbasis h (Nd2 op) ;; to_eigenbasis h (Nd2 X)) = Ok op.
Proof.
  intros Hek Hu Hop.
  pose proof Hek as (Hr & Hc & _). pose proof Hop as (HrA & HcA & _).
  destruct (decide (nrows op = ncols op)) as [Hsq|Hne].
  - rewrite from_eigenbasis_matrix by lia. simpl.
    rewrite to_eigenbasis_matrix by (simpl; lia). f_equal.
    rewrite (dot_assoc (ek h)) by (simpl; lia).
    rewrite (dot_assoc op) by (simpl; lia).
    rewrite Hu.
    rewrite (dot_identity_r n n op) by (split; [|split]; [lia..|apply Hop]).
    rewrite <- dot_assoc by (simpl; lia). rewrite Hu.
    by apply (dot_identity_l n m).
  - rewrite from_eigenbasis_vector by lia. simpl.
    rewrite to_eigenbasis_vector by (simpl; lia). f_equal.
    rewrite <- dot_assoc by (simpl; lia). rewrite Hu.
    by apply (dot_identity_l n m).
Qed.

(** ** Loops with an invariant *)

Lemma rfold_seq_from {St} (body : St -> nat -> result St) (P : nat -> St -> Prop)
    n off s0 :
  P off s0 ->
  (forall k s, off <= k < off + n -> P k s ->
     exists s', body s k = Ok s' /\ P (S k) s') ->
  exists s', rfold body (seq off n) s0 = Ok s' /\ P (off + n) s'.
Proof.
  revert off s0. induction n as [|n IH]; intros off s0 H0 Hstep; simpl.
  - exists s0. by rewrite Nat.add_0_r.
  - destruct (Hstep off s0) as (s1 & E1 & H1); [lia|done|].
    rewrite E1. simpl.
    destruct (IH (S off) s1 H1) as (s' & E' & H').
    + intros k s Hk. apply Hstep. lia.
    + exists s'. split; [done|]. by replace (off + S n) with (S off + n) by lia.
Qed.

Lemma rfold_seq_inv {St} (body : St -> nat -> result St) (P : nat -> St -> Prop)
    n s0 :
  P 0 s0 ->
  (forall k s, k < n -> P k s -> exists s', body s k = Ok s' /\ P (S k) s') ->
  exists s', rfold body (seq 0 n) s0 = Ok s' /\ P n s'.
Proof.
  intros H0 Hstep.
  apply (rfold_seq_from body P n 0 s0 H0).
  intros k s Hk. apply Hstep. lia.
Qed.

Lemma rfold_enumerate_from {A St} (body : St -> nat * A -> result St)
    (P : nat -> St -> Prop) (xs all : list A) off s0 :
  (forall k x, xs !! k = Some x -> all !! (off + k) = Some x) ->
  P off s0 ->
  (forall k x s, all !! k = Some x -> off <= k -> P k s ->
     exists s', body s (k, x) = Ok s' /\ P (S k) s') ->
  exists s', rfold body (zip (seq off (length xs)) xs) s0 = Ok s' /\
             P (off + length xs) s'.
Proof.
  revert off s0. induction xs as [|x xs IH]; intros off s0 Hall H0 Hstep; simpl.
  - exists s0. by rewrite Nat.add_0_r.
  - destruct (Hstep off x s0) as (s1 & E1 & H1); [|lia|done|].
    { specialize (Hall 0 x eq_refl). by rewrite Nat.add_0_r in Hall. }
    rewrite E1. simpl.
    destruct (IH (S off) s1) as (s' & E' & H'); [|done| |].
    + intros k y Hk. specialize (Hall (S k) y Hk).
      by replace (S off + k) with (off + S k) by lia.
    + intros k y s Hy Hk. apply Hstep; [done|lia].
    + exists s'. split; [done|].
      by replace (off + S (length xs)) with (S off + length xs) by lia.
Qed.

Lemma rfold_enumerate_inv {A St} (body : St -> nat * A -> result St)
    (P : nat -> St -> Prop) (xs : list A) s0 :
  P 0 s0 ->
  (forall k x s, xs !! k = Some x -> P k s ->
     exists s', body s (k, x) = Ok s' /\ P (S k) s') ->
  exists s', rfold body (enumerate xs) s0 = Ok s' /\ P (length xs) s'.
Proof.
  intros H0 Hstep.
  apply (rfold_enumerate_from body P xs xs 0 s0); [done|done|].
  intros k x s Hx _. by apply Hstep.
Qed.

Lemma rfold_list_inv {A St} (body : St -> A -> result St)
    (P : nat -> St -> Prop) (xs : list A) s0 :
  P 0 s0 ->
  (forall k x s, xs !! k = Some x -> P k s ->
     exists s', body s x = Ok s' /\ P (S k) s') ->
  exists s', rfold body xs s0 = Ok s' /\ P (length xs) s'.
Proof.
  intros H0 Hstep.
  assert (G : forall ys off s, (forall k x, ys !! k = Some x ->
                                  xs !! (off + k) = Some x) ->
            P off s ->
            exists s', rfold body ys s = Ok s' /\ P (off + length ys) s').
  { induction ys as [|y ys IH]; intros off s Hall Hs; simpl.
    - exists s. by rewrite Nat.add_0_r.
    - destruct (Hstep off y s) as (s1 & E1 & H1); [|done|].
      { specialize (Hall 0 y eq_refl). by rewrite Nat.add_0_r in Hall. }
      rewrite E1. simpl.
      destruct (IH (S off) s1) as (s' & E' & H'); [|done|].
      + intros k x Hk. specialize (Hall (S k) x Hk).
        by replace (S off + k) with (off + S k) by lia.
      + exists s'. split; [done|].
        by replace (off + S (length ys)) with (S off + length ys) by lia. }
  apply (G xs 0 s0); done.
Qed.

(** ** Elementwise operations on arrays of one shape *)

Lemma bidx_lt n i : i < n -> bidx n i = i.
Proof. intros H. unfold bidx. case_decide; lia. Qed.

Lemma np_ew_same f r c A B :
  dims r c A -> dims r c B ->
  np_ew f A B = Ok (mk r c (fun i j => f (entry A i j) (entry B i j))).
Proof.
  intros [HrA HcA] [HrB HcB]. unfold np_ew.
  rewrite HrA, HrB, HcA, HcB. unfold bdim. rewrite !decide_True by done.
  f_equal. apply mk_ext. intros i j Hi Hj. by rewrite !bidx_lt.
Qed.

Lemma np_iadd_same r c A B :
  dims r c A -> dims r c B ->
  np_iadd A B = Ok (mk r c (fun i j => entry A i j + entry B i j)%C).
Proof.
  intros HA HB. unfold np_iadd, np_add. rewrite (np_ew_same _ r c) by done.
  simpl. destruct HA as [-> ->]. by rewrite decide_True.
Qed.

Lemma dims_ew_map f r c A : dims r c A -> dims r c (ew_map f A).
Proof. by intros [<- <-]. Qed.

Lemma entry_ew_map f A i j :
  i < nrows A -> j < ncols A -> entry (ew_map f A) i j = f (entry A i j).
Proof. intros Hi Hj. unfold ew_map. by rewrite entry_mk. Qed.

Lemma rtab_ok r c f g :
  (forall i j, i < r -> j < c -> f i j = Ok (g i j)) ->
  rtab r c f = Ok (mk r c g).
Proof.
  intros H. unfold rtab.
  rewrite (rmap_ok _ (fun i => map (g i) (seq 0 c))); [done|].
  intros i Hi. apply elem_of_seq in Hi.
  apply rmap_ok. intros j Hj. apply elem_of_seq in Hj. apply H; lia.
Qed.

(** ** Time-independent setup *)

Lemma ft_theta_plus_ok (h : Hamiltonian) bath n :
  nstates h = n -> dims n n (omegas h) ->
  ft_theta_plus h bath
  = Ok (mk n n (fun i j => ft_bath_corr bath (- entry (omegas h) i j)%C)).
Proof.
  intros Hn [Hr Hc]. unfold ft_theta_plus. rewrite Hn.
  apply rtab_ok. intros i j Hi Hj. unfold np_getitem.
  by rewrite decide_True by lia.
Qed.

(** C4. In the time-independent setup, for every bath [k] (in bath order)
    [C_k] is the coupling operator taken to the eigenbasis and
    [E_k = C_k ⊙ theta_plus] with
    [theta_plus[i,j] = ft_bath_corr(-omegas[i,j])]; the lists [C] and [E]
    have one entry per bath. *)
Theorem make_redfield_operators_spec (h : Hamiltonian) bs n :
  baths h = Some bs -> nstates h = n ->
  dims n n (ek h) -> dims n n (omegas h) ->
  Forall (fun bath => exists A, c_op bath = Nd2 A /\ dims n n A) bs ->
  exists Cs Es,
    make_redfield_operators h = Ok (Cs, Es) /\
    length Cs = length bs /\ length Es = length bs /\
    forall k bath, bs !! k = Some bath ->
      exists Ck, to_eigenbasis h (c_op bath) = Ok Ck /\
                 Cs !! k = Some Ck /\
                 Es !! k = Some (mk n n (fun i j =>
                   entry Ck i j
                   * ft_bath_corr bath (- entry (omegas h) i j))%C).
Proof.
  intros Hb Hn Hek Hom Hbs.
  unfold make_redfield_operators, the_baths. rewrite Hb. simpl.
  set (body := fun '(Cs, Es) bath => _).
  set (P := fun (m : nat) (st : list matrix * list matrix) =>
    length st.1 = m /\ length st.2 = m /\
    forall k bath, k < m -> bs !! k = Some bath ->
      exists Ck, to_eigenbasis h (c_op bath) = Ok Ck /\
                 st.1 !! k = Some Ck /\
                 st.2 !! k = Some (mk n n (fun i j =>
                   entry Ck i j
                   * ft_bath_corr bath (- entry (omegas h) i j))%C)).
  destruct (rfold_list_inv body P bs ([], [])) as ([Cs Es] & E & HP).
  - split; [done|]. split; [done|]. intros k bath Hk. lia.
  - intros m bath [Cs Es] Hm (HlC & HlE & Hall). simpl in *.
    rewrite Forall_lookup in Hbs.
    destruct (Hbs m bath Hm) as (A & HA & HdA).
    assert (Hto : to_eigenbasis h (c_op bath)
                  = Ok (dot (dag (ek h)) (dot A (ek h)))).
    { rewrite HA. destruct HdA, Hek. apply to_eigenbasis_matrix; lia. }
    rewrite Hto. simpl. rewrite (ft_theta_plus_ok h bath n) by done. simpl.
    unfold np_mul. rewrite (np_ew_same _ n n).
    2:{ destruct Hek. split; simpl; lia. }
    2:{ done. }
    simpl. eexists. split; [done|]. unfold P. simpl.
    rewrite !length_app, HlC, HlE. simpl.
    split; [lia|]. split; [lia|].
    intros k bath' Hk Hbath'.
    destruct (decide (k = m)) as [->|Hne].
    + assert (bath' = bath) as -> by congruence.
      eexists. split; [exact Hto|].
      rewrite !lookup_app_r by lia. rewrite HlC, HlE, Nat.sub_diag. simpl.
      split; [done|]. f_equal. apply mk_ext. intros i j Hi Hj.
      by rewrite (entry_mk n n (fun i j => ft_bath_corr bath _)).
    + destruct (Hall k bath') as (Ck & ? & ? & ?); [lia|done|].
      exists Ck. rewrite !lookup_app_l by lia. done.
  - exists Cs, Es. destruct HP as (HlC & HlE & Hall). simpl in *.
    split; [done|]. split; [done|]. split; [done|].
    intros k bath Hk. apply Hall; [|done]. by apply lookup_lt_Some in Hk.
Qed.

(** ** Lists of lists updated in place *)

Lemma py_index_insert {A} (G : list (list A)) m row :
  m < length G -> py_index (<[m := row]> G) (Z.of_nat m) = Ok row.
Proof. intros H. apply py_index_nat. by apply list_lookup_insert_eq. Qed.

Lemma py_setitem_ok {A} (l : list A) i x :
  i < length l -> py_setitem l i x = Ok (<[i := x]> l).
Proof. intros H. unfold py_setitem. by rewrite decide_True. Qed.

Lemma append2_insert {A} (G : list (list A)) m row x :
  m < length G ->
  append2 (<[m := row]> G) m x = Ok (<[m := row ++ [x]]> G).
Proof.
  intros H. unfold append2. rewrite py_index_insert by done. simpl.
  rewrite py_setitem_ok by (by rewrite length_insert).
  by rewrite list_insert_insert_eq.
Qed.

Lemma get2_insert {A} (G : list (list A)) m row k x :
  m < length G -> row !! k = Some x ->
  get2 (<[m := row]> G) m (Z.of_nat k) = Ok x.
Proof.
  intros H Hk. unfold get2. rewrite py_index_insert by done. simpl.
  by apply py_index_nat.
Qed.

Lemma get2_insert_pred {A} (G : list (list A)) m row k x :
  m < length G -> row !! k = Some x ->
  get2 (<[m := row]> G) m (Z.of_nat (S k) - 1) = Ok x.
Proof.
  replace (Z.of_nat (S k) - 1)%Z with (Z.of_nat k) by lia.
  apply get2_insert.
Qed.

Lemma get2_insert_last {A} (G : list (list A)) m row x :
  m < length G -> last row = Some x ->
  get2 (<[m := row]> G) m (-1) = Ok x.
Proof.
  intros H Hk. unfold get2. rewrite py_index_insert by done. simpl.
  by apply py_index_last.
Qed.

Lemma set2_insert {A} (G : list (list A)) m row k x :
  m < length G -> k < length row ->
  set2 (<[m := row]> G) m k x = Ok (<[m := <[k := x]> row]> G).
Proof.
  intros H Hk. unfold set2. rewrite py_index_insert by done. simpl.
  rewrite py_setitem_ok by done. simpl.
  rewrite py_setitem_ok by (by rewrite length_insert).
  by rewrite list_insert_insert_eq.
Qed.

Lemma insert_done_rows {A B} (f : A -> B) (xs : list A) (pad : B) nb m x :
  length xs = nb -> xs !! m = Some x ->
  <[m := f x]> (map f (take m xs) ++ replicate (nb - m) pad)
  = map f (take (S m) xs) ++ replicate (nb - S m) pad.
Proof.
  intros Hl Hx. pose proof (lookup_lt_Some _ _ _ Hx) as Hm.
  assert (Hlen : length (map f (take m xs)) = m).
  { rewrite length_map, length_take. lia. }
  replace (nb - m) with (S (nb - S m)) by lia. simpl.
  rewrite (take_S_r _ _ _ Hx), map_app. simpl.
  rewrite <- (Nat.add_0_r m) at 1. rewrite <- Hlen at 1.
  rewrite insert_app_r. simpl. by rewrite <- app_assoc.
Qed.

Lemma lookup_pending_row {A B} (f : A -> B) (xs : list A) (pad : B) nb m :
  length xs = nb -> m < nb ->
  (map f (take m xs) ++ replicate (nb - m) pad) !! m = Some pad.
Proof.
  intros Hl Hm.
  assert (Hlen : length (map f (take m xs)) = m).
  { rewrite length_map, length_take. lia. }
  rewrite lookup_app_r by lia. rewrite Hlen, Nat.sub_diag.
  replace (nb - m) with (S (nb - S m)) by lia. done.
Qed.

(** ** The dressing function *)

Lemma theta_plus_t_spec (h : Hamiltonian) bath t n :
  dims n n (omegas h) ->
  theta_plus_t h bath t = theta_plus_spec n h bath t.
Proof.
  intros [Hr Hc]. unfold theta_plus_t, theta_plus_spec, muls, np_exp, smul.
  unfold ew_map at 1. simpl. rewrite Hr, Hc.
  apply mk_ext. intros i j Hi Hj.
  rewrite entry_ew_map by (simpl; lia).
  rewrite entry_ew_map by (simpl; lia).
  rewrite entry_ew_map by lia.
  f_equal. f_equal. ring.
Qed.

Lemma trapezoid_step n prev prev1 theta w w' :
  w = w' ->
  dims n n prev -> dims n n prev1 -> dims n n theta ->
  (s <- np_add theta prev1 ;; np_add prev (smul w s))
  = Ok (trapezoid n prev prev1 theta w').
Proof.
  intros <- Hp Hp1 Ht. unfold np_add.
  rewrite (np_ew_same _ n n) by done. simpl.
  rewrite (np_ew_same _ n n) by (try done; by apply dims_ew_map).
  f_equal. apply mk_ext. intros i j Hi Hj.
  unfold smul. rewrite entry_ew_map by done. by rewrite entry_mk.
Qed.

Lemma dims_seed_stage n h bath bs dt k :
  dims n n (seed_stage n h bath bs dt k).1 /\
  dims n n (seed_stage n h bath bs dt k).2.
Proof.
  destruct k as [|k]; simpl; [done|].
  by destruct (seed_stage n h bath bs dt k).
Qed.

Lemma dims_advance_stage n h bath bs dt time old k :
  Forall (dims n n) old ->
  dims n n (advance_stage n h bath bs dt time old k).1 /\
  dims n n (advance_stage n h bath bs dt time old k).2.
Proof.
  intros Hold. destruct k as [|k]; simpl.
  - split; [|done]. induction old as [|x old _] using rev_ind; [by split|].
    rewrite List.last_last. apply Forall_app in Hold as [_ Hx].
    by inversion Hx.
  - by destruct (advance_stage n h bath bs dt time old k).
Qed.

Lemma py_index_nth {A} (l : list A) (k : nat) d :
  k < length l -> py_index l (Z.of_nat k) = Ok (nth k l d).
Proof.
  intros H. apply py_index_nat.
  destruct (lookup_lt_is_Some_2 l k H) as [x Hx].
  rewrite Hx. f_equal. symmetry. by apply nth_lookup_Some'.
Qed.

Lemma py_index_pred {A} (l : list A) (k : nat) d :
  k < length l -> py_index l (Z.of_nat (S k) - 1) = Ok (nth k l d).
Proof.
  intros H. replace (Z.of_nat (S k) - 1)%Z with (Z.of_nat k) by lia.
  by apply py_index_nth.
Qed.

Lemma length_pending_rows {A B} (f : A -> B) (xs : list A) (pad : B) nb m :
  length xs = nb -> m <= nb ->
  length (map f (take m xs) ++ replicate (nb - m) pad) = nb.
Proof.
  intros Hl Hm. rewrite length_app, length_map, length_take, length_replicate.
  lia.
Qed.

Lemma lookup_map_seq {A} (f : nat -> A) n k :
  k < n -> map f (seq 0 n) !! k = Some (f k).
Proof.
  intros H. change (map f (seq 0 n)) with (f <$> seq 0 n).
  rewrite list_lookup_fmap, lookup_seq_lt by done. done.
Qed.

Lemma map_seq_S {A} (f : nat -> A) n :
  map f (seq 0 (S n)) = map f (seq 0 n) ++ [f n].
Proof. by rewrite seq_S, map_app. Qed.

(** ** Time-dependent setup *)

(** The rows written for one bath by the stage loop of
    [coupling_operators_setup]. *)
Lemma setup_stages_row (h : Hamiltonian) bs dt n m bath GA GB ord :
  dims n n (omegas h) -> nstates h = n -> ord <= length bs ->
  m < length GA -> m < length GB ->
  GA !! m = Some [] -> GB !! m = Some [] ->
  rfold (setup_stage h bs dt m bath) (seq 0 ord) (GA, GB)
  = Ok (<[m := map (fun k => (seed_stage n h bath bs dt k).1) (seq 0 ord)]> GA,
        <[m := map (fun k => (seed_stage n h bath bs dt k).2) (seq 0 ord)]> GB).
Proof.
  intros Hom Hn Hord HmA HmB HA HB.
  set (partA := fun k => map (fun k => (seed_stage n h bath bs dt k).1)
                             (seq 0 k)).
  set (partB := fun k => map (fun k => (seed_stage n h bath bs dt k).2)
                             (seq 0 k)).
  destruct (rfold_seq_inv (setup_stage h bs dt m bath)
              (fun k g => g = (<[m := partA k]> GA, <[m := partB k]> GB))
              ord (GA, GB)) as (g & E & ->); [| |done].
  - simpl. by rewrite !list_insert_id.
  - intros k g Hk ->. eexists. split; [|reflexivity].
    unfold setup_stage.
    rewrite (py_index_nth bs k 0%C) by lia. cbn [rbind].
    case_decide as Hk0.
    + subst k.
      rewrite (append2_insert GA m []) by done. cbn [rbind].
      rewrite (append2_insert GB m []) by done. cbn [rbind].
      rewrite Hn. by rewrite (theta_plus_t_spec h bath 0%C n).
    + destruct k as [|k]; [done|].
      rewrite (get2_insert_pred GA m (partA (S k)) k
                 (seed_stage n h bath bs dt k).1); [|done|].
      2:{ unfold partA. by rewrite lookup_map_seq by lia. }
      cbn [rbind].
      rewrite (py_index_pred bs k 0%C) by lia. cbn [rbind].
      rewrite (get2_insert_pred GB m (partB (S k)) k
                 (seed_stage n h bath bs dt k).2); [|done|].
      2:{ unfold partB. by rewrite lookup_map_seq by lia. }
      cbn [rbind]. rewrite (theta_plus_t_spec h bath _ n) by done.
      pose proof (dims_seed_stage n h bath bs dt k) as [Hd1 Hd2].
      pose proof (trapezoid_step n _ _
        (theta_plus_spec n h bath (nth (S k) bs 0 * dt)%C)
        (chalf * (nth (S k) bs 0 - nth k bs 0) * dt)%C _ eq_refl Hd1 Hd2)
        as Htr.
      destruct (np_add (theta_plus_spec n h bath (nth (S k) bs 0 * dt)%C)
                       (seed_stage n h bath bs dt k).2) as [s|];
        [|by discriminate Htr].
      cbn [rbind] in Htr |- *. rewrite Htr by done. cbn [rbind].
      rewrite (append2_insert GA m) by done. cbn [rbind].
      rewrite (append2_insert GB m) by done. cbn [rbind].
      unfold partA, partB. rewrite !(map_seq_S _ (S k)).
      cbn [seed_stage]. by destruct (seed_stage n h bath bs dt k).
Qed.

Lemma coupling_operators_setup_closed (h : Hamiltonian) ode dt bs n :
  baths h = Some bs -> nbaths h = Some (length bs) -> nstates h = n ->
  dims n n (ek h) -> dims n n (omegas h) ->
  Forall (fun bath => exists A, c_op bath = Nd2 A /\ dims n n A) bs ->
  order ode <= length (b ode) ->
  exists Cs,
    coupling_operators_setup h ode dt
    = Ok (Cs,
          (map (fun bath =>
                  map (fun k => (seed_stage n h bath (b ode) dt k).1)
                      (seq 0 (order ode))) bs,
           map (fun bath =>
                  map (fun k => (seed_stage n h bath (b ode) dt k).2)
                      (seq 0 (order ode))) bs)) /\
    Forall2 (fun bath Ck => to_eigenbasis h (c_op bath) = Ok Ck) bs Cs.
Proof.
  intros Hb Hnb Hn Hek Hom Hbs Hord.
  unfold coupling_operators_setup, the_nbaths, the_baths.
  rewrite Hb, Hnb. cbn [rbind].
  set (nb := length bs).
  set (G0 := replicate nb ([] : list matrix)).
  (* first loop: the coupling operators, and the rows reset to [list()] *)
  destruct (rfold_enumerate_inv
    (fun '(Cs, (gn, gn1)) '(op, bath) =>
       Ck <- to_eigenbasis h (c_op bath) ;;
       gn' <- py_setitem gn op [] ;;
       gn1' <- py_setitem gn1 op [] ;;
       Ok (Cs ++ [Ck], (gn', gn1')))
    (fun m st =>
       Forall2 (fun bath Ck => to_eigenbasis h (c_op bath) = Ok Ck)
               (take m bs) st.1 /\ st.2 = (G0, G0))
    bs ([], (G0, G0))) as ([Cs g] & E1 & HCs & Hg).
  { split; [|done]. rewrite take_0. constructor. }
  { intros m bath [Cs [gn gn1]] Hm [HF Hst]. simpl in HF, Hst.
    injection Hst as -> ->.
    rewrite Forall_lookup in Hbs. destruct (Hbs m bath Hm) as (A & HA & HdA).
    pose proof (lookup_lt_Some _ _ _ Hm) as Hlt.
    assert (Hto : to_eigenbasis h (c_op bath)
                  = Ok (dot (dag (ek h)) (dot A (ek h)))).
    { rewrite HA. destruct HdA, Hek. apply to_eigenbasis_matrix; lia. }
    rewrite Hto. cbn [rbind].
    rewrite py_setitem_ok by (unfold G0; rewrite length_replicate; done).
    cbn [rbind].
    assert (HG : <[m := []]> G0 = G0).
    { apply list_insert_id. unfold G0. by apply lookup_replicate_2. }
    rewrite HG. eexists. split; [done|]. simpl. split; [|done].
    rewrite (take_S_r _ _ _ Hm). apply Forall2_app; [done|].
    by constructor. }
  simpl in HCs, Hg. subst g. rewrite E1. cbn [rbind].
  rewrite firstn_all in HCs.
  (* second loop: the stages of every bath *)
  set (rowA := fun bath =>
         map (fun k => (seed_stage n h bath (b ode) dt k).1)
             (seq 0 (order ode))).
  set (rowB := fun bath =>
         map (fun k => (seed_stage n h bath (b ode) dt k).2)
             (seq 0 (order ode))).
  destruct (rfold_enumerate_inv
    (fun g '(op, bath) =>
       rfold (setup_stage h (b ode) dt op bath) (seq 0 (order ode)) g)
    (fun m g =>
       g = (map rowA (take m bs) ++ replicate (nb - m) [],
            map rowB (take m bs) ++ replicate (nb - m) []))
    bs (G0, G0)) as (g & E2 & ->).
  { rewrite take_0, Nat.sub_0_r. done. }
  { intros m bath g Hm ->.
    pose proof (lookup_lt_Some _ _ _ Hm) as Hlt.
    eexists. split.
    - apply (setup_stages_row h (b ode) dt n m bath); try done.
      + rewrite length_pending_rows; [done|done|fold nb; lia].
      + rewrite length_pending_rows; [done|done|fold nb; lia].
      + by apply lookup_pending_row.
      + by apply lookup_pending_row.
    - fold (rowA bath). fold (rowB bath).
      by rewrite !(insert_done_rows _ bs [] nb m bath). }
  rewrite E2. cbn [rbind]. exists Cs. split; [|done].
  rewrite firstn_all. fold nb. rewrite Nat.sub_diag. simpl.
  by rewrite !app_nil_r.
Qed.

(** C2. In the time-dependent setup the recurrence of every bath is seeded
    stage by stage: at stage 0 [gamma_n] is the zero matrix and [gamma_n_1]
    is [exp(-i·omegas·0)·bath_corr_t(0)]; at a stage [k > 0], with
    [t = b[k]·dt], [gamma_n[k] = gamma_n[k-1] +
    0.5·(b[k]-b[k-1])·dt·(theta_plus(t) + gamma_n_1[k-1])] and
    [gamma_n_1[k] = theta_plus(t)]. *)
Theorem dressing_recurrence_seeded (h : Hamiltonian) ode dt bs n :
  baths h = Some bs -> nbaths h = Some (length bs) -> nstates h = n ->
  dims n n (ek h) -> dims n n (omegas h) ->
  Forall (fun bath => exists A, c_op bath = Nd2 A /\ dims n n A) bs ->
  order ode <= length (b ode) ->
  exists Cs gn gn1,
    coupling_operators_setup h ode dt = Ok (Cs, (gn, gn1)) /\
    length gn = length bs /\ length gn1 = length bs /\
    forall op bath, bs !! op = Some bath ->
      exists g g1,
        gn !! op = Some g /\ gn1 !! op = Some g1 /\
        length g = order ode /\ length g1 = order ode /\
        (0 < order ode ->
           g !! 0 = Some (np_zeros n n) /\
           g1 !! 0 = Some (theta_plus_spec n h bath 0%C)) /\
        (forall k, 0 < k < order ode ->
           exists bk bk1 prev prev1,
             b ode !! k = Some bk /\ b ode !! (k - 1) = Some bk1 /\
             g !! (k - 1) = Some prev /\ g1 !! (k - 1) = Some prev1 /\
             g !! k = Some (trapezoid n prev prev1
                              (theta_plus_spec n h bath (bk * dt)%C)
                              (chalf * (bk - bk1) * dt)%C) /\
             g1 !! k = Some (theta_plus_spec n h bath (bk * dt)%C)).
Proof.
  intros Hb Hnb Hn Hek Hom Hbs Hord.
  destruct (coupling_operators_setup_closed h ode dt bs n)
    as (Cs & E & _); try done.
  eexists _, _, _. split; [exact E|].
  split; [by rewrite length_map|]. split; [by rewrite length_map|].
  intros op bath Hop. eexists _, _.
  split. { change (map ?f bs) with (f <$> bs).
           by rewrite list_lookup_fmap, Hop. }
  split. { change (map ?f bs) with (f <$> bs).
           by rewrite list_lookup_fmap, Hop. }
  split; [by rewrite length_map, length_seq|].
  split; [by rewrite length_map, length_seq|].
  split.
  - intros Hpos. by rewrite !lookup_map_seq by done.
  - intros k Hk. destruct k as [|k]; [lia|].
    replace (S k - 1) with k by lia.
    exists (nth (S k) (b ode) 0%C), (nth k (b ode) 0%C),
           (seed_stage n h bath (b ode) dt k).1,
           (seed_stage n h bath (b ode) dt k).2.
    assert (Hnth : forall i, i < length (b ode) ->
                     b ode !! i = Some (nth i (b ode) 0%C)).
    { intros i Hi. destruct (lookup_lt_is_Some_2 (b ode) i Hi) as [x Hx].
      rewrite Hx. f_equal. symmetry. by apply nth_lookup_Some'. }
    split; [apply Hnth; lia|]. split; [apply Hnth; lia|].
    rewrite !lookup_map_seq by lia.
    split; [done|]. split; [done|].
    cbn [seed_stage]. by destruct (seed_stage n h bath (b ode) dt k).
Qed.

(** ** The per-step update *)

Lemma get2_lookup {A} (G : list (list A)) i row k x :
  G !! i = Some row -> row !! k = Some x -> get2 G i (Z.of_nat k) = Ok x.
Proof.
  intros HG Hk. unfold get2. rewrite (py_index_nat _ _ _ HG). simpl.
  by apply py_index_nat.
Qed.

(** The row of dressed operators built for bath [i]. *)
Lemma dress_stages_row Cs gn n i row Ci E ord :
  i < length E -> gn !! i = Some row -> Cs !! i = Some Ci ->
  length row = ord -> Forall (dims n n) row -> dims n n Ci ->
  rfold (dress_stage Cs gn i) (seq 0 ord) (<[i := []]> E)
  = Ok (<[i := map (fun g => hadamard n g Ci) row]> E).
Proof.
  intros Hi Hrow HCi Hlen Hdr HdC.
  destruct (rfold_seq_inv (dress_stage Cs gn i)
              (fun j E' => E' = <[i := map (fun g => hadamard n g Ci)
                                             (take j row)]> E)
              ord (<[i := []]> E)) as (E' & Eq & ->).
  - by rewrite take_0.
  - intros j E' Hj ->. eexists. split; [|reflexivity].
    destruct (lookup_lt_is_Some_2 row j) as [g Hg]; [lia|].
    unfold dress_stage. rewrite (get2_lookup gn i row j g) by done.
    cbn [rbind]. rewrite (py_index_nat _ _ _ HCi). cbn [rbind].
    rewrite Forall_lookup in Hdr. unfold np_mul.
    rewrite (np_ew_same _ n n) by eauto. cbn [rbind].
    rewrite append2_insert by done.
    by rewrite (take_S_r _ _ _ Hg), map_app.
  - rewrite Eq. by rewrite <- Hlen, firstn_all.
Qed.

Lemma dress_ok (h : Hamiltonian) ode Cs gn n nb :
  nbaths h = Some nb -> length Cs = nb -> Forall (dims n n) Cs ->
  stage_rows n (order ode) nb gn ->
  exists E,
    dress h ode Cs gn = Ok E /\ length E = nb /\
    forall i row Ci, gn !! i = Some row -> Cs !! i = Some Ci ->
      E !! i = Some (map (fun g => hadamard n g Ci) row).
Proof.
  intros Hnb HlC HdC [Hlg Hrows].
  unfold dress, the_nbaths. rewrite Hnb. cbn [rbind]. rewrite HlC.
  destruct (rfold_seq_inv
    (fun E i => E0 <- py_setitem E i [] ;;
                rfold (dress_stage Cs gn i) (seq 0 (order ode)) E0)
    (fun m E =>
       length E = nb /\
       forall i row Ci, i < m -> gn !! i = Some row -> Cs !! i = Some Ci ->
         E !! i = Some (map (fun g => hadamard n g Ci) row))
    nb (replicate nb [])) as (E & Eq & HlE & HE).
  - split; [by rewrite length_replicate|]. intros; lia.
  - intros m E Hm [HlE HE].
    destruct (lookup_lt_is_Some_2 gn m) as [row Hrow]; [lia|].
    destruct (lookup_lt_is_Some_2 Cs m) as [Ci HCi]; [lia|].
    rewrite Forall_lookup in Hrows. rewrite Forall_lookup in HdC.
    destruct (Hrows m row Hrow) as [Hlen Hdr].
    rewrite py_setitem_ok by lia. cbn [rbind].
    rewrite (dress_stages_row Cs gn n m row Ci E) by (eauto; lia).
    eexists. split; [done|]. split; [by rewrite length_insert|].
    intros i row' Ci' Hi Hrow' HCi'.
    destruct (decide (i = m)) as [->|Hne].
    + rewrite list_lookup_insert_eq by lia.
      replace row' with row by congruence.
      by replace Ci' with Ci by congruence.
    + rewrite list_lookup_insert_ne by done. apply HE; [lia|done..].
  - exists E. split; [done|]. split; [done|].
    intros i row Ci Hrow HCi. apply HE; [|done..].
    apply lookup_lt_Some in HCi. lia.
Qed.

Lemma last_List_last {A} (l : list A) d :
  l <> [] -> last l = Some (List.last l d).
Proof.
  induction l as [|x l _] using rev_ind; [done|]. intros _.
  by rewrite last_snoc, List.last_last.
Qed.

Lemma insert_next_stage {A} (part old : list A) k x :
  length part = k -> k < length old ->
  <[k := x]> (part ++ drop k old) = (part ++ [x]) ++ drop (S k) old.
Proof.
  intros Hp Hk. rewrite insert_app_r_alt by lia.
  rewrite Hp, Nat.sub_diag.
  destruct (lookup_lt_is_Some_2 old k Hk) as [y Hy].
  rewrite (drop_S _ _ _ Hy). simpl. by rewrite <- app_assoc.
Qed.

(** The rows written for one bath by the stage loop of
    [make_tcl2_operators]. *)
Lemma tcl2_stages_row (h : Hamiltonian) bs dt time n m bath GA GB
    old old1 ord :
  dims n n (omegas h) -> ord <= length bs ->
  m < length GA -> m < length GB ->
  GA !! m = Some old -> GB !! m = Some old1 ->
  length old = ord -> length old1 = ord -> Forall (dims n n) old ->
  rfold (tcl2_stage h bs dt time m bath) (seq 0 ord) (GA, GB)
  = Ok (<[m := map (fun k => (advance_stage n h bath bs dt time old k).1)
                   (seq 0 ord)]> GA,
        <[m := map (fun k => (advance_stage n h bath bs dt time old k).2)
                   (seq 0 ord)]> GB).
Proof.
  intros Hom Hord HmA HmB HA HB Hlo Hlo1 Hdo.
  set (partA := fun k =>
         map (fun k => (advance_stage n h bath bs dt time old k).1)
             (seq 0 k)).
  set (partB := fun k =>
         map (fun k => (advance_stage n h bath bs dt time old k).2)
             (seq 0 k)).
  assert (HlA : forall k, length (partA k) = k).
  { intros k. unfold partA. by rewrite length_map, length_seq. }
  assert (HlB : forall k, length (partB k) = k).
  { intros k. unfold partB. by rewrite length_map, length_seq. }
  destruct (rfold_seq_inv (tcl2_stage h bs dt time m bath)
              (fun k g => g = (<[m := partA k ++ drop k old]> GA,
                               <[m := partB k ++ drop k old1]> GB))
              ord (GA, GB)) as (g & E & ->).
  - simpl. by rewrite !drop_0, !list_insert_id.
  - intros k g Hk ->. eexists. split; [|reflexivity].
    unfold tcl2_stage.
    rewrite (py_index_nth bs k 0%C) by lia. cbn [rbind].
    rewrite (theta_plus_t_spec h bath _ n) by done.
    assert (HrowA : length (partA k ++ drop k old) = ord).
    { rewrite length_app, HlA, length_drop. lia. }
    assert (HrowB : length (partB k ++ drop k old1) = ord).
    { rewrite length_app, HlB, length_drop. lia. }
    case_decide as Hk0.
    + subst k.
      rewrite (get2_insert_last GA m _ (List.last old (np_zeros n n)));
        [|done|].
      2:{ simpl. rewrite drop_0. apply last_List_last.
          intros ->. simpl in Hlo. lia. }
      cbn [rbind]. rewrite set2_insert by (done || lia). cbn [rbind].
      rewrite set2_insert by (done || lia). cbn [rbind].
      rewrite !insert_next_stage by (done || lia). done.
    + destruct k as [|k]; [done|].
      rewrite (get2_insert_pred GA m _ k
                 (advance_stage n h bath bs dt time old k).1); [|done|].
      2:{ rewrite lookup_app_l by (rewrite HlA; lia).
          unfold partA. by rewrite lookup_map_seq by lia. }
      cbn [rbind].
      rewrite (py_index_pred bs k 0%C) by lia. cbn [rbind].
      rewrite (get2_insert_pred GB m _ k
                 (advance_stage n h bath bs dt time old k).2); [|done|].
      2:{ rewrite lookup_app_l by (rewrite HlB; lia).
          unfold partB. by rewrite lookup_map_seq by lia. }
      cbn [rbind].
      pose proof (dims_advance_stage n h bath bs dt time old k Hdo)
        as [Hd1 Hd2].
      pose proof (trapezoid_step n _ _
        (theta_plus_spec n h bath (time + nth (S k) bs 0 * dt)%C)
        (chalf * dt * (nth (S k) bs 0 - nth k bs 0))%C
        (chalf * (nth (S k) bs 0 - nth k bs 0) * dt)%C
        ltac:(ring) Hd1 Hd2) as Htr.
      destruct (np_add
                  (theta_plus_spec n h bath (time + nth (S k) bs 0 * dt)%C)
                  (advance_stage n h bath bs dt time old k).2) as [s|];
        [|by discriminate Htr].
      cbn [rbind] in Htr |- *. rewrite Htr by done. cbn [rbind].
      rewrite set2_insert by (done || lia). cbn [rbind].
      rewrite set2_insert by (done || lia). cbn [rbind].
      rewrite !insert_next_stage by (done || lia).
      unfold partA, partB. rewrite !(map_seq_S _ (S k)).
      cbn [advance_stage].
      by destruct (advance_stage n h bath bs dt time old k) as [g g1].
  - rewrite E. by rewrite !drop_ge, !app_nil_r by lia.
Qed.

Lemma make_tcl2_operators_ok (h : Hamiltonian) ode dt time n bs gn gn1 :
  baths h = Some bs -> dims n n (omegas h) ->
  order ode <= length (b ode) ->
  stage_rows n (order ode) (length bs) gn ->
  stage_rows n (order ode) (length bs) gn1 ->
  exists gn' gn1',
    make_tcl2_operators h ode dt (gn, gn1) time = Ok (gn', gn1') /\
    length gn' = length bs /\ length gn1' = length bs /\
    forall i bath old, bs !! i = Some bath -> gn !! i = Some old ->
      gn' !! i
      = Some (map (fun k =>
                (advance_stage n h bath (b ode) dt time old k).1)
                (seq 0 (order ode))) /\
      gn1' !! i
      = Some (map (fun k =>
                (advance_stage n h bath (b ode) dt time old k).2)
                (seq 0 (order ode))).
Proof.
  intros Hb Hom Hord [Hlg Hrows] [Hlg1 Hrows1].
  unfold make_tcl2_operators, the_baths. rewrite Hb. cbn [rbind].
  destruct (rfold_enumerate_inv
    (fun g '(op, bath) =>
       rfold (tcl2_stage h (b ode) dt time op bath) (seq 0 (order ode)) g)
    (fun m g =>
       length g.1 = length bs /\ length g.2 = length bs /\
       (forall i bath old, i < m -> bs !! i = Some bath ->
          gn !! i = Some old ->
          g.1 !! i
          = Some (map (fun k =>
                    (advance_stage n h bath (b ode) dt time old k).1)
                    (seq 0 (order ode))) /\
          g.2 !! i
          = Some (map (fun k =>
                    (advance_stage n h bath (b ode) dt time old k).2)
                    (seq 0 (order ode)))) /\
       (forall i, m <= i -> g.1 !! i = gn !! i /\ g.2 !! i = gn1 !! i))
    bs (gn, gn1)) as ([gn' gn1'] & E & Hl & Hl1 & Hdone & _).
  - simpl. split; [done|]. split; [done|]. split; [intros; lia|done].
  - intros m bath [GA GB] Hm (HlA & HlB & Hdone & Hrest). simpl in *.
    pose proof (lookup_lt_Some _ _ _ Hm) as Hlt.
    destruct (lookup_lt_is_Some_2 gn m) as [old Hold]; [lia|].
    destruct (lookup_lt_is_Some_2 gn1 m) as [old1 Hold1]; [lia|].
    rewrite Forall_lookup in Hrows. rewrite Forall_lookup in Hrows1.
    destruct (Hrows m old Hold) as [Hlo Hdo].
    destruct (Hrows1 m old1 Hold1) as [Hlo1 _].
    destruct (Hrest m) as [HA HB]; [lia|].
    rewrite (tcl2_stages_row h (b ode) dt time n m bath GA GB old old1)
      by (done || lia || congruence).
    eexists. split; [done|]. simpl.
    rewrite !length_insert. split; [done|]. split; [done|]. split.
    + intros i bath' old' Hi Hbath' Hold'.
      destruct (decide (i = m)) as [->|Hne].
      * rewrite !list_lookup_insert_eq by lia.
        replace bath' with bath by congruence.
        by replace old' with old by congruence.
      * rewrite !list_lookup_insert_ne by done. apply Hdone; [lia|done..].
    + intros i Hi. rewrite !list_lookup_insert_ne by lia. apply Hrest. lia.
  - exists gn', gn1'. simpl in *. split; [done|]. split; [done|].
    split; [done|]. intros i bath old Hbath Hold.
    apply Hdone; [|done..]. by apply lookup_lt_Some in Hbath.
Qed.

Lemma lookup_nth_lt {A} (l : list A) i d :
  i < length l -> l !! i = Some (nth i l d).
Proof.
  intros Hi. destruct (lookup_lt_is_Some_2 l i Hi) as [x Hx].
  rewrite Hx. f_equal. symmetry. by apply nth_lookup_Some'.
Qed.

(** C3. [update_ops(time)] first sets [E[i][j] = gamma_n[i][j] ⊙ C[i]] for
    every bath and stage, from the recurrence state as it stood before the
    call.  Then, if and only if [time < markov_time], the recurrence advances
    by one full step: stage 0 carries the last accumulated value of the
    previous step forward and a stage [k > 0] applies the trapezoidal update
    at [t = time + b[k]·dt].  When [time >= markov_time], [gamma_n] and
    [gamma_n_1] are unchanged, and every later call at such a time leaves the
    engine, hence the dressed operators, as they are. *)
Theorem update_ops_spec (s : Redfield) (time : C) n bs :
  engine_ok n bs s ->
  exists s' E,
    update_ops s time = Ok s' /\
    (* the dressed operators *)
    rf_E s' = E_stages E /\ length E = length bs /\
    (forall i row Ci, rf_gamma_n s !! i = Some row -> rf_C s !! i = Some Ci ->
       exists Ei, E !! i = Some Ei /\ length Ei = order (rf_ode s) /\
         forall j g, row !! j = Some g ->
           Ei !! j = Some (hadamard n g Ci)) /\
    (* what the call leaves alone *)
    rf_C s' = rf_C s /\ rf_ham s' = rf_ham s /\ rf_ode s' = rf_ode s /\
    rf_options s' = rf_options s /\ rf_dt s' = rf_dt s /\
    (* the recurrence advances below the Markov time *)
    (cltb time (markov_time (rf_options s)) = true ->
     forall i bath old, bs !! i = Some bath -> rf_gamma_n s !! i = Some old ->
       exists g g1,
         rf_gamma_n s' !! i = Some g /\ rf_gamma_n_1 s' !! i = Some g1 /\
         length g = order (rf_ode s) /\ length g1 = order (rf_ode s) /\
         (forall b0, b (rf_ode s) !! 0 = Some b0 -> 0 < order (rf_ode s) ->
            g !! 0 = last old /\
            g1 !! 0 = Some (theta_plus_spec n (rf_ham s) bath
                              (time + b0 * rf_dt s)%C)) /\
         (forall k, 0 < k < order (rf_ode s) ->
            exists bk bk1 prev prev1,
              b (rf_ode s) !! k = Some bk /\
              b (rf_ode s) !! (k - 1) = Some bk1 /\
              g !! (k - 1) = Some prev /\ g1 !! (k - 1) = Some prev1 /\
              g !! k = Some (trapezoid n prev prev1
                               (theta_plus_spec n (rf_ham s) bath
                                  (time + bk * rf_dt s)%C)
                               (chalf * (bk - bk1) * rf_dt s)%C) /\
              g1 !! k = Some (theta_plus_spec n (rf_ham s) bath
                                (time + bk * rf_dt s)%C))) /\
    (* and is frozen from the Markov time on *)
    (cltb time (markov_time (rf_options s)) = false ->
     rf_gamma_n s' = rf_gamma_n s /\ rf_gamma_n_1 s' = rf_gamma_n_1 s /\
     forall time', cltb time' (markov_time (rf_options s)) = false ->
       update_ops s' time' = Ok s').
Proof.
  intros (Hb & Hnb & Hn & Hom & HlC & HdC & Hgn & Hgn1 & Hord).
  destruct (dress_ok (rf_ham s) (rf_ode s) (rf_C s) (rf_gamma_n s) n
              (length bs)) as (E & HE & HlE & HEi); try done.
  unfold update_ops. rewrite HE. cbn [rbind].
  assert (Hdressed : forall i row Ci,
            rf_gamma_n s !! i = Some row -> rf_C s !! i = Some Ci ->
            exists Ei, E !! i = Some Ei /\ length Ei = order (rf_ode s) /\
              forall j g, row !! j = Some g ->
                Ei !! j = Some (hadamard n g Ci)).
  { intros i row Ci Hrow HCi. eexists. split; [by apply HEi|].
    destruct Hgn as [_ Hrows]. rewrite Forall_lookup in Hrows.
    destruct (Hrows i row Hrow) as [Hlen _].
    split; [by rewrite length_map|].
    intros j g Hg. change (map ?f row) with (f <$> row).
    by rewrite list_lookup_fmap, Hg. }
  destruct (cltb time (markov_time (rf_options s))) eqn:Hlt.
  - destruct (make_tcl2_operators_ok (rf_ham s) (rf_ode s) (rf_dt s) time n
                bs (rf_gamma_n s) (rf_gamma_n_1 s))
      as (gn' & gn1' & Eg & Hl & Hl1 & Hadv); try done.
    rewrite Eg. cbn [rbind]. eexists _, E. split; [reflexivity|]. simpl.
    do 8 (split; [done|]). split; [|done].
    intros _ i bath old Hbath Hold.
    destruct (Hadv i bath old Hbath Hold) as [HA HB].
    eexists _, _. split; [exact HA|]. split; [exact HB|].
    split; [by rewrite length_map, length_seq|].
    split; [by rewrite length_map, length_seq|].
    destruct Hgn as [_ Hrows]. rewrite Forall_lookup in Hrows.
    destruct (Hrows i old Hold) as [Hlen _].
    split.
    + intros b0 Hb0 Hpos. rewrite !lookup_map_seq by done. simpl.
      rewrite (nth_lookup_Some' _ _ _ _ Hb0). split; [|done].
      symmetry. apply last_List_last. intros ->. simpl in Hlen. lia.
    + intros k Hk. destruct k as [|k]; [lia|].
      replace (S k - 1) with k by lia.
      exists (nth (S k) (b (rf_ode s)) 0%C), (nth k (b (rf_ode s)) 0%C),
        (advance_stage n (rf_ham s) bath (b (rf_ode s)) (rf_dt s) time
           old k).1,
        (advance_stage n (rf_ham s) bath (b (rf_ode s)) (rf_dt s) time
           old k).2.
      split; [apply lookup_nth_lt; lia|]. split; [apply lookup_nth_lt; lia|].
      rewrite !lookup_map_seq by lia.
      split; [done|]. split; [done|].
      cbn [advance_stage].
      by destruct (advance_stage n (rf_ham s) bath (b (rf_ode s)) (rf_dt s)
                     time old k).
  - eexists _, E. split; [reflexivity|]. simpl.
    do 8 (split; [done|]). split; [done|].
    intros _. split; [done|]. split; [done|].
    intros time' Hlt'. unfold update_ops. simpl.
    rewrite HE, Hlt'. done.
Qed.

(** ** The equation of motion *)

Lemma commutator_square n A B :
  dims n n A -> dims n n B -> commutator A B = Ok (comm n A B).
Proof.
  intros [HrA HcA] [HrB HcB]. unfold commutator.
  rewrite !np_dot_ok by lia. cbn [rbind]. unfold np_sub.
  by rewrite (np_ew_same _ n n) by (split; simpl; lia).
Qed.

Lemma Hamiltonian_commutator_eig (h : Hamiltonian) n op :
  length (ev h) = n -> dims n n op ->
  Hamiltonian_commutator h op true = Ok (comm n (np_diag (ev h)) op).
Proof.
  intros Hev Hop. unfold Hamiltonian_commutator.
  fold (commutator (np_diag (ev h)) op).
  apply commutator_square; [|done]. unfold np_diag. by rewrite Hev.
Qed.

Lemma bath_term_square n hbar state Ej Cj :
  dims n n state -> dims n n Ej -> dims n n Cj ->
  bath_term hbar state Ej Cj
  = Ok (divs (madd n (comm n (dot Ej state) Cj)
                     (comm n Cj (dot state (dag Ej))))
             (hbar * hbar)%C).
Proof.
  intros Hs HE HC. pose proof Hs as [Hrs Hcs]. pose proof HE as [HrE HcE].
  unfold bath_term.
  rewrite np_dot_ok by lia. cbn [rbind].
  rewrite (commutator_square n) by (done || split; simpl; lia). cbn [rbind].
  rewrite np_dot_ok by (simpl; lia). cbn [rbind].
  rewrite (commutator_square n) by (done || split; simpl; lia). cbn [rbind].
  unfold np_add. by rewrite (np_ew_same _ n n) by done.
Qed.

Lemma entry_msum_snoc n Ms T i j :
  i < n -> j < n ->
  entry (msum n (Ms ++ [T])) i j = (entry (msum n Ms) i j + entry T i j)%C.
Proof.
  intros Hi Hj. induction Ms as [|M Ms IH]; simpl.
  - unfold madd, np_zeros. rewrite !entry_mk by done. ring.
  - unfold madd at 1 2. rewrite !entry_mk by done. rewrite IH. ring.
Qed.

Lemma dims_msum n Ms : dims n n (msum n Ms).
Proof. by destruct Ms. Qed.

Lemma entry_divs n A x i j :
  dims n n A -> i < n -> j < n -> entry (divs A x) i j = (entry A i j / x)%C.
Proof.
  intros [Hr Hc] Hi Hj. unfold divs. by rewrite entry_ew_map by lia.
Qed.

(** The loop over the baths, for any way [getE] of selecting the dressed
    operator of bath [j]. *)
Lemma eom_loop (getE : nat -> result matrix) Cs Es nb hbar state dy0 n :
  (forall j Ej, Es !! j = Some Ej -> getE j = Ok Ej) ->
  length Cs = nb -> length Es = nb ->
  Forall (dims n n) Cs -> Forall (dims n n) Es ->
  dims n n state -> has_shape n n dy0 ->
  rfold (fun dy j =>
           Ej <- getE j ;;
           Cj <- py_index Cs (Z.of_nat j) ;;
           x <- bath_term hbar state Ej Cj ;;
           np_iadd dy x)
        (seq 0 nb) dy0
  = Ok (madd n dy0
          (divs (msum n (map (fun '(Ck, Ek) =>
                   madd n (comm n (dot Ek state) Ck)
                          (comm n Ck (dot state (dag Ek)))) (zip Cs Es)))
                (hbar * hbar)%C)).
Proof.
  intros HgetE HlC HlE HdC HdE Hst Hdy0.
  set (term := fun '(Ck, Ek) =>
         madd n (comm n (dot Ek state) Ck) (comm n Ck (dot state (dag Ek)))).
  set (terms := map term (zip Cs Es)).
  destruct (rfold_seq_inv
    (fun dy j =>
       Ej <- getE j ;;
       Cj <- py_index Cs (Z.of_nat j) ;;
       x <- bath_term hbar state Ej Cj ;;
       np_iadd dy x)
    (fun m dy =>
       dy = madd n dy0 (divs (msum n (take m terms)) (hbar * hbar)%C))
    nb dy0) as (dy & E & ->).
  - rewrite take_0. simpl. apply (has_shape_eq n n); [done|].
    intros i j Hi Hj.
    rewrite (entry_divs n) by done. unfold np_zeros.
    rewrite entry_mk by done. unfold cdiv. ring.
  - intros m dy Hm ->.
    destruct (lookup_lt_is_Some_2 Cs m) as [Cj HCj]; [lia|].
    destruct (lookup_lt_is_Some_2 Es m) as [Ej HEj]; [lia|].
    rewrite (HgetE m Ej HEj). cbn [rbind].
    rewrite (py_index_nat _ _ _ HCj). cbn [rbind].
    rewrite Forall_lookup in HdC. rewrite Forall_lookup in HdE.
    rewrite (bath_term_square n) by eauto. cbn [rbind].
    rewrite (np_iadd_same n n) by (done || by apply dims_ew_map).
    eexists. split; [done|].
    assert (Hterm : terms !! m = Some (term (Cj, Ej))).
    { unfold terms. change (map term ?l) with (term <$> l).
      rewrite list_lookup_fmap.
      assert (Hz : zip Cs Es !! m = Some (Cj, Ej)) by by apply lookup_zip_Some.
      by rewrite Hz. }
    rewrite (take_S_r _ _ _ Hterm).
    unfold madd at 3. apply mk_ext. intros i j Hi Hj.
    unfold madd at 1. rewrite entry_mk by done.
    rewrite !(entry_divs n) by (done || apply dims_msum).
    rewrite entry_msum_snoc by done. simpl. unfold cdiv. ring.
  - rewrite E. do 3 f_equal. unfold terms.
    rewrite firstn_all2; [done|].
    rewrite length_map, length_zip. lia.
Qed.

Lemma has_shape_ew_map f r c A : dims r c A -> has_shape r c (ew_map f A).
Proof. intros [<- <-]. apply has_shape_mk. Qed.

(** C1. The equation-of-motion callable returns
    [-(i/ħ)[H, ρ]_eig + Σ_k { [E_k ρ, C_k] + [C_k, ρ E_k†] } / ħ²], with the
    commutator with the diagonal matrix of eigenvalues, the coupling
    operators [C_k] and the dressed operators [E_k], which the
    time-dependent variant selects by the stage index. *)
Theorem eom_is_redfield_rhs (s : Redfield) hbar state stage n bs Es :
  baths (rf_ham s) = Some bs -> length (ev (rf_ham s)) = n ->
  dims n n state ->
  length (rf_C s) = length bs -> Forall (dims n n) (rf_C s) ->
  length Es = length bs -> Forall (dims n n) Es ->
  (rf_equation_of_motion s = Some Rf_eom /\ rf_E s = E_list Es) \/
  (rf_equation_of_motion s = Some Td_rf_eom /\
   exists l, rf_E s = E_stages l /\
             Forall2 (fun row Ej => py_index row stage = Ok Ej) l Es) ->
  eom s hbar state stage
  = Ok (redfield_rhs n hbar (ev (rf_ham s)) (zip (rf_C s) Es) state).
Proof.
  intros Hb Hev Hst HlC HdC HlE HdE Hmode.
  assert (Hdy0 : has_shape n n
            (smul (- ci / hbar)%C (comm n (np_diag (ev (rf_ham s))) state))).
  { by apply has_shape_ew_map. }
  assert (Hscal : smul (- ci / hbar)%C
                    (comm n (np_diag (ev (rf_ham s))) state)
                  = smul (- (ci / hbar))%C
                      (comm n (np_diag (ev (rf_ham s))) state)).
  { unfold smul, ew_map. apply mk_ext. intros i j _ _. unfold cdiv. ring. }
  unfold eom, redfield_rhs. rewrite <- Hscal.
  destruct Hmode as [[-> HE]|[-> (l & HE & Hsel)]].
  - unfold rf_eom.
    rewrite (Hamiltonian_commutator_eig _ n) by done. cbn [rbind].
    unfold the_baths. rewrite Hb. cbn [rbind]. rewrite HE.
    apply (eom_loop (fun j => py_index Es (Z.of_nat j))); try done.
    intros j Ej. apply py_index_nat.
  - unfold td_rf_eom.
    rewrite (Hamiltonian_commutator_eig _ n) by done. cbn [rbind].
    unfold the_baths. rewrite Hb. cbn [rbind]. rewrite HE.
    apply (eom_loop (fun j => row <- py_index l (Z.of_nat j) ;;
                              py_index row stage)); try done.
    intros j Ej HEj.
    destruct (Forall2_lookup_r _ _ _ _ _ Hsel HEj) as (row & Hrow & Hpick).
    rewrite (py_index_nat _ _ _ Hrow). done.
Qed.

(** ** Method dispatch *)

Lemma implemented_bind {A B} (x : result A) (f : A -> result B) :
  implemented x -> (forall a, implemented (f a)) -> implemented (rbind x f).
Proof.
  intros Hx Hf. destruct x; simpl; [apply Hf|].
  intros [= ->]. by apply Hx.
Qed.

Lemma implemented_rfold {A St} (body : St -> A -> result St) xs s :
  (forall s x, implemented (body s x)) -> implemented (rfold body xs s).
Proof.
  intros H. revert s. induction xs as [|x xs IH]; intros s; simpl; [done|].
  apply implemented_bind; [apply H|apply IH].
Qed.

Lemma implemented_rmap {A B} (f : A -> result B) xs :
  (forall x, implemented (f x)) -> implemented (rmap f xs).
Proof.
  intros H. induction xs as [|x xs IH]; simpl; [done|].
  apply implemented_bind; [done|]. intros y.
  apply implemented_bind; [done|]. done.
Qed.

Lemma implemented_py_index {A} (l : list A) i : implemented (py_index l i).
Proof. unfold py_index. repeat case_match; done. Qed.

Lemma implemented_py_setitem {A} (l : list A) i x :
  implemented (py_setitem l i x).
Proof. unfold py_setitem. case_decide; done. Qed.

Lemma implemented_np_dot A B : implemented (np_dot A B).
Proof. unfold np_dot. case_decide; done. Qed.

Lemma implemented_np_ew f A B : implemented (np_ew f A B).
Proof. unfold np_ew. repeat case_match; done. Qed.

Lemma implemented_to_eigenbasis (h : Hamiltonian) op :
  implemented (to_eigenbasis h op).
Proof.
  unfold to_eigenbasis, is_vector, is_matrix, as_2d.
  repeat first
    [ apply implemented_bind; [|intros ?]
    | apply implemented_py_index | apply implemented_np_dot
    | case_match | done ].
Qed.

Ltac implemented_tac :=
  repeat first
    [ done
    | apply implemented_py_index | apply implemented_py_setitem
    | apply implemented_np_dot | apply implemented_np_ew
    | apply implemented_to_eigenbasis
    | apply implemented_rfold; intros ? ?
    | apply implemented_rmap; intros ?
    | apply implemented_bind; [|intros ?]
    | case_match ].

Lemma implemented_make_redfield_operators (h : Hamiltonian) :
  implemented (make_redfield_operators h).
Proof.
  unfold make_redfield_operators, the_baths, ft_theta_plus, rtab,
    np_getitem, np_mul.
  implemented_tac.
Qed.

Lemma implemented_coupling_operators_setup (h : Hamiltonian) ode dt :
  implemented (coupling_operators_setup h ode dt).
Proof.
  unfold coupling_operators_setup, the_baths, the_nbaths, setup_stage,
    append2, get2, np_add.
  implemented_tac.
Qed.

(** ** Running [solve] *)

Lemma mbind_inv {A B} (m : M A) (f : A -> M B) w r w' :
  mbind m f w = (r, w') ->
  (exists a w1, m w = (Ok a, w1) /\ f a w1 = (r, w')) \/
  (exists e, m w = (Raise e, w') /\ r = Raise e).
Proof.
  unfold mbind. destruct (m w) as [[a|e] w1]; intros H.
  - left. eauto.
  - right. injection H as <- <-. eauto.
Qed.

Lemma mbind_ok_inv {A B} (m : M A) (f : A -> M B) w b w' :
  mbind m f w = (Ok b, w') ->
  exists a w1, m w = (Ok a, w1) /\ f a w1 = (Ok b, w').
Proof.
  intros H. apply mbind_inv in H as [H|(e & _ & He)]; [done|discriminate].
Qed.

Lemma update_ops_frame s time s' :
  update_ops s time = Ok s' ->
  rf_ham s' = rf_ham s /\ rf_ode s' = rf_ode s /\
  rf_results s' = rf_results s /\ rf_options s' = rf_options s /\
  rf_time_dep s' = rf_time_dep s.
Proof.
  unfold update_ops. destruct (dress _ _ _ _); simpl; [|done].
  match goal with |- context [rbind ?x _] => destruct x end; simpl; [|done].
  by intros [= <-].
Qed.

(** What [integrate] touches: the array behind [y] and the clock of the
    integrator. *)
Lemma integrate_frame hbar w r w' :
  integrate hbar w = (r, w') ->
  rf_ham (self w') = rf_ham (self w) /\
  rf_results (self w') = rf_results (self w) /\
  rf_options (self w') = rf_options (self w) /\
  rf_time_dep (self w') = rf_time_dep (self w) /\
  y (rf_ode (self w')) = y (rf_ode (self w)) /\
  stdout w' = stdout w /\
  forall l, y (rf_ode (self w)) <> Some l -> heap w' !! l = heap w !! l.
Proof.
  unfold integrate, mbind, get_self, load, lift, store, modify_self, mraise.
  simpl. destruct (y (rf_ode (self w))) as [l|] eqn:Hy.
  2:{ intros [= <- <-]. by rewrite Hy. }
  destruct (heap w !! l) as [v|] eqn:Hv.
  2:{ intros [= <- <-]. by rewrite Hy. }
  destruct (as_2d v) as [A|]; simpl.
  2:{ intros [= <- <-]. by rewrite Hy. }
  destruct (rk_step _ _ A) as [A'|]; simpl.
  2:{ intros [= <- <-]. by rewrite Hy. }
  intros [= <- <-]. simpl. rewrite Hy. repeat (split; [done|]).
  intros l' Hl'. rewrite lookup_insert_ne; [done|congruence].
Qed.

(** One iteration of the loop of [solve]: a sample is recorded exactly when
    the index is a multiple of the stride, and it is the state the
    integrator holds when the iteration starts, taken back to the lab
    basis. *)
Lemma solve_step_sample hbar i t w w2 k :
  solve_step hbar (i, t) w = (Ok tt, w2) ->
  every (rf_results (self w)) = k ->
  every (rf_results (self w2)) = k /\
  rf_ham (self w2) = rf_ham (self w) /\
  y (rf_ode (self w2)) = y (rf_ode (self w)) /\
  k <> 0%Z /\
  (((Z.of_nat i mod k = 0)%Z /\
    exists l v X,
      y (rf_ode (self w)) = Some l /\ heap w !! l = Some v /\
      from_eigenbasis (rf_ham (self w)) v = Ok X /\
      analyzed (rf_results (self w2))
      = analyzed (rf_results (self w)) ++ [(Z.of_nat i, t, X)]) \/
   ((Z.of_nat i mod k <> 0)%Z /\
    analyzed (rf_results (self w2)) = analyzed (rf_results (self w)))).
Proof.
  intros H Hk. unfold solve_step in H.
  apply mbind_ok_inv in H as (s0 & w0 & Hget & H).
  injection Hget as <- <-.
  apply mbind_ok_inv in H as ([] & w1 & Hupd & H).
  assert (Hw1 : heap w1 = heap w /\ rf_ham (self w1) = rf_ham (self w) /\
                rf_ode (self w1) = rf_ode (self w) /\
                rf_results (self w1) = rf_results (self w)).
  { destruct (rf_time_dep (self w)).
    - unfold call_self in Hupd.
      destruct (update_ops (self w) t) as [s'|] eqn:Hl; [|done].
      injection Hupd as <-. simpl.
      apply update_ops_frame in Hl as (? & ? & ? & _). done.
    - by injection Hupd as <-. }
  destruct Hw1 as (Hheap & Hham & Hode & Hres).
  apply mbind_ok_inv in H as (s1 & w0 & Hget & H).
  injection Hget as <- <-.
  apply mbind_ok_inv in H as (m & w0 & Hmod & H).
  unfold lift in Hmod. injection Hmod as Hmod <-.
  unfold py_mod in Hmod. rewrite Hres, Hk in Hmod.
  destruct (decide (k = 0%Z)) as [Hk0|Hk0]; [done|]. injection Hmod as <-.
  apply mbind_ok_inv in H as ([] & w3 & Hsamp & Hint).
  destruct (integrate_frame _ _ _ _ Hint) as (Hh2 & Hr2 & _ & _ & Hy2 & _).
  rewrite Hh2, Hr2, Hy2.
  destruct (decide ((Z.of_nat i mod k)%Z = 0%Z)) as [Hm|Hm].
  - apply mbind_ok_inv in Hsamp as ([] & w4 & Hpr & Hsamp).
    assert (Hw4 : heap w4 = heap w1 /\ self w4 = self w1).
    { destruct (progress _); by injection Hpr as <-. }
    destruct Hw4 as [Hheap4 Hself4].
    rewrite Hode in Hsamp.
    destruct (y (rf_ode (self w))) as [l|] eqn:Hy; [|done].
    apply mbind_ok_inv in Hsamp as (v & w5 & Hload & Hsamp).
    unfold load in Hload. rewrite Hheap4, Hheap in Hload.
    destruct (heap w !! l) as [v'|] eqn:Hv; [|done].
    injection Hload as -> <-.
    apply mbind_ok_inv in Hsamp as (X & w5 & Hfrom & Hsamp).
    unfold lift in Hfrom. injection Hfrom as Hfrom <-.
    apply mbind_ok_inv in Hsamp as (st & w5 & Hal & Hsamp).
    injection Hal as <- <-. injection Hsamp as <-. simpl.
    rewrite Hself4, Hres, Hham, Hode, Hk. simpl.
    do 4 (split; [done|]). left. split; [done|].
    exists l, v, X. rewrite Hham in Hfrom. done.
  - injection Hsamp as <-. rewrite Hres, Hham, Hode, Hk.
    do 4 (split; [done|]). by right.
Qed.

Section Frame.
Variable Rel : world -> world -> Prop.
Hypothesis Rel_refl : forall w, Rel w w.
Hypothesis Rel_trans : forall w1 w2 w3, Rel w1 w2 -> Rel w2 w3 -> Rel w1 w3.

Lemma framed_pure {A} (m : M A) :
  (forall w, (m w).2 = w) -> framed Rel m.
Proof. intros H w. rewrite H. apply Rel_refl. Qed.

Lemma framed_mret {A} (a : A) : framed Rel (mret a).
Proof. by apply framed_pure. Qed.

Lemma framed_mraise {A} e : framed Rel (@mraise A e).
Proof. by apply framed_pure. Qed.

Lemma framed_lift {A} (r : result A) : framed Rel (lift r).
Proof. by apply framed_pure. Qed.

Lemma framed_get_self : framed Rel get_self.
Proof. by apply framed_pure. Qed.

Lemma framed_load l : framed Rel (load l).
Proof. apply framed_pure. intros w. unfold load. by destruct (heap w !! l). Qed.

Lemma framed_bind {A B} (m : M A) (f : A -> M B) :
  framed Rel m -> (forall a, framed Rel (f a)) -> framed Rel (mbind m f).
Proof.
  intros Hm Hf w. unfold mbind. specialize (Hm w).
  destruct (m w) as [[a|e] w1]; simpl in *; [|done].
  apply (Rel_trans _ w1); [done|]. apply Hf.
Qed.

Lemma framed_mfor {A} (body : A -> M unit) xs :
  (forall x, framed Rel (body x)) -> framed Rel (mfor body xs).
Proof.
  intros H. induction xs as [|x xs IH]; simpl.
  - apply framed_mret.
  - apply framed_bind; [apply H|done].
Qed.

(** A change of [self] that [Rel] allows. *)
Lemma framed_call_self (f : Redfield -> result Redfield) :
  (forall w s', f (self w) = Ok s' ->
     Rel w {| heap := heap w; self := s'; stdout := stdout w |}) ->
  framed Rel (call_self f).
Proof.
  intros H w. unfold call_self.
  destruct (f (self w)) eqn:E; simpl; [by apply H|apply Rel_refl].
Qed.
End Frame.

Lemma heap_grows_refl w : heap_grows w w.
Proof. by intros l v. Qed.

Lemma heap_grows_trans w1 w2 w3 :
  heap_grows w1 w2 -> heap_grows w2 w3 -> heap_grows w1 w3.
Proof. intros H1 H2 l v Hl. by apply H2, H1. Qed.

Lemma integrator_owns_refl w : integrator_owns w w.
Proof. by split. Qed.

Lemma integrator_owns_trans w1 w2 w3 :
  integrator_owns w1 w2 -> integrator_owns w2 w3 -> integrator_owns w1 w3.
Proof.
  intros [Hy1 H1] [Hy2 H2]. split; [congruence|].
  intros l v Hl Hne. apply H2; [by apply H1|congruence].
Qed.

Lemma alloc_fresh v w l w' :
  alloc v w = (Ok l, w') ->
  heap w !! l = None /\ heap w' = <[l := v]> (heap w) /\ self w' = self w.
Proof.
  unfold alloc. intros [= <- <-]. simpl. split; [|done].
  apply not_elem_of_dom. apply is_fresh.
Qed.

Lemma lookup_alloc_other v w l x :
  heap w !! l = Some x -> heap (alloc v w).2 !! l = Some x.
Proof.
  intros Hl. unfold alloc. simpl. rewrite lookup_insert_ne; [done|].
  intros <-. pose proof (is_fresh (dom (heap w))) as Hf.
  apply not_elem_of_dom in Hf. congruence.
Qed.

(** [setup] and the statements before it allocate and overwrite nothing. *)
Lemma setup_heap options results w :
  heap (setup options results w).2 = heap w.
Proof.
  unfold setup, mbind, modify_self, get_self, lift, mret, mraise.
  repeat (case_match; simplify_eq/=); done.
Qed.

Lemma framed_heap_same {A} (m : M A) :
  (forall w, heap (m w).2 = heap w) -> framed heap_grows m.
Proof. intros H w l v. by rewrite H. Qed.

Lemma framed_alloc_grows v : framed heap_grows (alloc v).
Proof. intros w l x. apply lookup_alloc_other. Qed.

Lemma solve_init_grows rho0 times options results :
  framed heap_grows (solve_init rho0 times options results).
Proof.
  unfold solve_init.
  repeat first
    [ apply framed_alloc_grows
    | apply (framed_lift _ heap_grows_refl)
    | apply (framed_load _ heap_grows_refl)
    | apply (framed_get_self _ heap_grows_refl)
    | apply framed_heap_same; first [apply setup_heap | done]
    | apply (framed_bind _ heap_grows_trans); [|intros ?] ].
Qed.

Lemma solve_seed_grows rho0 times options results :
  framed heap_grows (solve_seed rho0 times options results).
Proof.
  unfold solve_seed.
  repeat first
    [ apply solve_init_grows
    | apply framed_alloc_grows
    | apply (framed_lift _ heap_grows_refl)
    | apply (framed_mraise _ heap_grows_refl)
    | apply (framed_get_self _ heap_grows_refl)
    | apply framed_heap_same; done
    | apply (framed_bind _ heap_grows_trans); [|intros ?]
    | case_match ].
Qed.

(** When the loop starts the integrator holds an array that did not exist
    when [solve] was called. *)
Lemma solve_seed_new_array rho0 times options results w ws :
  solve_seed rho0 times options results w = (Ok tt, ws) ->
  exists rho, y (rf_ode (self ws)) = Some rho /\ heap w !! rho = None.
Proof.
  unfold solve_seed. intros H.
  apply mbind_ok_inv in H as (rho_v & w1 & Hinit & H).
  apply mbind_ok_inv in H as (rho & w2 & Hal & H).
  apply mbind_ok_inv in H as (s & w3 & Hget & H).
  injection Hget as <- <-.
  destruct (is_exact _); [done|].
  apply mbind_ok_inv in H as (t0 & w3 & Hl & H).
  injection H as <-. simpl. exists rho. split; [done|].
  apply alloc_fresh in Hal as (Hnone & _).
  pose proof (solve_init_grows rho0 times options results w) as Hg.
  rewrite Hinit in Hg. simpl in Hg.
  destruct (heap w !! rho) as [v|] eqn:Hv; [|done].
  apply Hg in Hv. congruence.
Qed.

Lemma integrate_owns hbar : framed integrator_owns (integrate hbar).
Proof.
  intros w. destruct (integrate hbar w) as [r w'] eqn:E.
  destruct (integrate_frame _ _ _ _ E) as (_ & _ & _ & _ & Hy & _ & Hh).
  split; [done|]. intros l v Hl Hne. simpl. rewrite Hh; done.
Qed.

Lemma solve_step_owns hbar it : framed integrator_owns (solve_step hbar it).
Proof.
  unfold solve_step. destruct it as [i time].
  repeat first
    [ apply integrate_owns
    | apply (framed_get_self _ integrator_owns_refl)
    | apply (framed_lift _ integrator_owns_refl)
    | apply (framed_mret _ integrator_owns_refl)
    | apply (framed_mraise _ integrator_owns_refl)
    | apply (framed_load _ integrator_owns_refl)
    | apply (framed_bind _ integrator_owns_trans); [|intros ?]
    | case_match ].
  - apply (framed_call_self _ integrator_owns_refl). intros w s' Hs'.
    apply update_ops_frame in Hs' as (_ & Hode & _).
    split; simpl; [by rewrite Hode|done].
  - intros w. split; [done|]. intros l v Hl _. by apply lookup_alloc_other.
Qed.

Lemma solve_unfold hbar rho0 times options results w :
  solve hbar rho0 times options results w
  = match solve_seed rho0 times options results w with
    | (Ok _, ws) =>
        match mfor (solve_step hbar) (enumerate times) ws with
        | (Ok _, w') => (Ok (rf_results (self w')), w')
        | (Raise e, w') => (Raise e, w')
        end
    | (Raise e, ws) => (Raise e, ws)
    end.
Proof. reflexivity. Qed.

(** C10. [solve] leaves the array [rho0] of the caller as it was, whether
    it returns or raises: it works on a copy, and the array that the
    integrator overwrites in place is one that [solve] created. *)
Theorem solve_leaves_rho0 hbar rho0 times options results w v0 :
  heap w !! rho0 = Some v0 ->
  heap (solve hbar rho0 times options results w).2 !! rho0 = Some v0 /\
  forall res w', solve hbar rho0 times options results w = (Ok res, w') ->
    exists rho, y (rf_ode (self w')) = Some rho /\ rho <> rho0 /\
                heap w !! rho = None.
Proof.
  intros H0.
  rewrite (solve_unfold hbar rho0 times options results w).
  pose proof (solve_seed_grows rho0 times options results w) as Hg.
  destruct (solve_seed rho0 times options results w) as [[[]|e] ws] eqn:Hs;
    simpl in Hg; [|split; [by apply Hg|done]].
  destruct (solve_seed_new_array _ _ _ _ _ _ Hs) as (rho & Hy & Hnew).
  assert (Hne : rho <> rho0) by congruence.
  pose proof (framed_mfor _ integrator_owns_refl integrator_owns_trans
                (solve_step hbar) (enumerate times) (solve_step_owns hbar) ws)
    as [Hy' Hown].
  destruct (mfor (solve_step hbar) (enumerate times) ws) as [[[]|e] w2] eqn:Hl;
    simpl in *.
  - split.
    + apply Hown; [by apply Hg|congruence].
    + intros res w' [= <- <-]. exists rho. by rewrite Hy', Hy.
  - split; [|done]. apply Hown; [by apply Hg|congruence].
Qed.

Lemma setup_exact o results w :
  method o = "exact"%string ->
  setup (Some o) results w
  = (Raise NotImplementedError,
     {| heap := heap w; self := with_options o (self w);
        stdout := stdout w |}).
Proof.
  intros Hm. unfold setup, mbind, modify_self, is_exact.
  by rewrite bool_decide_eq_true_2.
Qed.

Lemma solve_seed_exact rho0 t0 t1 ts o results w :
  method o = "exact"%string ->
  solve_seed rho0 (t0 :: t1 :: ts) (Some o) results w
  = (Raise NotImplementedError,
     {| heap := heap w; self := with_options o (with_dt (t1 - t0)%C (self w));
        stdout := stdout w |}).
Proof.
  intros Hm. unfold solve_seed, solve_init.
  unfold mbind at 1. unfold mbind at 1. unfold mbind at 1.
  unfold mbind at 1. unfold mbind at 1.
  change (lift (py_index (t0 :: t1 :: ts) 1) w) with (Ok t1, w).
  cbv beta iota.
  change (lift (py_index (t0 :: t1 :: ts) 0) w) with (Ok t0, w).
  cbv beta iota. unfold modify_self at 1. cbv beta iota.
  by rewrite setup_exact.
Qed.

Lemma setup_implemented o results w tbl :
  method o <> "exact"%string -> rk_method o = Ok tbl ->
  (setup (Some o) results w).1 <> Raise NotImplementedError.
Proof.
  intros Hm Htbl.
  assert (Hex : is_exact o = false) by by apply bool_decide_eq_false_2.
  destruct (setup (Some o) results w) as [r w'] eqn:E. simpl. intros ->.
  unfold setup in E.
  apply mbind_inv in E as [([] & w1 & E1 & E)|(e & E1 & He)].
  2:{ rewrite Hex in E1. by apply mbind_inv in E1 as [(? & ? & ? & ?)|(? & ? & ?)]. }
  assert (Ho1 : rf_options (self w1) = o).
  { rewrite Hex in E1. by injection E1 as <-. }
  apply mbind_inv in E as [([] & w2 & E2 & E)|(e & E2 & He)].
  2:{ destruct results as [r|]; [|done].
      apply mbind_inv in E2 as [(? & ? & ? & E2)|(? & ? & ?)]; [|done].
      destruct (map_ops r); [|done].
      apply mbind_inv in E2 as [(? & ? & ? & E2)|(? & ? & ?)]; [|done].
      destruct (is_md _); [done|]. injection E2 as <- <-. done. }
  assert (Ho2 : rf_options (self w2) = o).
  { destruct results as [r|]; [|by injection E2 as <-].
    apply mbind_inv in E2 as [(? & ? & E0 & E2)|(? & ? & ?)]; [|done].
    injection E0 as <- <-.
    destruct (map_ops r); [|by injection E2 as <-].
    apply mbind_inv in E2 as [(? & ? & E0 & E2)|(? & ? & ?)]; [|done].
    injection E0 as <- <-.
    destruct (is_md _); [|done]. by injection E2 as <-. }
  apply mbind_inv in E as [(s & w3 & E3 & E)|(e & E3 & He)]; [|done].
  injection E3 as <- <-.
  apply mbind_inv in E as [(ode & w3 & E3 & E)|(e & E3 & He)].
  2:{ unfold lift, Integrator_init in E3. rewrite Ho2, Htbl in E3.
      simpl in E3. by destruct tbl. }
  unfold lift in E3. injection E3 as _ <-.
  apply mbind_inv in E as [([] & w3 & E3 & E)|(e & E3 & He)]; [|done].
  injection E3 as <-.
  apply mbind_inv in E as [(s & w4 & E4 & E)|(e & E4 & He)]; [|done].
  injection E4 as <- <-. simpl in E. rewrite Ho2, Hex in E. simpl in E.
  destruct (rf_time_dep (self w2)).
  - apply mbind_inv in E as [(? & ? & ? & E)|(e & E4 & He)]; [done|].
    unfold lift in E4. injection E4 as E4 _. injection He as <-.
    by apply implemented_coupling_operators_setup in E4.
  - apply mbind_inv in E as [(? & ? & ? & E)|(e & E4 & He)]; [done|].
    unfold lift in E4. injection E4 as E4 _. injection He as <-.
    by apply implemented_make_redfield_operators in E4.
Qed.

(** C8. With [method == "exact"] the run fails with a not-implemented
    error that [setup] raises at its method dispatch, before the integrator
    exists: no array is allocated or overwritten, nothing is sampled and no
    operator is built.  For any other method that the integrator knows,
    [setup] does not raise this error. *)
Theorem exact_method_not_implemented (o : Options) :
  (method o = "exact"%string ->
   (forall results w0,
      (setup (Some o) results w0).1 = Raise NotImplementedError /\
      heap (setup (Some o) results w0).2 = heap w0 /\
      rf_ode (self (setup (Some o) results w0).2) = rf_ode (self w0)) /\
   forall hbar rho0 times results w, 2 <= length times ->
     exists w',
       solve hbar rho0 times (Some o) results w
       = (Raise NotImplementedError, w') /\
       heap w' = heap w /\ stdout w' = stdout w /\
       rf_ode (self w') = rf_ode (self w) /\
       rf_results (self w') = rf_results (self w) /\
       rf_C (self w') = rf_C (self w) /\ rf_E (self w') = rf_E (self w) /\
       rf_gamma_n (self w') = rf_gamma_n (self w) /\
       rf_gamma_n_1 (self w') = rf_gamma_n_1 (self w)) /\
  (method o <> "exact"%string ->
   forall results w tbl, rk_method o = Ok tbl ->
     (setup (Some o) results w).1 <> Raise NotImplementedError).
Proof.
  split.
  - intros Hm. split; [intros results w0; by rewrite setup_exact|].
    intros hbar rho0 times results w Hlen.
    destruct times as [|t0 [|t1 ts]]; simpl in Hlen; [lia..|].
    eexists. split.
    + rewrite solve_unfold, solve_seed_exact by done. reflexivity.
    + done.
  - intros Hm results w tbl. by apply setup_implemented.
Qed.

(** ** The sampling cadence *)

Lemma multiples_S k n :
  multiples k (S n)
  = multiples k n ++ (if decide (n mod k = 0) then [n] else []).
Proof.
  unfold multiples. by rewrite seq_S, filter_app.
Qed.

Lemma ceil_div_S n k :
  0 < k ->
  ceil_div (S n) k
  = ceil_div n k + (if decide (n mod k = 0) then 1 else 0).
Proof.
  intros Hk. unfold ceil_div.
  pose proof (Nat.div_mod_eq n k) as Hn.
  pose proof (Nat.mod_upper_bound n k ltac:(lia)) as Hr.
  set (q := n / k) in *. set (r := n mod k) in *.
  assert (H1 : (S n + k - 1) / k = S q).
  { symmetry. apply (Nat.div_unique _ _ _ r); lia. }
  rewrite H1. case_decide as Hr0.
  - assert (H2 : (n + k - 1) / k = q).
    { symmetry. apply (Nat.div_unique _ _ _ (k - 1)); lia. }
    lia.
  - assert (H2 : (n + k - 1) / k = S q).
    { symmetry. apply (Nat.div_unique _ _ _ (r - 1)); lia. }
    lia.
Qed.

Lemma ceil_div_exact n k :
  0 < k -> n mod k = 0 -> ceil_div n k * k = n.
Proof.
  intros Hk Hr. unfold ceil_div.
  pose proof (Nat.div_mod_eq n k) as Hn. rewrite Hr in Hn.
  assert (H2 : (n + k - 1) / k = n / k).
  { symmetry. apply (Nat.div_unique _ _ _ (k - 1)); lia. }
  rewrite H2. lia.
Qed.

(** The sampled indices are [0, k, 2k, ...], [ceil(n/k)] of them. *)
Lemma multiples_closed k n :
  0 < k -> multiples k n = map (fun q => q * k) (seq 0 (ceil_div n k)).
Proof.
  intros Hk. induction n as [|n IH].
  - unfold ceil_div. rewrite Nat.div_small by lia. done.
  - rewrite multiples_S, ceil_div_S, IH by done.
    case_decide as Hr.
    + rewrite Nat.add_1_r, seq_S, map_app. simpl.
      by rewrite ceil_div_exact.
    + by rewrite Nat.add_0_r, app_nil_r.
Qed.

Lemma mfor_app {A} (body : A -> M unit) xs ys w :
  mfor body (xs ++ ys) w
  = match mfor body xs w with
    | (Ok _, w1) => mfor body ys w1
    | (Raise e, w1) => (Raise e, w1)
    end.
Proof.
  revert w. induction xs as [|x xs IH]; intros w; simpl; [done|].
  unfold mbind. destruct (body x w) as [[[]|e] w1]; [apply IH|done].
Qed.

Lemma lookup_enumerate {A} (xs : list A) i x :
  xs !! i = Some x -> enumerate xs !! i = Some (i, x).
Proof.
  intros H. unfold enumerate. apply lookup_zip_Some. split; [|done].
  apply lookup_seq. split; [done|]. by apply lookup_lt_Some in H.
Qed.

Lemma length_enumerate {A} (xs : list A) : length (enumerate xs) = length xs.
Proof. unfold enumerate. rewrite length_zip, length_seq. lia. Qed.

(** The samples recorded by the first [i] iterations. *)
Lemma loop_samples hbar times ws k i :
  (0 < k)%Z -> every (rf_results (self ws)) = k -> i <= length times ->
  forall wi,
    mfor (solve_step hbar) (take i (enumerate times)) ws = (Ok tt, wi) ->
    every (rf_results (self wi)) = k /\
    exists samples,
      analyzed (rf_results (self wi))
      = analyzed (rf_results (self ws)) ++ samples /\
      Forall2 (fun j smp =>
                 pre_step_sample
                   (mfor (solve_step hbar) (take j (enumerate times)) ws).2
                   times j smp)
              (multiples (Z.to_nat k) i) samples.
Proof.
  intros Hk Hev. induction i as [|i IH]; intros Hi wi Hrun.
  - rewrite take_0 in Hrun. injection Hrun as <-.
    split; [done|]. exists []. rewrite app_nil_r. split; [done|]. constructor.
  - destruct (lookup_lt_is_Some_2 times i) as [t Ht]; [lia|].
    rewrite (take_S_r _ _ _ (lookup_enumerate _ _ _ Ht)) in Hrun.
    rewrite mfor_app in Hrun.
    destruct (mfor (solve_step hbar) (take i (enumerate times)) ws)
      as [[[]|e] w1] eqn:Hprev; [|done].
    destruct (IH ltac:(lia) w1 eq_refl) as (Hev1 & samples & Han & HF).
    cbn [mfor] in Hrun. unfold mbind, mret in Hrun.
    destruct (solve_step hbar (i, t) w1) as [[[]|e] w2] eqn:Hstep; [|done].
    injection Hrun as <-.
    destruct (solve_step_sample _ _ _ _ _ _ Hstep Hev1)
      as (Hev2 & _ & _ & _ & Hcase).
    split; [done|]. rewrite multiples_S.
    assert (Hmod : (Z.of_nat i mod k = 0)%Z <-> i mod Z.to_nat k = 0).
    { rewrite <- (Z2Nat.id k) at 1 by lia.
      rewrite <- Nat2Z.inj_mod. lia. }
    destruct Hcase as [(Hm & l & v & X & Hy & Hv & Hfrom & Han2)
                      |(Hm & Han2)].
    + rewrite decide_True by by apply Hmod.
      exists (samples ++ [(Z.of_nat i, t, X)]).
      split; [by rewrite Han2, Han, app_assoc|].
      apply Forall2_app; [done|]. constructor; [|constructor].
      rewrite Hprev. simpl. by exists t, l, v, X.
    + rewrite decide_False by (by rewrite <- Hmod).
      exists samples. rewrite app_nil_r. by rewrite Han2.
Qed.

Lemma setup_results options results w w1 :
  setup options results w = (Ok tt, w1) ->
  every (rf_results (self w1)) = every (default default_results results) /\
  analyzed (rf_results (self w1))
  = analyzed (default default_results results).
Proof.
  intros E. unfold setup in E.
  apply mbind_ok_inv in E as ([] & wa & _ & E).
  apply mbind_ok_inv in E as ([] & wb & Eb & E).
  assert (Hb : every (rf_results (self wb))
               = every (default default_results results) /\
               analyzed (rf_results (self wb))
               = analyzed (default default_results results)).
  { destruct results as [r|]; simpl; [|by injection Eb as <-].
    apply mbind_ok_inv in Eb as ([] & w0 & E0 & Eb). injection E0 as <-.
    destruct (map_ops r); [|by injection Eb as <-].
    apply mbind_ok_inv in Eb as (s & w0 & E0 & Eb). injection E0 as <- <-.
    destruct (is_md _); [|done]. by injection Eb as <-. }
  apply mbind_ok_inv in E as (s & w0 & E0 & E). injection E0 as <- <-.
  apply mbind_ok_inv in E as (ode & w0 & E0 & E).
  unfold lift in E0. injection E0 as _ <-.
  apply mbind_ok_inv in E as ([] & wc & E0 & E). injection E0 as <-.
  apply mbind_ok_inv in E as (s & w0 & E0 & E). injection E0 as <- <-.
  simpl in E. destruct (negb _).
  - destruct (rf_time_dep (self wb)).
    + apply mbind_ok_inv in E as (r & w0 & E0 & E).
      unfold lift in E0. injection E0 as _ <-. by injection E as <-.
    + apply mbind_ok_inv in E as (r & w0 & E0 & E).
      unfold lift in E0. injection E0 as _ <-. by injection E as <-.
  - by injection E as <-.
Qed.

Lemma solve_seed_results rho0 times options results w ws :
  solve_seed rho0 times options results w = (Ok tt, ws) ->
  every (rf_results (self ws)) = every (default default_results results) /\
  analyzed (rf_results (self ws))
  = analyzed (default default_results results).
Proof.
  unfold solve_seed, solve_init. intros E.
  apply mbind_ok_inv in E as (rho_v & w1 & Ei & E).
  apply mbind_ok_inv in Ei as (t1 & w0 & E0 & Ei).
  unfold lift in E0. injection E0 as _ <-.
  apply mbind_ok_inv in Ei as (t0 & w0 & E0 & Ei).
  unfold lift in E0. injection E0 as _ <-.
  apply mbind_ok_inv in Ei as ([] & w0 & E0 & Ei). injection E0 as <-.
  apply mbind_ok_inv in Ei as ([] & w2 & Es & Ei).
  apply setup_results in Es.
  apply mbind_ok_inv in Ei as (v & w0 & E0 & Ei).
  unfold load in E0. destruct (heap w2 !! rho0); [|done].
  injection E0 as _ <-.
  apply mbind_ok_inv in Ei as (cp & w3 & E0 & Ei).
  apply alloc_fresh in E0 as (_ & _ & Hself3).
  apply mbind_ok_inv in Ei as (v' & w0 & E0 & Ei).
  unfold load in E0. destruct (heap w3 !! cp); [|done].
  injection E0 as _ <-.
  apply mbind_ok_inv in Ei as (s & w0 & E0 & Ei). injection E0 as <- <-.
  unfold lift in Ei. injection Ei as _ <-.
  apply mbind_ok_inv in E as (rho & w4 & E0 & E).
  apply alloc_fresh in E0 as (_ & _ & Hself4).
  apply mbind_ok_inv in E as (s & w0 & E0 & E). injection E0 as <- <-.
  destruct (is_exact _); [done|].
  apply mbind_ok_inv in E as (t0' & w0 & E0 & E).
  unfold lift in E0. injection E0 as _ <-.
  injection E as <-. simpl. by rewrite Hself4, Hself3.
Qed.

Lemma pre_step_seeded hbar rho0 times options results w ws i :
  solve_seed rho0 times options results w = (Ok tt, ws) ->
  pre_step hbar rho0 times options results i w
  = (mfor (solve_step hbar) (take i (enumerate times)) ws).2.
Proof. intros Hs. unfold pre_step, mbind. by rewrite Hs. Qed.

(** C7. With a stride [every = k], [solve] records its samples exactly at
    the time indices [0, k, 2k, ...], that is [ceil(len(times)/k)] of them,
    and the sample of an index is the state that the integrator holds when
    the iteration of that index starts (before its [integrate()]), taken
    back to the lab basis. *)
Theorem sampling_cadence hbar rho0 times options results w res w' :
  let r0 := default default_results results in
  let k := Z.to_nat (every r0) in
  (0 < every r0)%Z ->
  solve hbar rho0 times options results w = (Ok res, w') ->
  exists samples,
    analyzed res = analyzed r0 ++ samples /\
    length samples = ceil_div (length times) k /\
    Forall2 (fun q smp =>
               pre_step_sample
                 (pre_step hbar rho0 times options results (q * k) w)
                 times (q * k) smp)
            (seq 0 (ceil_div (length times) k)) samples.
Proof.
  intros r0 k Hk Hsolve. rewrite solve_unfold in Hsolve.
  destruct (solve_seed rho0 times options results w) as [[[]|e] ws] eqn:Hs;
    [|done].
  destruct (mfor (solve_step hbar) (enumerate times) ws) as [[[]|e] w2] eqn:Hl;
    [|done].
  injection Hsolve as <- <-.
  destruct (solve_seed_results _ _ _ _ _ _ Hs) as [Hev Han].
  destruct (loop_samples hbar times ws (every r0) (length times) Hk Hev
              ltac:(lia) w2) as (_ & samples & Hsamples & HF).
  { rewrite firstn_all2; [done|]. by rewrite length_enumerate. }
  fold k in HF. rewrite multiples_closed in HF by (unfold k; lia).
  apply Forall2_fmap_l in HF.
  exists samples. split; [by rewrite Hsamples, Han|].
  split.
  - apply Forall2_length in HF. by rewrite length_seq in HF.
  - eapply Forall2_impl; [exact HF|]. intros q smp Hq. simpl in Hq.
    by rewrite (pre_step_seeded _ _ _ _ _ _ ws).
Qed.

(** * Further properties of the code *)

(** ** matmult *)

Lemma conformable_cons X Y ms :
  conformable (X :: Y :: ms) <-> ncols X = nrows Y /\ conformable (Y :: ms).
Proof.
  split.
  - intros H. split; [by apply (H 0)|].
    intros i A B HA HB. by apply (H (S i)).
  - intros [H0 H] [|i] A B HA HB.
    + simpl in HA, HB. by simplify_eq.
    + by apply (H i).
Qed.

Lemma List_last_cons {A} (l : list A) a d :
  List.last (a :: l) d = List.last l a.
Proof.
  revert a d. induction l as [|x l IH]; intros a d; [done|].
  change (List.last (a :: x :: l) d) with (List.last (x :: l) d).
  by rewrite !IH.
Qed.

Lemma matmult_loop ms matout mat :
  ncols matout = ncols mat ->
  (conformable (mat :: ms) ->
   exists out, rfold matmult_step ms (matout, mat)
               = Ok (out, List.last ms mat)) /\
  (~ conformable (mat :: ms) ->
   rfold matmult_step ms (matout, mat) = Raise ValueError).
Proof.
  revert matout mat. induction ms as [|Y ms IH]; intros matout mat Hc.
  - split; [intros _; by exists matout|].
    intros H. destruct H. intros [|i] A B HA HB; done.
  - cbn [rfold]. unfold matmult_step at 1 3. cbn [fst].
    unfold np_dot. rewrite Hc. case_decide as Hd; cbn [rbind].
    + destruct (IH (dot matout Y) Y eq_refl) as [Hok Herr]. split.
      * intros Hconf. apply conformable_cons in Hconf as [_ Hconf].
        destruct (Hok Hconf) as [out Hout]. exists out. rewrite Hout.
        by rewrite List_last_cons.
      * intros Hconf. apply Herr. intros Hconf'. apply Hconf.
        by apply conformable_cons.
    + split; [|done]. intros Hconf.
      apply conformable_cons in Hconf as [Hconf _]. done.
Qed.

(** X1. [matmult] returns its last argument, not the product: when every
    array can be multiplied with the next one the call returns the last
    array unchanged, and otherwise it raises the [ValueError] of [dot]. *)
Theorem matmult_returns_last mat0 mats :
  (conformable (mat0 :: mats) ->
   matmult mat0 mats = Ok (List.last mats mat0)) /\
  (~ conformable (mat0 :: mats) -> matmult mat0 mats = Raise ValueError).
Proof.
  destruct (matmult_loop mats mat0 mat0 eq_refl) as [Hok Herr].
  unfold matmult. split.
  - intros Hc. destruct (Hok Hc) as [out ->]. done.
  - intros Hc. by rewrite (Herr Hc).
Qed.

(** ** dag, commutator and anticommutator *)

Lemma cconj_zero : conj_ok -> cconj 0%C = 0%C.
Proof.
  intros (_ & Hadd & _). pose proof (Hadd 0%C 0%C) as H.
  assert (H0 : (0 + 0 = 0)%C) by ring. rewrite H0 in H.
  assert (H1 : (cconj 0 - cconj 0 = cconj 0 + cconj 0 - cconj 0)%C)
    by (by rewrite <- H).
  ring_simplify in H1. done.
Qed.

Lemma cconj_csum n f :
  conj_ok -> cconj (csum n f) = csum n (fun k => cconj (f k)).
Proof.
  intros Hc. induction n as [|n IH]; simpl; [by apply cconj_zero|].
  destruct Hc as (_ & Hadd & _). by rewrite Hadd, IH.
Qed.

Lemma dag_dag r c A :
  conj_ok -> has_shape r c A -> dag (dag A) = A.
Proof.
  intros (Hinv & _) HA. apply (has_shape_ext r c); [|done|].
  - destruct HA as (<- & <- & _). apply has_shape_mk.
  - intros i j Hi Hj. destruct HA as (Hr & Hc & _).
    unfold dag at 1. simpl. rewrite Hr, Hc, entry_mk by done.
    unfold dag. rewrite Hr, Hc, entry_mk by done. apply Hinv.
Qed.

Lemma dag_of_dot A B :
  conj_ok -> ncols A = nrows B ->
  dag (dot A B) = dot (dag B) (dag A).
Proof.
  intros Hc HAB. unfold dag at 1. unfold dot at 2. simpl.
  apply mk_ext. intros i j Hi Hj.
  rewrite entry_dot by done. rewrite cconj_csum by done.
  rewrite HAB. apply csum_ext. intros k Hk.
  simpl in Hi, Hj, Hk. unfold dag. rewrite !entry_mk by lia.
  destruct Hc as (_ & _ & Hmul). rewrite Hmul. ring.
Qed.

(** X2. [dag] turns an [r] by [c] array into a [c] by [r] one and is an
    involution: the adjoint of the adjoint of an array is the array. *)
Theorem dag_involutive r c A :
  conj_ok -> has_shape r c A ->
  has_shape c r (dag A) /\ dag (dag A) = A.
Proof.
  intros Hc HA. split; [|by apply (dag_dag r c)].
  destruct HA as (<- & <- & _). apply has_shape_mk.
Qed.

(** X3. [dag] reverses products: [dag(A.dot(B)) = dag(B).dot(dag(A))], and
    so [A.dot(dag(A))] is its own adjoint. *)
Theorem dag_dot r c A B :
  conj_ok -> has_shape r c A -> ncols A = nrows B ->
  dag (dot A B) = dot (dag B) (dag A) /\
  dag (dot A (dag A)) = dot A (dag A).
Proof.
  intros Hc HA HAB. split; [by apply dag_of_dot|].
  rewrite dag_of_dot by done. by rewrite (dag_dag r c).
Qed.

Lemma anticommutator_square n A B :
  dims n n A -> dims n n B ->
  anticommutator A B = Ok (madd n (dot A B) (dot B A)).
Proof.
  intros [HrA HcA] [HrB HcB]. unfold anticommutator.
  rewrite !np_dot_ok by lia. cbn [rbind]. unfold np_add.
  by rewrite (np_ew_same _ n n) by (split; simpl; lia).
Qed.

(** X4. On square arrays of one size the commutator is antisymmetric,
    [commutator(A, B) = -commutator(B, A)], it vanishes on equal arguments,
    and the anticommutator is symmetric. *)
Theorem commutator_antisymmetric n A B :
  dims n n A -> dims n n B ->
  (exists X Y, commutator A B = Ok X /\ commutator B A = Ok Y /\
               X = ew_map copp Y) /\
  commutator A A = Ok (np_zeros n n) /\
  anticommutator A B = anticommutator B A.
Proof.
  intros HA HB. split; [|split].
  - exists (comm n A B), (comm n B A).
    rewrite !(commutator_square n) by done. split; [done|]. split; [done|].
    unfold comm, msub, ew_map. simpl. apply mk_ext. intros i j Hi Hj.
    rewrite entry_mk by done. ring.
  - rewrite (commutator_square n) by done. f_equal.
    unfold comm, msub, np_zeros. apply mk_ext. intros i j Hi Hj. ring.
  - rewrite !(anticommutator_square n) by done. f_equal.
    unfold madd. apply mk_ext. intros i j Hi Hj. ring.
Qed.

(** ** Basis changes: errors, the second round trip and the norm *)

(** X5. Which way a basis change ends, for an [n] by [n] matrix of
    eigenvectors: an operand without a second dimension raises
    [IndexError], a 2-d operand whose first dimension is not [n] raises the
    [ValueError] of [np.dot], and every other operand is transformed.  No
    other error is raised. *)
Theorem basis_change_outcome (h : Hamiltonian) n op :
  dims n n (ek h) ->
  match op with
  | Nd2 A =>
      if decide (nrows A = n) then
        (exists X, to_eigenbasis h op = Ok X /\ dims (nrows A) (ncols A) X) /\
        (exists X, from_eigenbasis h op = Ok X /\ dims (nrows A) (ncols A) X)
      else
        to_eigenbasis h op = Raise ValueError /\
        from_eigenbasis h op = Raise ValueError
  | _ =>
      to_eigenbasis h op = Raise IndexError /\
      from_eigenbasis h op = Raise IndexError
  end.
Proof.
  intros [Hr Hc]. destruct op as [x|v|A]; [done..|].
  case_decide as Hn.
  - destruct (decide (nrows A = ncols A)) as [Hsq|Hne].
    + rewrite to_eigenbasis_matrix, from_eigenbasis_matrix by lia.
      split; eexists; (split; [done|]); split; simpl; lia.
    + rewrite to_eigenbasis_vector, from_eigenbasis_vector by lia.
      split; eexists; (split; [done|]); split; simpl; lia.
  - unfold to_eigenbasis, from_eigenbasis.
    rewrite is_vector_2d, is_matrix_2d.
    destruct (decide (nrows A = ncols A)) as [Hsq|Hne].
    + rewrite bool_decide_eq_true_2 by done. cbn [negb rbind as_2d].
      rewrite !np_dot_err by (simpl; lia). done.
    + rewrite bool_decide_eq_false_2 by done. cbn [negb rbind as_2d].
      rewrite !np_dot_err by (simpl; lia). done.
Qed.

(** X6. With [ek ek† = I], taking an operator of the system's dimension
    into the eigenbasis and back gives the operator again. *)
Theorem eigenbasis_round_trip_back (h : Hamiltonian) n m op :
  has_shape n n (ek h) ->
  dot (ek h) (dag (ek h)) = identity n ->
  has_shape n m op ->
  (X <- to_eigenbasis h (Nd2 op) ;; from_eigenbasis h (Nd2 X)) = Ok op.
Proof.
  intros Hek Hu Hop.
  pose proof Hek as (Hr & Hc & _). pose proof Hop as (HrA & HcA & _).
  destruct (decide (nrows op = ncols op)) as [Hsq|Hne].
  - rewrite to_eigenbasis_matrix by lia. simpl.
    rewrite from_eigenbasis_matrix by (simpl; lia). f_equal.
    rewrite (dot_assoc (dag (ek h))) by (simpl; lia).
    rewrite (dot_assoc op) by (simpl; lia).
    rewrite Hu.
    rewrite (dot_identity_r n n op) by (split; [|split]; [lia..|apply Hop]).
    rewrite <- dot_assoc by (simpl; lia). rewrite Hu.
    by apply (dot_identity_l n m).
  - rewrite to_eigenbasis_vector by lia. simpl.
    rewrite from_eigenbasis_vector by (simpl; lia). f_equal.
    rewrite <- dot_assoc by (simpl; lia). rewrite Hu.
    by apply (dot_identity_l n m).
Qed.

Lemma diagonal_sum_dot A B :
  ncols A = nrows B -> ncols B = nrows A ->
  diagonal_sum (dot A B) = diagonal_sum (dot B A).
Proof.
  intros HAB HBA. unfold diagonal_sum. simpl.
  rewrite HAB, HBA, !Nat.min_id.
  rewrite (csum_ext (nrows A) _
    (fun i => csum (nrows B) (fun k => entry A i k * entry B k i))%C).
  2:{ intros i Hi. rewrite entry_dot by lia. by rewrite HAB. }
  rewrite (csum_ext (nrows B) _
    (fun k => csum (nrows A) (fun i => entry A i k * entry B k i))%C).
  2:{ intros k Hk. rewrite entry_dot by lia. rewrite HBA.
      apply csum_ext. intros i Hi. ring. }
  apply csum_swap.
Qed.

(** X7. With [ek ek† = I] the norm is the same in the eigenbasis:
    [norm(to_eigenbasis(op)) = norm(op)], for a vector and for a square
    matrix (the trace). *)
Theorem norm_to_eigenbasis (h : Hamiltonian) n m op :
  conj_ok ->
  has_shape n n (ek h) ->
  dot (ek h) (dag (ek h)) = identity n ->
  has_shape n m op ->
  (X <- to_eigenbasis h (Nd2 op) ;; norm (Nd2 X)) = norm (Nd2 op).
Proof.
  intros Hconj Hek Hu Hop.
  pose proof Hek as (Hr & Hc & _). pose proof Hop as (HrA & HcA & _).
  destruct (decide (nrows op = ncols op)) as [Hsq|Hne].
  - rewrite to_eigenbasis_matrix by lia. cbn [rbind].
    unfold norm. rewrite !is_vector_2d, !is_matrix_2d. simpl.
    rewrite !bool_decide_eq_true_2 by lia. simpl. do 3 f_equal.
    rewrite diagonal_sum_dot by (simpl; lia).
    rewrite dot_assoc by (simpl; lia). rewrite Hu.
    by rewrite (dot_identity_r n n op) by (split; [|split]; [lia..|apply Hop]).
  - rewrite to_eigenbasis_vector by lia. cbn [rbind].
    unfold norm. rewrite !is_vector_2d. simpl.
    rewrite !bool_decide_eq_false_2 by lia. simpl.
    rewrite !np_dot_ok by (simpl; lia). cbn [rbind].
    rewrite dag_of_dot by (done || simpl; lia).
    rewrite (dag_dag n n) by done.
    rewrite dot_assoc by (simpl; lia).
    rewrite <- (dot_assoc (ek h)) by (simpl; lia). rewrite Hu.
    by rewrite (dot_identity_l n m op) by done.
Qed.

(** ** The Hamiltonian *)



Lemma csum_scaled_delta_l n i e (f : nat -> C) :
  i < n ->
  csum n (fun k => (if decide (i = k) then e else 0) * f k)%C = (e * f i)%C.
Proof.
  intros Hi. rewrite <- (csum_delta_l n i (fun k => e * f k)%C Hi).
  apply csum_ext. intros k Hk. case_decide; ring.
Qed.

Lemma csum_scaled_delta_r n j e (f : nat -> C) :
  j < n ->
  csum n (fun k => f k * (if decide (k = j) then e else 0))%C = (f j * e)%C.
Proof.
  intros Hj. rewrite <- (csum_delta_r n j (fun k => f k * e)%C Hj).
  apply csum_ext. intros k Hk. case_decide; ring.
Qed.

(** X9. In the eigenbasis the commutator with the Hamiltonian weights
    every entry by the difference of the two eigenvalues:
    [commutator(op)[i,j] = (ev[i] - ev[j])·op[i,j]]; its diagonal is
    zero. *)
Theorem Hamiltonian_commutator_entries (h : Hamiltonian) n op :
  length (ev h) = n -> dims n n op ->
  exists X,
    Hamiltonian_commutator h op true = Ok X /\
    X = mk n n (fun i j =>
          (nth i (ev h) 0 - nth j (ev h) 0) * entry op i j)%C /\
    forall i, i < n -> entry X i i = 0%C.
Proof.
  intros Hev [Hr Hc].
  rewrite (Hamiltonian_commutator_eig h n) by done.
  assert (HX : comm n (np_diag (ev h)) op
               = mk n n (fun i j =>
                   (nth i (ev h) 0 - nth j (ev h) 0) * entry op i j)%C).
  { unfold comm, msub. apply mk_ext. intros i j Hi Hj.
    rewrite !entry_dot by (simpl; lia). simpl. rewrite Hev, Hc.
    rewrite (csum_ext n _
      (fun k => (if decide (i = k) then nth i (ev h) 0 else 0)
                * entry op k j)%C).
    2:{ intros k Hk. unfold np_diag. by rewrite entry_mk by lia. }
    rewrite csum_scaled_delta_l by done.
    rewrite (csum_ext n _
      (fun k => entry op i k
                * (if decide (k = j) then nth j (ev h) 0 else 0))%C).
    2:{ intros k Hk. unfold np_diag. rewrite entry_mk by lia.
        case_decide; [by subst|done]. }
    rewrite csum_scaled_delta_r by done. ring. }
  eexists. split; [done|]. split; [done|].
  intros i Hi. rewrite HX, entry_mk by done. ring.
Qed.

Lemma csum_sub n f g :
  csum n (fun k => f k - g k)%C = (csum n f - csum n g)%C.
Proof. induction n as [|n IH]; simpl; [ring|]. rewrite IH. ring. Qed.

Lemma dot_msub_l n X Y Z :
  dims n n X -> dims n n Y -> dims n n Z ->
  dot (msub n X Y) Z = msub n (dot X Z) (dot Y Z).
Proof.
  intros [HrX HcX] [HrY HcY] [HrZ HcZ]. unfold dot at 1, msub at 2. simpl.
  rewrite HcZ. apply mk_ext. intros i j Hi Hj.
  rewrite !entry_dot by lia. rewrite HcX, HcY, <- csum_sub.
  apply csum_ext. intros k Hk. unfold msub. rewrite entry_mk by done. ring.
Qed.

Lemma dot_msub_r n X Y Z :
  dims n n X -> dims n n Y -> dims n n Z ->
  dot Z (msub n X Y) = msub n (dot Z X) (dot Z Y).
Proof.
  intros [HrX HcX] [HrY HcY] [HrZ HcZ]. unfold dot at 1, msub at 2. simpl.
  rewrite HrZ. apply mk_ext. intros i j Hi Hj.
  rewrite !entry_dot by lia. rewrite HcZ, <- csum_sub.
  apply csum_ext. intros k Hk. unfold msub. rewrite entry_mk by done. ring.
Qed.

(** X10. The two branches of [Hamiltonian.commutator] agree up to the
    change of basis: when [ek† H ek] is the diagonal matrix of the
    eigenvalues and [ek ek† = I], the commutator with [H] taken to the
    eigenbasis is the eigenbasis commutator of the transformed operator. *)
Theorem Hamiltonian_commutator_bases (h : Hamiltonian) n op :
  has_shape n n (ek h) -> dims n n (ham h) -> length (ev h) = n ->
  dot (dag (ek h)) (dot (ham h) (ek h)) = np_diag (ev h) ->
  dot (ek h) (dag (ek h)) = identity n ->
  dims n n op ->
  (X <- Hamiltonian_commutator h op false ;; to_eigenbasis h (Nd2 X))
  = (Y <- to_eigenbasis h (Nd2 op) ;; Hamiltonian_commutator h Y true).
Proof.
  intros Hek HH Hev Hdiag Hu Hop.
  pose proof Hek as (Hr & Hc & _).
  pose proof HH as [HrH HcH]. pose proof Hop as [HrO HcO].
  unfold Hamiltonian_commutator at 1.
  fold (commutator (ham h) op). rewrite (commutator_square n) by done.
  cbn [rbind]. rewrite to_eigenbasis_matrix by (simpl; lia).
  rewrite to_eigenbasis_matrix by lia. cbn [rbind].
  rewrite (Hamiltonian_commutator_eig h n) by (done || split; simpl; lia).
  f_equal. unfold comm.
  rewrite (dot_msub_l n) by (split; simpl; lia).
  rewrite (dot_msub_r n) by (split; simpl; lia).
  rewrite <- Hdiag.
  assert (Hins : forall A B, dims n n A -> dims n n B ->
            dot (dot (dag (ek h)) (dot A (ek h)))
                (dot (dag (ek h)) (dot B (ek h)))
            = dot (dag (ek h)) (dot (dot A B) (ek h))).
  { intros A B [HrA HcA] [HrB HcB].
    rewrite (dot_assoc (dag (ek h))) by (simpl; lia).
    rewrite (dot_assoc A (ek h)) by (simpl; lia).
    rewrite <- (dot_assoc (ek h) (dag (ek h))) by (simpl; lia).
    rewrite Hu.
    rewrite (dot_identity_l n n (dot B (ek h))).
    2:{ rewrite <- HrB at 1. rewrite <- Hc. apply has_shape_dot. }
    by rewrite <- (dot_assoc A B) by (simpl; lia). }
  by rewrite !Hins by done.
Qed.

(** ** Liouville space *)

Lemma nth_concat_uniform {A} (ls : list (list A)) c i j d :
  Forall (fun l => length l = c) ls -> i < length ls -> j < c ->
  nth (i * c + j) (concat ls) d = nth j (nth i ls []) d.
Proof.
  revert i. induction ls as [|l ls IH]; intros i Hu Hi Hj; simpl in Hi; [lia|].
  apply Forall_cons in Hu as [Hl Hu]. destruct i as [|i]; simpl.
  - apply app_nth1. lia.
  - rewrite app_nth2 by lia.
    replace (c + i * c + j - length l) with (i * c + j) by lia.
    apply IH; [done|lia|done].
Qed.

Lemma length_concat_uniform {A} (ls : list (list A)) c :
  Forall (fun l => length l = c) ls -> length (concat ls) = length ls * c.
Proof.
  induction ls as [|l ls IH]; intros Hu; simpl; [done|].
  apply Forall_cons in Hu as [Hl Hu]. rewrite length_app, IH by done. lia.
Qed.

Lemma tab_uniform r c f : Forall (fun l => length l = c) (tab r c f).
Proof.
  unfold tab. apply Forall_forall. intros l Hl.
  apply list_elem_of_In, in_map_iff in Hl as (i & <- & _).
  by rewrite length_map, length_seq.
Qed.

Lemma length_tab r c f : length (tab r c f) = r.
Proof. unfold tab. by rewrite length_map, length_seq. Qed.

Lemma length_flatten r c A : has_shape r c A -> length (flatten A) = r * c.
Proof.
  intros (Hr & Hc & Hwf). unfold flatten.
  assert (Hrows : rows A = tab r c (entry A)).
  { change (rows A = rows (mk r c (entry A))). f_equal.
    unfold wf in Hwf. by rewrite Hr, Hc in Hwf. }
  rewrite Hrows, (length_concat_uniform _ c) by apply tab_uniform.
  by rewrite length_tab.
Qed.

Lemma nth_flatten r c A i j :
  has_shape r c A -> i < r -> j < c ->
  nth (i * c + j) (flatten A) 0%C = entry A i j.
Proof.
  intros (Hr & Hc & Hwf) Hi Hj. unfold flatten, entry.
  assert (Hrows : rows A = tab r c (entry A)).
  { change (rows A = rows (mk r c (entry A))). f_equal.
    unfold wf in Hwf. by rewrite Hr, Hc in Hwf. }
  apply nth_concat_uniform; [|by rewrite Hrows, length_tab|done].
  rewrite Hrows. apply tab_uniform.
Qed.

(** X11. Flattening a square array and reshaping it gives the array again:
    [from_liouville(to_liouville(rho)) = rho], with the size given or
    recovered from the length. *)
Theorem liouville_round_trip n rho :
  has_shape n n rho ->
  to_liouville (Nd2 rho) = Ok (Nd1 (flatten rho)) /\
  length (flatten rho) = n * n /\
  from_liouville (flatten rho) None = Ok rho /\
  from_liouville (flatten rho) (Some n) = Ok rho.
Proof.
  intros Hrho. split; [done|].
  pose proof (length_flatten n n rho Hrho) as Hlen. split; [done|].
  assert (Hre : reshape (flatten rho) n n = Ok rho).
  { unfold reshape. rewrite decide_True by done. f_equal. symmetry.
    apply (has_shape_eq n n); [done|]. intros i j Hi Hj.
    symmetry. by apply (nth_flatten n n). }
  split; [|done]. unfold from_liouville.
  by rewrite Hlen, Nat.sqrt_square.
Qed.

Lemma flatten_reshape r c v :
  r * c = length v ->
  flatten (mk r c (fun i j => nth (i * c + j) v 0%C)) = v.
Proof.
  intros Hlen.
  set (A := mk r c (fun i j => nth (i * c + j) v 0%C)).
  assert (HA : has_shape r c A) by apply has_shape_mk.
  apply (nth_ext _ _ 0%C 0%C).
  { rewrite (length_flatten r c) by done. done. }
  intros k Hk. rewrite (length_flatten r c) in Hk by done.
  assert (Hc : 0 < c) by (destruct c; lia).
  pose proof (Nat.div_mod_eq k c) as Hdm.
  pose proof (Nat.mod_upper_bound k c ltac:(lia)) as Hm.
  assert (Hq : k / c < r).
  { apply Nat.Div0.div_lt_upper_bound. lia. }
  replace k with (k / c * c + k mod c) at 1 by lia.
  rewrite (nth_flatten r c) by done. unfold A. rewrite entry_mk by done.
  f_equal. lia.
Qed.

(** X12. Reshaping needs a vector of [ns·ns] entries: [from_liouville]
    raises [ValueError] otherwise (without [ns], when the length is not a
    perfect square); when it returns, flattening its result gives the
    vector back. *)
Theorem from_liouville_outcome rho_vec ns :
  let n := match ns with
           | Some n => n
           | None => Nat.sqrt (length rho_vec)
           end in
  (n * n = length rho_vec ->
   exists rho, from_liouville rho_vec ns = Ok rho /\ has_shape n n rho /\
               to_liouville (Nd2 rho) = Ok (Nd1 rho_vec)) /\
  (n * n <> length rho_vec -> from_liouville rho_vec ns = Raise ValueError).
Proof.
  intros n. unfold from_liouville. fold n. unfold reshape. split.
  - intros Hlen. rewrite decide_True by done. eexists. split; [done|].
    split; [apply has_shape_mk|].
    unfold to_liouville. simpl. by rewrite flatten_reshape.
  - intros Hlen. by rewrite decide_False.
Qed.

(** X13. [to_liouville] on an operand that is not 2-d takes the tensor
    branch: a 0-d array fails on [shape[0]] and a non-empty 1-d array on
    its four indices, both with [IndexError]. *)
Theorem to_liouville_low_dim op :
  length (shape op) < 2 -> op <> Nd1 [] ->
  to_liouville op = Raise IndexError.
Proof.
  destruct op as [x|v|A]; simpl; intros Hlen Hne; [done| |lia].
  unfold to_liouville. simpl. destruct v; [done|]. done.
Qed.

(** ** [solve]: the time grid *)

Lemma solve_seed_short rho0 times options results w :
  length times < 2 ->
  solve_seed rho0 times options results w = (Raise IndexError, w).
Proof.
  intros Hlen. destruct times as [|t0 [|t1 ts]]; simpl in Hlen; try lia; done.
Qed.

Lemma solve_seed_two_times rho0 times options results w ws :
  solve_seed rho0 times options results w = (Ok tt, ws) ->
  exists t0 t1 ts, times = t0 :: t1 :: ts.
Proof.
  intros Hs. destruct times as [|t0 [|t1 ts]]; [done..|]. by eexists _, _, _.
Qed.

(** X14. [solve] reads [times[1]] before anything else: on a grid of fewer
    than two points it raises [IndexError] and leaves the engine, the
    arrays and the output as they were. *)
Theorem solve_needs_two_times hbar rho0 times options results w :
  length times < 2 ->
  solve hbar rho0 times options results w = (Raise IndexError, w).
Proof.
  intros Hlen. rewrite solve_unfold.
  by rewrite solve_seed_short.
Qed.

(** ** [solve]: what is never assigned *)

Lemma engine_fixed_refl w : engine_fixed w w.
Proof. done. Qed.

Lemma engine_fixed_trans w1 w2 w3 :
  engine_fixed w1 w2 -> engine_fixed w2 w3 -> engine_fixed w1 w3.
Proof. intros (? & ? & ?) (? & ? & ?). repeat split; congruence. Qed.

Lemma framed_modify_fixed f :
  (forall s, rf_ham (f s) = rf_ham s /\ rf_time_dep (f s) = rf_time_dep s /\
             rf_is_secular (f s) = rf_is_secular s) ->
  framed engine_fixed (modify_self f).
Proof. intros H w. apply H. Qed.

Lemma framed_self_fixed {A} (m : M A) :
  (forall w, self (m w).2 = self w) -> framed engine_fixed m.
Proof. intros H w. unfold engine_fixed. by rewrite H. Qed.

Lemma update_ops_fixed s time s' :
  update_ops s time = Ok s' ->
  rf_ham s' = rf_ham s /\ rf_time_dep s' = rf_time_dep s /\
  rf_is_secular s' = rf_is_secular s.
Proof.
  unfold update_ops. destruct (dress _ _ _ _); simpl; [|done].
  match goal with |- context [rbind ?x _] => destruct x end; simpl; [|done].
  by intros [= <-].
Qed.

Ltac fixed_step :=
  first
    [ apply (framed_get_self _ engine_fixed_refl)
    | apply (framed_lift _ engine_fixed_refl)
    | apply (framed_mret _ engine_fixed_refl)
    | apply (framed_mraise _ engine_fixed_refl)
    | apply (framed_load _ engine_fixed_refl)
    | apply framed_modify_fixed; by intros ?
    | apply framed_self_fixed; by intros ?
    | apply (framed_bind _ engine_fixed_trans); [|intros ?]
    | case_match ].

Lemma setup_fixed options results : framed engine_fixed (setup options results).
Proof. unfold setup. repeat fixed_step. Qed.

Lemma solve_seed_fixed rho0 times options results :
  framed engine_fixed (solve_seed rho0 times options results).
Proof.
  unfold solve_seed, solve_init, set_y_value.
  repeat first [ apply setup_fixed | fixed_step ].
Qed.

Lemma solve_step_fixed hbar it : framed engine_fixed (solve_step hbar it).
Proof.
  unfold solve_step, integrate. destruct it as [i time].
  repeat first
    [ apply (framed_call_self _ engine_fixed_refl); intros w s' Hs';
      by apply update_ops_fixed in Hs'
    | fixed_step ].
Qed.

(** X15. Whether it returns or raises, [solve] leaves [self.ham],
    [self.time_dep] and [self.is_secular] as the constructor set them. *)
Theorem solve_keeps_hamiltonian hbar rho0 times options results :
  framed engine_fixed (solve hbar rho0 times options results).
Proof.
  unfold solve.
  repeat first
    [ apply solve_seed_fixed
    | apply (framed_mfor _ engine_fixed_refl engine_fixed_trans);
      intros ?; apply solve_step_fixed
    | fixed_step ].
Qed.

(** ** [solve]: the stride *)

(** X16. With a stride [every = 0], [solve] never returns; in the
    time-independent mode the first iteration raises [ZeroDivisionError]
    with nothing sampled, printed or integrated since the seeding. *)
Theorem solve_zero_stride hbar rho0 times options results w :
  every (default default_results results) = 0%Z ->
  (forall res w', solve hbar rho0 times options results w <> (Ok res, w')) /\
  (forall ws, rf_time_dep (self w) = false ->
     solve_seed rho0 times options results w = (Ok tt, ws) ->
     solve hbar rho0 times options results w = (Raise ZeroDivisionError, ws)).
Proof.
  intros Hev. split.
  - intros res w' Hsolve. rewrite solve_unfold in Hsolve.
    destruct (solve_seed rho0 times options results w) as [[[]|e] ws] eqn:Hs;
      [|done].
    destruct (solve_seed_two_times _ _ _ _ _ _ Hs) as (t0 & t1 & ts & ->).
    destruct (solve_seed_results _ _ _ _ _ _ Hs) as [Hk _].
    rewrite Hev in Hk.
    change (enumerate (t0 :: t1 :: ts))
      with ((0, t0) :: zip (seq 1 (length (t1 :: ts))) (t1 :: ts)) in Hsolve.
    cbn [mfor] in Hsolve. unfold mbind at 1 in Hsolve.
    destruct (solve_step hbar (0, t0) ws) as [[[]|e] w1] eqn:Hstep; [|done].
    destruct (solve_step_sample _ _ _ _ _ _ Hstep Hk) as (_ & _ & _ & Hne & _).
    done.
  - intros ws Htd Hs. rewrite solve_unfold, Hs.
    destruct (solve_seed_two_times _ _ _ _ _ _ Hs) as (t0 & t1 & ts & ->).
    destruct (solve_seed_results _ _ _ _ _ _ Hs) as [Hk _].
    rewrite Hev in Hk.
    pose proof (solve_seed_fixed rho0 (t0 :: t1 :: ts) options results w)
      as (_ & Htd' & _).
    rewrite Hs in Htd'. simpl in Htd'. rewrite Htd in Htd'.
    change (enumerate (t0 :: t1 :: ts))
      with ((0, t0) :: zip (seq 1 (length (t1 :: ts))) (t1 :: ts)).
    cbn [mfor]. unfold mbind at 1.
    assert (Hstep : solve_step hbar (0, t0) ws = (Raise ZeroDivisionError, ws)).
    { unfold solve_step, mbind, get_self, mret, lift, py_mod.
      rewrite Htd', Hk. done. }
    by rewrite Hstep.
Qed.

(** ** [setup]: its errors *)

(** X17. Asking for the mapped operators ([results.map_ops]) on an engine
    whose Hamiltonian is not the multidimensional one fails the assertion
    of [setup]: [solve] raises [AssertionError] with the step size, the
    options and the results stored and nothing else done. *)
Theorem solve_map_ops_assertion hbar rho0 t0 t1 ts options r w :
  is_md (rf_ham (self w)) = false -> map_ops r = true ->
  (forall o, options = Some o -> is_exact o = false) ->
  solve hbar rho0 (t0 :: t1 :: ts) options (Some r) w
  = (Raise AssertionError,
     {| heap := heap w;
        self := with_results r
                  (with_options (default default_options options)
                     (with_dt (t1 - t0)%C (self w)));
        stdout := stdout w |}).
Proof.
  intros Hmd Hmap Hex. rewrite solve_unfold.
  unfold solve_seed, solve_init, setup.
  unfold mbind, modify_self, get_self, lift, mret, mraise.
  change (py_index (t0 :: t1 :: ts) 1) with (Ok t1).
  change (py_index (t0 :: t1 :: ts) 0) with (Ok t0).
  cbv beta iota. destruct options as [o|]; simpl.
  - rewrite (Hex o eq_refl). simpl. rewrite Hmap. simpl. by rewrite Hmd.
  - rewrite Hmap. simpl. by rewrite Hmd.
Qed.

(** X18. An engine over a Hamiltonian without baths ([baths=None], so that
    [nbaths] was never assigned) cannot be set up: the time-independent
    mode fails on iterating over [None] with [TypeError], the
    time-dependent mode on reading [nbaths] with [AttributeError]. *)
Theorem solve_without_baths hbar rho0 t0 t1 ts options results w tbl :
  baths (rf_ham (self w)) = None -> nbaths (rf_ham (self w)) = None ->
  is_exact (default default_options options) = false ->
  rk_method (default default_options options) = Ok tbl ->
  (forall r, results = Some r -> map_ops r = false) ->
  (solve hbar rho0 (t0 :: t1 :: ts) options results w).1
  = Raise (if rf_time_dep (self w) then AttributeError else TypeError).
Proof.
  intros Hb Hnb Hex Htbl Hmap. rewrite solve_unfold.
  unfold solve_seed, solve_init, setup, Integrator_init.
  unfold mbind, modify_self, get_self, lift, mret, mraise.
  change (py_index (t0 :: t1 :: ts) 1) with (Ok t1).
  change (py_index (t0 :: t1 :: ts) 0) with (Ok t0).
  cbv beta iota. destruct tbl as [ord bs].
  unfold coupling_operators_setup, make_redfield_operators, the_baths,
    the_nbaths.
  destruct options as [o|], results as [r|]; simpl in *;
    repeat first
      [ rewrite Hex | rewrite (Hmap _ eq_refl) | rewrite Htbl
      | rewrite Hb | rewrite Hnb | progress simpl ];
    destruct (rf_time_dep (self w)); simpl; by rewrite ?Hb, ?Hnb.
Qed.

(** ** [solve]: what is printed *)

Lemma alloc_self v w l w' :
  alloc v w = (Ok l, w') -> self w' = self w /\ stdout w' = stdout w.
Proof. unfold alloc. by intros [= <- <-]. Qed.

Lemma setup_output options results w w1 :
  setup options results w = (Ok tt, w1) ->
  stdout w1 = stdout w /\
  rf_options (self w1) = default default_options options.
Proof.
  intros E. unfold setup in E.
  apply mbind_ok_inv in E as ([] & wa & Ea & E).
  assert (Ha : stdout wa = stdout w /\
               rf_options (self wa) = default default_options options).
  { destruct options as [o|]; simpl; [|by injection Ea as <-].
    apply mbind_ok_inv in Ea as ([] & w0 & E0 & Ea). injection E0 as <-.
    destruct (is_exact o); [done|]. by injection Ea as <-. }
  apply mbind_ok_inv in E as ([] & wb & Eb & E).
  assert (Hb : stdout wb = stdout wa /\
               rf_options (self wb) = rf_options (self wa)).
  { destruct results as [r|]; simpl; [|by injection Eb as <-].
    apply mbind_ok_inv in Eb as ([] & w0 & E0 & Eb). injection E0 as <-.
    destruct (map_ops r); [|by injection Eb as <-].
    apply mbind_ok_inv in Eb as (s & w0 & E0 & Eb). injection E0 as <- <-.
    destruct (is_md _); [|done]. by injection Eb as <-. }
  destruct Ha as [Ha1 Ha2], Hb as [Hb1 Hb2].
  rewrite <- Ha1, <- Ha2, <- Hb1, <- Hb2.
  apply mbind_ok_inv in E as (s & w0 & E0 & E). injection E0 as <- <-.
  apply mbind_ok_inv in E as (ode & w0 & E0 & E).
  unfold lift in E0. injection E0 as _ <-.
  apply mbind_ok_inv in E as ([] & wc & E0 & E). injection E0 as <-.
  apply mbind_ok_inv in E as (s & w0 & E0 & E). injection E0 as <- <-.
  simpl in E. destruct (negb _).
  - destruct (rf_time_dep (self wb)).
    + apply mbind_ok_inv in E as (r & w0 & E0 & E).
      unfold lift in E0. injection E0 as _ <-. by injection E as <-.
    + apply mbind_ok_inv in E as (r & w0 & E0 & E).
      unfold lift in E0. injection E0 as _ <-. by injection E as <-.
  - by injection E as <-.
Qed.

Lemma solve_seed_output rho0 times options results w ws :
  solve_seed rho0 times options results w = (Ok tt, ws) ->
  stdout ws = stdout w /\
  rf_options (self ws) = default default_options options.
Proof.
  unfold solve_seed, solve_init. intros E.
  apply mbind_ok_inv in E as (rho_v & w1 & Ei & E).
  apply mbind_ok_inv in Ei as (t1 & w0 & E0 & Ei).
  unfold lift in E0. injection E0 as _ <-.
  apply mbind_ok_inv in Ei as (t0 & w0 & E0 & Ei).
  unfold lift in E0. injection E0 as _ <-.
  apply mbind_ok_inv in Ei as ([] & w0 & E0 & Ei). injection E0 as <-.
  apply mbind_ok_inv in Ei as ([] & w2 & Es & Ei).
  apply setup_output in Es as [Hout2 Hopt2]. simpl in Hout2.
  apply mbind_ok_inv in Ei as (v & w0 & E0 & Ei).
  unfold load in E0. destruct (heap w2 !! rho0); [|done].
  injection E0 as _ <-.
  apply mbind_ok_inv in Ei as (cp & w3 & E0 & Ei).
  apply alloc_self in E0 as [Hself3 Hout3].
  apply mbind_ok_inv in Ei as (v' & w0 & E0 & Ei).
  unfold load in E0. destruct (heap w3 !! cp); [|done].
  injection E0 as _ <-.
  apply mbind_ok_inv in Ei as (s & w0 & E0 & Ei). injection E0 as <- <-.
  unfold lift in Ei. injection Ei as _ <-.
  apply mbind_ok_inv in E as (rho & w4 & E0 & E).
  apply alloc_self in E0 as [Hself4 Hout4].
  apply mbind_ok_inv in E as (s & w0 & E0 & E). injection E0 as <- <-.
  destruct (is_exact _); [done|].
  apply mbind_ok_inv in E as (t0' & w0 & E0 & E).
  unfold lift in E0. injection E0 as _ <-.
  injection E as <-. simpl. rewrite Hself4, Hself3, Hout4, Hout3. done.
Qed.

(** One iteration prints the index exactly when it records a sample, and
    only when [options.progress] is set. *)
Lemma solve_step_output hbar i t w w2 :
  solve_step hbar (i, t) w = (Ok tt, w2) ->
  rf_options (self w2) = rf_options (self w) /\
  exists smp,
    analyzed (rf_results (self w2)) = analyzed (rf_results (self w)) ++ smp /\
    stdout w2
    = stdout w ++ (if progress (rf_options (self w))
                   then sample_indices smp else []).
Proof.
  intros H. unfold solve_step in H.
  apply mbind_ok_inv in H as (s0 & w0 & Hget & H).
  injection Hget as <- <-.
  apply mbind_ok_inv in H as ([] & w1 & Hupd & H).
  assert (Hw1 : stdout w1 = stdout w /\
                rf_options (self w1) = rf_options (self w) /\
                rf_results (self w1) = rf_results (self w)).
  { destruct (rf_time_dep (self w)).
    - unfold call_self in Hupd.
      destruct (update_ops (self w) t) as [s'|] eqn:Hl; [|done].
      injection Hupd as <-. simpl.
      apply update_ops_frame in Hl as (? & ? & ? & ? & _). done.
    - by injection Hupd as <-. }
  destruct Hw1 as (Hout & Hopt & Hres).
  apply mbind_ok_inv in H as (s1 & w0 & Hget & H).
  injection Hget as <- <-.
  apply mbind_ok_inv in H as (m & w0 & Hmod & H).
  unfold lift in Hmod. injection Hmod as Hmod <-.
  apply mbind_ok_inv in H as ([] & w3 & Hsamp & Hint).
  destruct (integrate_frame _ _ _ _ Hint) as (_ & Hr2 & Ho2 & _ & _ & Hs2 & _).
  rewrite Hr2, Ho2, Hs2.
  destruct (decide (m = 0%Z)) as [Hm|Hm].
  - apply mbind_ok_inv in Hsamp as ([] & w4 & Hpr & Hsamp).
    assert (Hw4 : self w4 = self w1 /\
                  stdout w4 = stdout w1 ++
                    (if progress (rf_options (self w1))
                     then [Z.of_nat i] else [])).
    { destruct (progress _); injection Hpr as <-; simpl; [done|].
      by rewrite app_nil_r. }
    destruct Hw4 as [Hself4 Hout4].
    destruct (y (rf_ode (self w1))) as [l|]; [|done].
    apply mbind_ok_inv in Hsamp as (v & w5 & Hload & Hsamp).
    unfold load in Hload. destruct (heap w4 !! l); [|done].
    injection Hload as _ <-.
    apply mbind_ok_inv in Hsamp as (X & w5 & Hfrom & Hsamp).
    unfold lift in Hfrom. injection Hfrom as _ <-.
    apply mbind_ok_inv in Hsamp as (st & w5 & Hal & Hsamp).
    apply alloc_self in Hal as [Hself5 Hout5].
    injection Hsamp as <-. simpl.
    rewrite Hself5, Hself4, Hout5, Hout4, Hout, Hopt, Hres.
    split; [done|]. exists [(Z.of_nat i, t, X)]. split; [done|].
    by destruct (progress _).
  - injection Hsamp as <-. rewrite Hout, Hopt, Hres.
    split; [done|]. exists []. rewrite app_nil_r.
    split; [done|]. destruct (progress _); simpl; by rewrite app_nil_r.
Qed.

Lemma loop_output hbar xs w w' :
  mfor (solve_step hbar) xs w = (Ok tt, w') ->
  rf_options (self w') = rf_options (self w) /\
  exists smp,
    analyzed (rf_results (self w')) = analyzed (rf_results (self w)) ++ smp /\
    stdout w'
    = stdout w ++ (if progress (rf_options (self w))
                   then sample_indices smp else []).
Proof.
  revert w. induction xs as [|[i t] xs IH]; intros w Hrun.
  - injection Hrun as <-. split; [done|]. exists [].
    rewrite app_nil_r. split; [done|].
    destruct (progress _); simpl; by rewrite app_nil_r.
  - cbn [mfor] in Hrun. unfold mbind at 1 in Hrun.
    destruct (solve_step hbar (i, t) w) as [[[]|e] w1] eqn:Hstep; [|done].
    apply solve_step_output in Hstep as (Ho1 & smp1 & Ha1 & Hs1).
    apply IH in Hrun as (Ho2 & smp2 & Ha2 & Hs2).
    split; [congruence|]. exists (smp1 ++ smp2).
    rewrite Ha2, Ha1, Hs2, Hs1, Ho1, <- !app_assoc.
    split; [done|]. f_equal. unfold sample_indices.
    destruct (progress _); [by rewrite fmap_app|done].
Qed.

(** X19. When [solve] returns, what it printed is exactly the list of the
    indices of the samples it recorded, in order, if [options.progress] is
    set, and nothing otherwise. *)
Theorem solve_progress_output hbar rho0 times options results w res w' :
  solve hbar rho0 times options results w = (Ok res, w') ->
  exists samples,
    analyzed res = analyzed (default default_results results) ++ samples /\
    stdout w'
    = stdout w ++ (if progress (default default_options options)
                   then sample_indices samples else []).
Proof.
  intros Hsolve. rewrite solve_unfold in Hsolve.
  destruct (solve_seed rho0 times options results w) as [[[]|e] ws] eqn:Hs;
    [|done].
  destruct (mfor (solve_step hbar) (enumerate times) ws) as [[[]|e] w2] eqn:Hl;
    [|done].
  injection Hsolve as <- <-.
  destruct (solve_seed_results _ _ _ _ _ _ Hs) as [_ Han].
  destruct (solve_seed_output _ _ _ _ _ _ Hs) as [Hout Hopt].
  apply loop_output in Hl as (_ & smp & Ha & Hst).
  exists smp. by rewrite Ha, Hst, Han, Hout, Hopt.
Qed.

(** ** The equation of motion conserves the trace *)

Lemma diagonal_sum_mk n f : diagonal_sum (mk n n f) = csum n (fun i => f i i).
Proof.
  unfold diagonal_sum. simpl. rewrite Nat.min_id.
  apply csum_ext. intros i Hi. by rewrite entry_mk.
Qed.

Lemma diagonal_sum_entries n A :
  dims n n A -> diagonal_sum A = csum n (fun i => entry A i i).
Proof. intros [Hr Hc]. unfold diagonal_sum. by rewrite Hr, Hc, Nat.min_id. Qed.

Lemma diagonal_sum_comm n A B :
  dims n n A -> dims n n B -> diagonal_sum (comm n A B) = 0%C.
Proof.
  intros [HrA HcA] [HrB HcB]. unfold comm, msub.
  rewrite diagonal_sum_mk, csum_sub.
  rewrite <- !(diagonal_sum_entries n) by (split; simpl; lia).
  rewrite (diagonal_sum_dot A B) by lia. ring.
Qed.

Lemma diagonal_sum_madd n A B :
  diagonal_sum (madd n A B)
  = (csum n (fun i => entry A i i) + csum n (fun i => entry B i i))%C.
Proof. unfold madd. by rewrite diagonal_sum_mk, csum_add. Qed.

Lemma diagonal_sum_msum n Ms :
  Forall (fun M => dims n n M /\ diagonal_sum M = 0%C) Ms ->
  diagonal_sum (msum n Ms) = 0%C.
Proof.
  induction Ms as [|M Ms IH]; intros H; simpl.
  - unfold np_zeros. by rewrite diagonal_sum_mk, csum_zero.
  - apply Forall_cons in H as [[HM HM0] H].
    rewrite diagonal_sum_madd.
    rewrite <- !(diagonal_sum_entries n) by (done || apply dims_msum).
    rewrite HM0, IH by done. ring.
Qed.

(** X20. The right-hand side that [eom] returns has zero trace, so the
    equation of motion conserves the trace of the state: every term of it,
    the Hamiltonian one and the two of each bath, is a commutator. *)
Theorem eom_traceless (s : Redfield) hbar state stage n bs Es :
  baths (rf_ham s) = Some bs -> length (ev (rf_ham s)) = n ->
  dims n n state ->
  length (rf_C s) = length bs -> Forall (dims n n) (rf_C s) ->
  length Es = length bs -> Forall (dims n n) Es ->
  (rf_equation_of_motion s = Some Rf_eom /\ rf_E s = E_list Es) \/
  (rf_equation_of_motion s = Some Td_rf_eom /\
   exists l, rf_E s = E_stages l /\
             Forall2 (fun row Ej => py_index row stage = Ok Ej) l Es) ->
  exists dy,
    eom s hbar state stage = Ok dy /\ dims n n dy /\
    diagonal_sum dy = 0%C.
Proof.
  intros Hb Hev Hst HlC HdC HlE HdE Hmode.
  set (K := comm n (np_diag (ev (rf_ham s))) state).
  set (term := fun '(Ck, Ek) =>
         madd n (comm n (dot Ek state) Ck) (comm n Ck (dot state (dag Ek)))).
  assert (Hdy0 : has_shape n n (smul (- ci / hbar)%C K))
    by by apply has_shape_ew_map.
  assert (Hrun : eom s hbar state stage
                 = Ok (madd n (smul (- ci / hbar)%C K)
                         (divs (msum n (map term (zip (rf_C s) Es)))
                               (hbar * hbar)%C))).
  { unfold eom. destruct Hmode as [[-> HE]|[-> (l & HE & Hsel)]].
    - unfold rf_eom.
      rewrite (Hamiltonian_commutator_eig _ n) by done. cbn [rbind].
      unfold the_baths. rewrite Hb. cbn [rbind]. rewrite HE.
      apply (eom_loop (fun j => py_index Es (Z.of_nat j))); try done.
      intros j Ej. apply py_index_nat.
    - unfold td_rf_eom.
      rewrite (Hamiltonian_commutator_eig _ n) by done. cbn [rbind].
      unfold the_baths. rewrite Hb. cbn [rbind]. rewrite HE.
      apply (eom_loop (fun j => row <- py_index l (Z.of_nat j) ;;
                                py_index row stage)); try done.
      intros j Ej HEj.
      destruct (Forall2_lookup_r _ _ _ _ _ Hsel HEj) as (row & Hrow & Hpick).
      rewrite (py_index_nat _ _ _ Hrow). done. }
  eexists. split; [exact Hrun|]. split; [done|].
  assert (HK : diagonal_sum K = 0%C).
  { apply diagonal_sum_comm; [|done]. unfold np_diag. by rewrite Hev. }
  assert (HM : diagonal_sum (msum n (map term (zip (rf_C s) Es))) = 0%C).
  { apply diagonal_sum_msum. apply Forall_forall. intros M HM.
    apply list_elem_of_In, in_map_iff in HM as ([Ck Ek] & <- & Hin).
    apply list_elem_of_In, list_elem_of_lookup in Hin as [j Hj].
    apply lookup_zip_Some in Hj as [HCk HEk].
    rewrite Forall_lookup in HdC. rewrite Forall_lookup in HdE.
    pose proof (HdC _ _ HCk) as [HrC HcC].
    pose proof (HdE _ _ HEk) as [HrE HcE].
    destruct Hst as [Hrs Hcs].
    split; [done|]. simpl. rewrite diagonal_sum_madd.
    rewrite <- !(diagonal_sum_entries n) by done.
    rewrite !diagonal_sum_comm by (split; simpl; lia). ring. }
  rewrite diagonal_sum_madd.
  rewrite (csum_ext n _ (fun i => (- ci / hbar) * entry K i i)%C).
  2:{ intros i Hi. unfold smul. by rewrite entry_ew_map. }
  rewrite (csum_ext n (fun i => entry (divs _ _) i i)
             (fun i => entry (msum n (map term (zip (rf_C s) Es))) i i
                       * cinv (hbar * hbar))%C).
  2:{ intros i Hi. by rewrite (entry_divs n) by (done || apply dims_msum). }
  rewrite csum_mul_l, csum_mul_r.
  rewrite <- !(diagonal_sum_entries n) by (done || apply dims_msum).
  rewrite HK, HM. ring.
Qed.

(** ** The time-dependent engine between two steps *)

Lemma stage_rows_intro n ord nb G :
  length G = nb ->
  (forall i row, G !! i = Some row ->
     length row = ord /\ Forall (dims n n) row) ->
  stage_rows n ord nb G.
Proof. intros Hl H. split; [done|]. apply Forall_lookup. exact H. Qed.

Lemma Forall_map_seq {A} (P : A -> Prop) (f : nat -> A) n :
  (forall k, P (f k)) -> Forall P (map f (seq 0 n)).
Proof.
  intros H. apply Forall_forall. intros x Hx.
  apply list_elem_of_In, in_map_iff in Hx as (k & <- & _). apply H.
Qed.

Lemma update_ops_keeps_ok n bs s time :
  engine_ok n bs s ->
  exists s', update_ops s time = Ok s' /\ engine_ok n bs s'.
Proof.
  intros (Hb & Hnb & Hn & Hom & HlC & HdC & Hgn & Hgn1 & Hord).
  destruct (dress_ok (rf_ham s) (rf_ode s) (rf_C s) (rf_gamma_n s) n
              (length bs)) as (E & HE & _); try done.
  unfold update_ops. rewrite HE. cbn [rbind].
  destruct (cltb time _).
  - destruct (make_tcl2_operators_ok (rf_ham s) (rf_ode s) (rf_dt s) time n
                bs (rf_gamma_n s) (rf_gamma_n_1 s))
      as (gn' & gn1' & Hrun & Hl & Hl1 & Hrows); try done.
    rewrite Hrun. cbn [rbind]. eexists. split; [done|].
    unfold engine_ok. simpl. do 6 (split; [done|]).
    destruct Hgn as [Hlg Hold].
    assert (Hrow : forall i, i < length bs ->
              exists bath old,
                Forall (dims n n) old /\
                gn' !! i
                = Some (map (fun k =>
                     (advance_stage n (rf_ham s) bath (b (rf_ode s))
                        (rf_dt s) time old k).1) (seq 0 (order (rf_ode s)))) /\
                gn1' !! i
                = Some (map (fun k =>
                     (advance_stage n (rf_ham s) bath (b (rf_ode s))
                        (rf_dt s) time old k).2) (seq 0 (order (rf_ode s))))).
    { intros i Hi.
      destruct (lookup_lt_is_Some_2 bs i Hi) as [bath Hbath].
      destruct (lookup_lt_is_Some_2 (rf_gamma_n s) i) as [old Hi']; [lia|].
      rewrite Forall_lookup in Hold. destruct (Hold _ _ Hi') as [_ Hdo].
      exists bath, old. split; [done|]. by apply Hrows. }
    split; [|split; [|done]].
    + apply stage_rows_intro; [done|]. intros i row Hi.
      destruct (Hrow i) as (bath & old & Hdo & Hg & _).
      { apply lookup_lt_Some in Hi. lia. }
      rewrite Hg in Hi. injection Hi as <-.
      split; [by rewrite length_map, length_seq|].
      apply Forall_map_seq. intros k. by apply dims_advance_stage.
    + apply stage_rows_intro; [done|]. intros i row Hi.
      destruct (Hrow i) as (bath & old & Hdo & _ & Hg).
      { apply lookup_lt_Some in Hi. lia. }
      rewrite Hg in Hi. injection Hi as <-.
      split; [by rewrite length_map, length_seq|].
      apply Forall_map_seq. intros k. by apply dims_advance_stage.
  - cbn [rbind]. eexists. split; [done|]. by unfold engine_ok.
Qed.

(** X21. The state of a time-dependent engine between two steps is an
    invariant of [update_ops]: from it, calls at any sequence of times all
    return, none running out of range or meeting a shape mismatch. *)
Theorem update_ops_invariant n bs s times :
  engine_ok n bs s ->
  exists s', rfold update_ops times s = Ok s' /\ engine_ok n bs s'.
Proof.
  revert s. induction times as [|t times IH]; intros s Hok; simpl.
  - by exists s.
  - destruct (update_ops_keeps_ok n bs s t Hok) as (s1 & -> & Hok1).
    cbn [rbind]. by apply IH.
Qed.

(** X22. [setup] of a time-dependent engine establishes that state: with
    square coupling operators of the system's size and a stage table that
    has an abscissa for each stage, it returns, selects [td_rf_eom] and
    leaves one coupling operator and one seeded row of stages per bath. *)
Theorem setup_time_dependent options results w n bs ord abscissae :
  let h := rf_ham (self w) in
  let o := default default_options options in
  rf_time_dep (self w) = true ->
  baths h = Some bs -> nbaths h = Some (length bs) -> nstates h = n ->
  dims n n (ek h) -> dims n n (omegas h) ->
  Forall (fun bath => exists A, c_op bath = Nd2 A /\ dims n n A) bs ->
  is_exact o = false -> rk_method o = Ok (ord, abscissae) ->
  ord <= length abscissae ->
  (forall r, results = Some r -> map_ops r = false) ->
  exists w',
    setup options results w = (Ok tt, w') /\
    engine_ok n bs (self w') /\
    rf_equation_of_motion (self w') = Some Td_rf_eom /\
    order (rf_ode (self w')) = ord /\ b (rf_ode (self w')) = abscissae /\
    rf_options (self w') = o /\
    rf_results (self w') = default default_results results.
Proof.
  intros h o Htd Hb Hnb Hn Hek Hom Hbs Hex Htbl Hord Hmap.
  set (ode := {| order := ord; b := abscissae; ode_dt := rf_dt (self w);
                 y := None; ode_t := 0%C |}).
  destruct (coupling_operators_setup_closed h ode (rf_dt (self w)) bs n)
    as (Cs & Hrun & HCs); try done.
  assert (HdC : length Cs = length bs /\ Forall (dims n n) Cs).
  { split; [symmetry; by eapply Forall2_length|].
    apply Forall_lookup. intros i Ck Hi.
    destruct (Forall2_lookup_r _ _ _ _ _ HCs Hi) as (bath & Hbath & Hto).
    rewrite Forall_lookup in Hbs.
    destruct (Hbs _ _ Hbath) as (A & HA & HrA & HcA). rewrite HA in Hto.
    destruct Hek as [Hrk Hck].
    rewrite to_eigenbasis_matrix in Hto by lia. injection Hto as <-.
    split; simpl; lia. }
  destruct HdC as [HlC HdC].
  assert (Hset : setup options results w
    = (Ok tt,
       {| heap := heap w;
          self := with_operators Cs (rf_E (self w))
                    (map (fun bath =>
                       map (fun k => (seed_stage n h bath abscissae
                                        (rf_dt (self w)) k).1)
                           (seq 0 ord)) bs,
                     map (fun bath =>
                       map (fun k => (seed_stage n h bath abscissae
                                        (rf_dt (self w)) k).2)
                           (seq 0 ord)) bs)
                    Td_rf_eom
                    (with_ode ode
                       (with_results (default default_results results)
                          (with_options o (self w))));
          stdout := stdout w |})).
  { unfold setup, Integrator_init.
    unfold mbind, modify_self, get_self, lift, mret, mraise.
    subst o. destruct options as [o|], results as [r|]; simpl in *;
      repeat first
        [ rewrite Hex | rewrite (Hmap _ eq_refl) | rewrite Htbl
        | rewrite Htd | progress simpl ];
      fold h; fold ode; by rewrite Hrun. }
  eexists. split; [exact Hset|]. simpl.
  split; [|done]. unfold engine_ok. simpl. do 4 (split; [done|]).
  do 2 (split; [done|]).
  split; [|split; [|done]].
  - apply stage_rows_intro; [by rewrite length_map|]. intros i row Hi.
    change (map ?f bs) with (f <$> bs) in Hi.
    rewrite list_lookup_fmap in Hi.
    destruct (bs !! i) as [bath|]; [|done]. injection Hi as <-.
    split; [by rewrite length_map, length_seq|].
    apply Forall_map_seq. intros k. apply dims_seed_stage.
  - apply stage_rows_intro; [by rewrite length_map|]. intros i row Hi.
    change (map ?f bs) with (f <$> bs) in Hi.
    rewrite list_lookup_fmap in Hi.
    destruct (bs !! i) as [bath|]; [|done]. injection Hi as <-.
    split; [by rewrite length_map, length_seq|].
    apply Forall_map_seq. intros k. apply dims_seed_stage.
Qed.

(** ** Hermiticity and the norm *)


(** X24. [norm] of a 2-d array never falls through to [None]: a square
    array gives the real part of its trace; any other array is taken for a
    vector and gives the real part of entry [0,0] of [dag(psi).dot(psi)],
    the squared length of its first column only, or [IndexError] when it
    has no column.  An array without a second dimension fails on
    [shape[1]]. *)
Theorem norm_outcome (psi : ndarray) :
  norm psi
  = match psi with
    | Nd2 A =>
        if decide (nrows A = ncols A) then
          Ok (Some (creal (diagonal_sum A)))
        else if decide (0 < ncols A) then
          Ok (Some (creal (csum (nrows A)
                             (fun k => cconj (entry A k 0) * entry A k 0)%C)))
        else Raise IndexError
    | _ => Raise IndexError
    end.
Proof.
  destruct psi as [x|v|A]; [done..|].
  unfold norm. rewrite is_vector_2d, is_matrix_2d.
  destruct (decide (nrows A = ncols A)) as [Hsq|Hne].
  - by rewrite !bool_decide_eq_true_2 by done.
  - rewrite bool_decide_eq_false_2 by done. cbn [negb rbind as_2d].
    rewrite np_dot_ok by done. cbn [rbind]. unfold np_getitem. simpl.
    destruct (decide (0 < ncols A)) as [Hc|Hc].
    + rewrite decide_True by done. cbn [rbind]. do 3 f_equal.
      rewrite entry_dot by (simpl; lia). simpl.
      apply csum_ext. intros k Hk. unfold dag. by rewrite entry_mk by lia.
    + rewrite decide_False by lia. done.
Qed.

(** ** The eigensystem *)

(** X25. [eigensystem] recomputes what the constructor stored: called on
    a Hamiltonian that [__init__] built (with the same [hbar]) it changes
    nothing. *)
Theorem eigensystem_idempotent H bs hbar h :
  Hamiltonian_init H bs hbar = Ok h -> eigensystem h hbar = Ok h.
Proof.
  unfold Hamiltonian_init, eigensystem. intros Hinit.
  destruct (check_hermiticity H) as [hflag|]; [|done]. cbn [rbind] in Hinit.
  destruct (eigh H) as [w v] eqn:E.
  destruct (compute_frequencies (nrows H) w hbar) as [om|] eqn:Hom; [|done].
  injection Hinit as <-. simpl. by rewrite E, Hom.
Qed.

(** ** The loop of [solve] and the operators *)

Lemma operators_fixed_refl w : operators_fixed w w.
Proof. done. Qed.

Lemma operators_fixed_trans w1 w2 w3 :
  operators_fixed w1 w2 -> operators_fixed w2 w3 -> operators_fixed w1 w3.
Proof.
  intros (Ht1 & HC1 & He1 & H1) (Ht2 & HC2 & He2 & H2).
  split; [congruence|]. split; [congruence|]. split; [congruence|].
  intros Htd. destruct (H1 Htd) as (? & ? & ?).
  destruct H2 as (? & ? & ?); [congruence|]. repeat split; congruence.
Qed.

Lemma framed_modify_operators f :
  (forall s, rf_time_dep (f s) = rf_time_dep s /\ rf_C (f s) = rf_C s /\
             rf_equation_of_motion (f s) = rf_equation_of_motion s /\
             rf_E (f s) = rf_E s /\ rf_gamma_n (f s) = rf_gamma_n s /\
             rf_gamma_n_1 (f s) = rf_gamma_n_1 s) ->
  framed operators_fixed (modify_self f).
Proof.
  intros H w. destruct (H (self w)) as (? & ? & ? & ? & ? & ?).
  unfold operators_fixed. simpl. done.
Qed.

Lemma framed_self_operators {A} (m : M A) :
  (forall w, self (m w).2 = self w) -> framed operators_fixed m.
Proof. intros H w. unfold operators_fixed. by rewrite H. Qed.

Lemma update_ops_operators s time s' :
  update_ops s time = Ok s' ->
  rf_time_dep s' = rf_time_dep s /\ rf_C s' = rf_C s /\
  rf_equation_of_motion s' = rf_equation_of_motion s.
Proof.
  unfold update_ops. destruct (dress _ _ _ _); simpl; [|done].
  match goal with |- context [rbind ?x _] => destruct x end; simpl; [|done].
  by intros [= <-].
Qed.

Ltac operators_step :=
  first
    [ apply (framed_get_self _ operators_fixed_refl)
    | apply (framed_lift _ operators_fixed_refl)
    | apply (framed_mret _ operators_fixed_refl)
    | apply (framed_mraise _ operators_fixed_refl)
    | apply (framed_load _ operators_fixed_refl)
    | apply framed_modify_operators; by intros ?
    | apply framed_self_operators; by intros ?
    | apply (framed_bind _ operators_fixed_trans); [|intros ?]
    | case_match ].

Lemma operators_bind_at {A B} (m : M A) (f : A -> M B) w :
  operators_fixed w (m w).2 -> (forall a, framed operators_fixed (f a)) ->
  operators_fixed w (mbind m f w).2.
Proof.
  intros Hm Hf. unfold mbind.
  destruct (m w) as [[a|e] w1]; simpl in *; [|done].
  eapply operators_fixed_trans; [done|]. apply Hf.
Qed.

Lemma solve_step_operators hbar it :
  framed operators_fixed (solve_step hbar it).
Proof.
  intros w. destruct it as [i time]. unfold solve_step.
  unfold mbind at 1. unfold get_self at 1. cbv beta iota.
  apply operators_bind_at.
  - destruct (rf_time_dep (self w)) eqn:Htd; [|apply operators_fixed_refl].
    unfold call_self.
    destruct (update_ops (self w) time) as [s'|] eqn:Hu;
      [|apply operators_fixed_refl].
    apply update_ops_operators in Hu as (Ht & HC & He).
    unfold operators_fixed. simpl.
    do 3 (split; [done|]). intros ?. congruence.
  - intros _. unfold integrate. repeat operators_step.
Qed.

(** X26. The loop of [solve] never assigns the coupling operators or the
    equation of motion that [setup] selected, and in the time-independent
    mode it never assigns the dressed operators either: they are the ones
    of [setup] at every step, whether the loop ends or raises. *)
Theorem solve_loop_keeps_operators hbar xs :
  framed operators_fixed (mfor (solve_step hbar) xs).
Proof.
  apply (framed_mfor _ operators_fixed_refl operators_fixed_trans).
  intros it. apply solve_step_operators.
Qed.

End Qdynos.

(** * A concrete run on Gaussian integers

    A two-level system with one bath, a two-stage integrator and five time
    points; every definition of the model is evaluated on it. *)

Lemma GZ_ring : ring_theory GZ.zero GZ.one GZ.add GZ.mul GZ.sub GZ.opp eq.
Proof.
  constructor; intros; repeat match goal with x : GZ.t |- _ => destruct x end;
    unfold GZ.add, GZ.mul, GZ.sub, GZ.opp, GZ.zero, GZ.one; simpl;
    f_equal; ring.
Qed.

Definition ex_mk := mk GZ.t.
Definition ex_diag13 : matrix GZ.t :=
  ex_mk 2 2 (fun i j => if decide (i = j)
                        then GZ.of_Z (if decide (i = 0) then 1 else 3)
                        else GZ.zero).
Definition ex_sigma_x : matrix GZ.t :=
  ex_mk 2 2 (fun i j => if decide (i = j) then GZ.zero else GZ.one).
Definition ex_rho0 : matrix GZ.t :=
  ex_mk 2 2 (fun i j => if decide (i = 0 /\ j = 0) then GZ.one else GZ.zero).

(** A unitary with imaginary entries: [[0, i], [i, 0]]. *)
Definition ex_unitary : matrix GZ.t :=
  ex_mk 2 2 (fun i j => if decide (i = j) then GZ.zero else GZ.i).

(** An eigensolver that is right on diagonal matrices, and exact
    comparison. *)
Definition ex_eigh (A : matrix GZ.t) : list GZ.t * matrix GZ.t :=
  (map (fun i => entry GZ.t GZ.zero A i i) (seq 0 (nrows GZ.t A)),
   identity GZ.t GZ.zero GZ.one (nrows GZ.t A)).
Definition ex_allclose (A B : matrix GZ.t) : bool :=
  bool_decide (rows GZ.t A = rows GZ.t B).

Definition ex_bath : Bath GZ.t :=
  {| c_op := Nd2 GZ.t ex_sigma_x;
     bath_corr_t := fun t => GZ.add GZ.one t;
     ft_bath_corr := fun w => GZ.mul GZ.i w |}.

(** The Hamiltonian that the constructor builds from [diag(1, 3)], one bath
    and [hbar = 1]. *)
Definition ex_ham : Hamiltonian GZ.t :=
  {| nstates := 2; is_hermitian_attr := true; ham := ex_diag13;
     ev := [GZ.of_Z 1; GZ.of_Z 3];
     ek := identity GZ.t GZ.zero GZ.one 2;
     omegas := ex_mk 2 2 (fun i j =>
                 GZ.of_Z (if decide (i = j) then 0
                          else if decide (i = 0) then (-2) else 2));
     baths := Some [ex_bath]; nbaths := Some 1; is_md := false |}.

(** The same system with its eigenvectors in the other order and with a
    phase. *)
Definition ex_ham_phase : Hamiltonian GZ.t :=
  {| nstates := 2; is_hermitian_attr := true; ham := ex_diag13;
     ev := [GZ.of_Z 3; GZ.of_Z 1]; ek := ex_unitary;
     omegas := ex_mk 2 2 (fun i j =>
                 GZ.of_Z (if decide (i = j) then 0
                          else if decide (i = 0) then 2 else (-2)));
     baths := Some [ex_bath]; nbaths := Some 1; is_md := false |}.

Definition ex_options (m : string) : Options GZ.t :=
  {| method := m; markov_time := GZ.of_Z 2; progress := true |}.
Definition ex_results (k : Z) : Results GZ.t :=
  {| every := k; map_ops := false; map_function := false; analyzed := [] |}.

(** A two-stage integrator: an Euler step from the first stage. *)
Definition ex_rk_method (o : Options GZ.t) : result (nat * list GZ.t) :=
  Ok (2, [GZ.zero; GZ.one]).
Definition ex_rk_step (rhs : matrix GZ.t -> Z -> result (matrix GZ.t))
    (ode : Integrator GZ.t) (A : matrix GZ.t) : result (matrix GZ.t) :=
  k <- rhs A 0%Z ;;
  np_add GZ.t GZ.zero GZ.add A
    (smul GZ.t GZ.zero GZ.mul (ode_dt GZ.t ode) k).

Definition ex_engine (time_dependent : bool) : Redfield GZ.t :=
  Redfield_init GZ.t GZ.zero (ex_options "rk4") (ex_results 1)
    ex_ham time_dependent false.

Definition ex_world (time_dependent : bool) : world GZ.t :=
  {| heap := {[ 0 := Nd2 GZ.t ex_rho0 ]};
     self := ex_engine time_dependent; stdout := [] |}.

Definition ex_times : list GZ.t := map GZ.of_Z [0; 1; 2; 3; 4]%Z.

Definition ex_solve :=
  solve GZ.t GZ.zero GZ.add GZ.mul GZ.sub GZ.opp GZ.inv GZ.conj GZ.exp
    GZ.i GZ.one GZ.ltb (ex_options "rk4") (ex_results 1)
    ex_rk_method ex_rk_step.

Definition ex_solve_seed :=
  solve_seed GZ.t GZ.zero GZ.add GZ.mul GZ.sub GZ.opp GZ.conj GZ.exp
    GZ.i GZ.one (ex_options "rk4") (ex_results 1) ex_rk_method.

Definition ex_opts : option (Options GZ.t) := Some (ex_options "rk4").
Definition ex_res : option (Results GZ.t) := Some (ex_results 2).

(** The world when the loop of [solve] starts. *)
Definition ex_seeded (time_dependent : bool) : world GZ.t :=
  (ex_solve_seed 0 ex_times ex_opts ex_res (ex_world time_dependent)).2.

(** The dressed operators of the time-independent engine. *)
Definition ex_Es : list (matrix GZ.t) :=
  match rf_E GZ.t (self GZ.t (ex_seeded false)) with
  | E_list _ l => l
  | E_stages _ _ => []
  end.

Definition ex_ode : Integrator GZ.t :=
  {| order := 2; b := [GZ.zero; GZ.one]; ode_dt := GZ.one; y := None;
     ode_t := GZ.zero |}.

Definition ex_column : matrix GZ.t :=
  ex_mk 2 1 (fun i j => if decide (i = 0) then GZ.one else GZ.i).

Lemma GZ_conj_ok : conj_ok GZ.t GZ.add GZ.mul GZ.conj.
Proof.
  repeat split; intros; repeat match goal with x : GZ.t |- _ => destruct x end;
    unfold GZ.add, GZ.mul, GZ.conj; simpl; f_equal; ring.
Qed.

Definition ex_real (x : GZ.t) : GZ.t := GZ.of_Z x.1.

(** A Hamiltonian built without baths, and a request for mapped
    operators. *)
Definition ex_ham_bare : Hamiltonian GZ.t :=
  {| nstates := 2; is_hermitian_attr := true; ham := ex_diag13;
     ev := [GZ.of_Z 1; GZ.of_Z 3];
     ek := identity GZ.t GZ.zero GZ.one 2;
     omegas := omegas GZ.t ex_ham;
     baths := None; nbaths := None; is_md := false |}.
Definition ex_world_bare (time_dependent : bool) : world GZ.t :=
  {| heap := {[ 0 := Nd2 GZ.t ex_rho0 ]};
     self := Redfield_init GZ.t GZ.zero (ex_options "rk4") (ex_results 1)
               ex_ham_bare time_dependent false;
     stdout := [] |}.
Definition ex_results_mapped : Results GZ.t :=
  {| every := 1; map_ops := true; map_function := false; analyzed := [] |}.
Definition ex_vec : list GZ.t := map GZ.of_Z [1; 2; 3; 4]%Z.

Ltac ex_compute :=
  vm_compute; repeat first [ reflexivity | lia | split | constructor ].

Lemma eom_is_redfield_rhs_witness :
  eom GZ.t GZ.zero GZ.add GZ.mul GZ.sub GZ.opp GZ.inv GZ.conj GZ.i
      (self GZ.t (ex_seeded false)) GZ.one ex_rho0 0
  = Ok (redfield_rhs GZ.t GZ.zero GZ.add GZ.mul GZ.sub GZ.opp GZ.inv GZ.conj
          GZ.i 2 GZ.one (ev GZ.t ex_ham)
          (zip (rf_C GZ.t (self GZ.t (ex_seeded false))) ex_Es) ex_rho0).
Proof.
  apply (eom_is_redfield_rhs GZ.t GZ.zero GZ.one GZ.add GZ.mul GZ.sub GZ.opp
           GZ_ring GZ.inv GZ.conj GZ.i (self GZ.t (ex_seeded false)) GZ.one
           ex_rho0 0 2 [ex_bath] ex_Es).
  - vm_compute; reflexivity.
  - vm_compute; reflexivity.
  - ex_compute.
  - vm_compute; reflexivity.
  - ex_compute.
  - vm_compute; reflexivity.
  - ex_compute.
  - left. split; vm_compute; reflexivity.
Defined.

Lemma dressing_recurrence_seeded_witness :
  exists Cs gn gn1,
    coupling_operators_setup GZ.t GZ.zero GZ.add GZ.mul GZ.sub GZ.opp
      GZ.conj GZ.exp GZ.i GZ.one ex_ham ex_ode GZ.one = Ok (Cs, (gn, gn1)) /\
    length gn = 1 /\ length gn1 = 1.
Proof.
  destruct (dressing_recurrence_seeded GZ.t GZ.zero GZ.one GZ.add GZ.mul
              GZ.sub GZ.opp GZ_ring GZ.conj GZ.exp GZ.i GZ.one
              ex_ham ex_ode GZ.one [ex_bath] 2)
    as (Cs & gn & gn1 & E & Hl & Hl1 & _).
  - reflexivity.
  - reflexivity.
  - reflexivity.
  - split; reflexivity.
  - split; reflexivity.
  - constructor; [|constructor].
    exists ex_sigma_x. split; [reflexivity|]. split; reflexivity.
  - simpl. lia.
  - exists Cs, gn, gn1. split; [exact E|]. split; [exact Hl|exact Hl1].
Defined.

Lemma ex_engine_ok : engine_ok GZ.t 2 [ex_bath] (self GZ.t (ex_seeded true)).
Proof.
  unfold engine_ok, stage_rows.
  repeat match goal with |- _ /\ _ => split end; ex_compute.
Defined.

Lemma update_ops_spec_witness :
  exists s' E,
    update_ops GZ.t GZ.zero GZ.add GZ.mul GZ.sub GZ.opp GZ.exp GZ.i GZ.one
      GZ.ltb (self GZ.t (ex_seeded true)) GZ.zero = Ok s' /\
    rf_E GZ.t s' = E_stages GZ.t E /\ length E = 1.
Proof.
  destruct (update_ops_spec GZ.t GZ.zero GZ.one GZ.add GZ.mul GZ.sub GZ.opp
              GZ_ring GZ.exp GZ.i GZ.one GZ.ltb
              (self GZ.t (ex_seeded true)) GZ.zero 2 [ex_bath] ex_engine_ok)
    as (s' & E & Hs & HE & Hl & _).
  exists s', E. split; [exact Hs|]. split; [exact HE|exact Hl].
Defined.

Lemma make_redfield_operators_spec_witness :
  exists Cs Es,
    make_redfield_operators GZ.t GZ.zero GZ.add GZ.mul GZ.opp GZ.conj ex_ham
    = Ok (Cs, Es) /\ length Cs = 1 /\ length Es = 1.
Proof.
  destruct (make_redfield_operators_spec GZ.t GZ.zero GZ.add GZ.mul GZ.opp
              GZ.conj ex_ham [ex_bath] 2)
    as (Cs & Es & E & Hl & Hl1 & _).
  - reflexivity.
  - reflexivity.
  - split; reflexivity.
  - split; reflexivity.
  - constructor; [|constructor].
    exists ex_sigma_x. split; [reflexivity|]. split; reflexivity.
  - exists Cs, Es. split; [exact E|]. split; [exact Hl|exact Hl1].
Defined.

Lemma eigenbasis_round_trip_witness :
  (X <- from_eigenbasis GZ.t GZ.zero GZ.add GZ.mul GZ.conj ex_ham_phase
          (Nd2 GZ.t ex_sigma_x) ;;
   to_eigenbasis GZ.t GZ.zero GZ.add GZ.mul GZ.conj ex_ham_phase (Nd2 GZ.t X))
  = Ok ex_sigma_x /\
  (X <- from_eigenbasis GZ.t GZ.zero GZ.add GZ.mul GZ.conj ex_ham_phase
          (Nd2 GZ.t ex_column) ;;
   to_eigenbasis GZ.t GZ.zero GZ.add GZ.mul GZ.conj ex_ham_phase (Nd2 GZ.t X))
  = Ok ex_column.
Proof.
  split.
  - apply (eigenbasis_round_trip GZ.t GZ.zero GZ.one GZ.add GZ.mul GZ.sub
             GZ.opp GZ_ring GZ.conj ex_ham_phase 2 2 ex_sigma_x).
    + repeat split; vm_compute; reflexivity.
    + vm_compute; reflexivity.
    + repeat split; vm_compute; reflexivity.
  - apply (eigenbasis_round_trip GZ.t GZ.zero GZ.one GZ.add GZ.mul GZ.sub
             GZ.opp GZ_ring GZ.conj ex_ham_phase 2 1 ex_column).
    + repeat split; vm_compute; reflexivity.
    + vm_compute; reflexivity.
    + repeat split; vm_compute; reflexivity.
Defined.

Lemma omegas_antisymmetric_witness :
  entry GZ.t GZ.zero (omegas GZ.t ex_ham) 0 1
  = GZ.opp (entry GZ.t GZ.zero (omegas GZ.t ex_ham) 1 0) /\
  entry GZ.t GZ.zero (omegas GZ.t ex_ham) 0 0 = GZ.zero.
Proof.
  apply (omegas_antisymmetric GZ.t GZ.zero GZ.one GZ.add GZ.mul GZ.sub GZ.opp
           GZ_ring GZ.inv GZ.conj ex_allclose ex_eigh ex_diag13
           (Some [ex_bath]) ex_ham GZ.one ex_ham).
  - left. vm_compute. reflexivity.
  - simpl. lia.
  - simpl. lia.
Defined.

Lemma sampling_cadence_witness :
  exists res w' samples,
    ex_solve GZ.one 0 ex_times ex_opts ex_res (ex_world true) = (Ok res, w') /\
    analyzed GZ.t res = samples /\ length samples = 3.
Proof.
  eassert (E : ex_solve GZ.one 0 ex_times ex_opts ex_res (ex_world true)
               = (Ok _, _)) by (vm_compute; reflexivity).
  destruct (sampling_cadence GZ.t GZ.zero GZ.add GZ.mul GZ.sub GZ.opp GZ.inv
              GZ.conj GZ.exp GZ.i GZ.one GZ.ltb (ex_options "rk4")
              (ex_results 1) ex_rk_method ex_rk_step GZ.one 0 ex_times
              ex_opts ex_res (ex_world true) _ _ ltac:(simpl; lia) E)
    as (samples & Han & Hlen & _).
  eexists _, _, samples. split; [exact E|]. split; [exact Han|exact Hlen].
Defined.

Lemma exact_method_not_implemented_witness :
  (ex_solve GZ.one 0 ex_times (Some (ex_options "exact")) ex_res
     (ex_world true)).1 = Raise NotImplementedError.
Proof.
  destruct (proj2 (proj1 (exact_method_not_implemented GZ.t GZ.zero GZ.add
                     GZ.mul GZ.sub GZ.opp GZ.inv GZ.conj GZ.exp GZ.i GZ.one
                     GZ.ltb (ex_options "rk4") (ex_results 1) ex_rk_method
                     ex_rk_step (ex_options "exact")) eq_refl)
              GZ.one 0 ex_times ex_res (ex_world true)
              ltac:(simpl; lia)) as (w' & E & _).
  unfold ex_solve. rewrite E. reflexivity.
Defined.

Lemma solve_leaves_rho0_witness :
  heap GZ.t (ex_solve GZ.one 0 ex_times ex_opts ex_res (ex_world true)).2
    !! 0 = Some (Nd2 GZ.t ex_rho0).
Proof.
  apply (solve_leaves_rho0 GZ.t GZ.zero GZ.add GZ.mul GZ.sub GZ.opp GZ.inv
           GZ.conj GZ.exp GZ.i GZ.one GZ.ltb (ex_options "rk4")
           (ex_results 1) ex_rk_method ex_rk_step GZ.one 0 ex_times
           ex_opts ex_res (ex_world true) (Nd2 GZ.t ex_rho0)).
  vm_compute. reflexivity.
Defined.

(** ** The further properties on the same run *)

Lemma matmult_returns_last_witness :
  matmult GZ.t GZ.zero GZ.add GZ.mul ex_sigma_x [ex_unitary; ex_column]
  = Ok ex_column /\
  matmult GZ.t GZ.zero GZ.add GZ.mul ex_column [ex_sigma_x]
  = Raise ValueError.
Proof.
  split.
  - apply (proj1 (matmult_returns_last GZ.t GZ.zero GZ.add GZ.mul ex_sigma_x
                    [ex_unitary; ex_column])).
    intros i X Y HX HY. destruct i as [|[|[|i]]]; simpl in HX, HY;
      try discriminate; injection HX as <-; injection HY as <-; reflexivity.
  - apply (proj2 (matmult_returns_last GZ.t GZ.zero GZ.add GZ.mul ex_column
                    [ex_sigma_x])).
    intros H. specialize (H 0 ex_column ex_sigma_x eq_refl eq_refl).
    vm_compute in H. discriminate.
Defined.

Lemma dag_involutive_witness :
  has_shape GZ.t GZ.zero 1 2 (dag GZ.t GZ.zero GZ.conj ex_column) /\
  dag GZ.t GZ.zero GZ.conj (dag GZ.t GZ.zero GZ.conj ex_column) = ex_column.
Proof.
  apply (dag_involutive GZ.t GZ.zero GZ.add GZ.mul GZ.conj 2 1 ex_column).
  - exact GZ_conj_ok.
  - repeat split; vm_compute; reflexivity.
Defined.

Lemma dag_dot_witness :
  dag GZ.t GZ.zero GZ.conj (dot GZ.t GZ.zero GZ.add GZ.mul ex_unitary ex_column)
  = dot GZ.t GZ.zero GZ.add GZ.mul (dag GZ.t GZ.zero GZ.conj ex_column)
      (dag GZ.t GZ.zero GZ.conj ex_unitary).
Proof.
  apply (dag_dot GZ.t GZ.zero GZ.one GZ.add GZ.mul GZ.sub GZ.opp GZ_ring
           GZ.conj 2 2 ex_unitary ex_column).
  - exact GZ_conj_ok.
  - repeat split; vm_compute; reflexivity.
  - reflexivity.
Defined.

Lemma commutator_antisymmetric_witness :
  commutator GZ.t GZ.zero GZ.add GZ.mul GZ.sub ex_diag13 ex_diag13
  = Ok (np_zeros GZ.t GZ.zero 2 2) /\
  anticommutator GZ.t GZ.zero GZ.add GZ.mul ex_diag13 ex_sigma_x
  = anticommutator GZ.t GZ.zero GZ.add GZ.mul ex_sigma_x ex_diag13.
Proof.
  apply (commutator_antisymmetric GZ.t GZ.zero GZ.one GZ.add GZ.mul GZ.sub
           GZ.opp GZ_ring 2 ex_diag13 ex_sigma_x); split; reflexivity.
Defined.

Lemma basis_change_outcome_witness :
  to_eigenbasis GZ.t GZ.zero GZ.add GZ.mul GZ.conj ex_ham_phase
    (Nd2 GZ.t (np_zeros GZ.t GZ.zero 3 3)) = Raise ValueError /\
  from_eigenbasis GZ.t GZ.zero GZ.add GZ.mul GZ.conj ex_ham_phase
    (Nd0 GZ.t GZ.one) = Raise IndexError.
Proof.
  split.
  - exact (proj1 (basis_change_outcome GZ.t GZ.zero GZ.add GZ.mul GZ.conj
                    ex_ham_phase 2 (Nd2 GZ.t (np_zeros GZ.t GZ.zero 3 3))
                    (conj eq_refl eq_refl))).
  - exact (proj2 (basis_change_outcome GZ.t GZ.zero GZ.add GZ.mul GZ.conj
                    ex_ham_phase 2 (Nd0 GZ.t GZ.one)
                    (conj eq_refl eq_refl))).
Defined.

Lemma eigenbasis_round_trip_back_witness :
  (X <- to_eigenbasis GZ.t GZ.zero GZ.add GZ.mul GZ.conj ex_ham_phase
          (Nd2 GZ.t ex_diag13) ;;
   from_eigenbasis GZ.t GZ.zero GZ.add GZ.mul GZ.conj ex_ham_phase
     (Nd2 GZ.t X))
  = Ok ex_diag13.
Proof.
  apply (eigenbasis_round_trip_back GZ.t GZ.zero GZ.one GZ.add GZ.mul GZ.sub
           GZ.opp GZ_ring GZ.conj ex_ham_phase 2 2 ex_diag13).
  - repeat split; vm_compute; reflexivity.
  - vm_compute; reflexivity.
  - repeat split; vm_compute; reflexivity.
Defined.

Lemma norm_to_eigenbasis_witness :
  (X <- to_eigenbasis GZ.t GZ.zero GZ.add GZ.mul GZ.conj ex_ham_phase
          (Nd2 GZ.t ex_column) ;;
   norm GZ.t GZ.zero GZ.add GZ.mul GZ.conj ex_real (Nd2 GZ.t X))
  = norm GZ.t GZ.zero GZ.add GZ.mul GZ.conj ex_real (Nd2 GZ.t ex_column).
Proof.
  apply (norm_to_eigenbasis GZ.t GZ.zero GZ.one GZ.add GZ.mul GZ.sub GZ.opp
           GZ_ring GZ.conj ex_real ex_ham_phase 2 1 ex_column).
  - exact GZ_conj_ok.
  - repeat split; vm_compute; reflexivity.
  - vm_compute; reflexivity.
  - repeat split; vm_compute; reflexivity.
Defined.


Lemma Hamiltonian_commutator_entries_witness :
  exists X,
    Hamiltonian_commutator GZ.t GZ.zero GZ.add GZ.mul GZ.sub ex_ham
      ex_sigma_x true = Ok X /\
    entry GZ.t GZ.zero X 0 0 = GZ.zero /\ entry GZ.t GZ.zero X 1 1 = GZ.zero.
Proof.
  destruct (Hamiltonian_commutator_entries GZ.t GZ.zero GZ.one GZ.add GZ.mul
              GZ.sub GZ.opp GZ_ring ex_ham 2 ex_sigma_x)
    as (X & E & _ & Hdiag).
  - reflexivity.
  - split; reflexivity.
  - exists X. split; [exact E|]. split; apply Hdiag; lia.
Defined.

Lemma Hamiltonian_commutator_bases_witness :
  (X <- Hamiltonian_commutator GZ.t GZ.zero GZ.add GZ.mul GZ.sub ex_ham_phase
          ex_sigma_x false ;;
   to_eigenbasis GZ.t GZ.zero GZ.add GZ.mul GZ.conj ex_ham_phase (Nd2 GZ.t X))
  = (Y <- to_eigenbasis GZ.t GZ.zero GZ.add GZ.mul GZ.conj ex_ham_phase
            (Nd2 GZ.t ex_sigma_x) ;;
     Hamiltonian_commutator GZ.t GZ.zero GZ.add GZ.mul GZ.sub ex_ham_phase
       Y true).
Proof.
  apply (Hamiltonian_commutator_bases GZ.t GZ.zero GZ.one GZ.add GZ.mul
           GZ.sub GZ.opp GZ_ring GZ.conj ex_ham_phase 2 ex_sigma_x).
  - repeat split; vm_compute; reflexivity.
  - split; reflexivity.
  - reflexivity.
  - vm_compute; reflexivity.
  - vm_compute; reflexivity.
  - split; reflexivity.
Defined.

Lemma liouville_round_trip_witness :
  from_liouville GZ.t GZ.zero (flatten GZ.t ex_unitary) None = Ok ex_unitary.
Proof.
  apply (liouville_round_trip GZ.t GZ.zero 2 ex_unitary).
  repeat split; vm_compute; reflexivity.
Defined.

Lemma from_liouville_outcome_witness :
  (exists rho,
     from_liouville GZ.t GZ.zero ex_vec None = Ok rho /\
     to_liouville GZ.t GZ.zero (Nd2 GZ.t rho) = Ok (Nd1 GZ.t ex_vec)) /\
  from_liouville GZ.t GZ.zero ex_vec (Some 3) = Raise ValueError.
Proof.
  split.
  - destruct (proj1 (from_liouville_outcome GZ.t GZ.zero ex_vec None)
                eq_refl) as (rho & E & _ & Hback).
    exists rho. split; [exact E|exact Hback].
  - apply (proj2 (from_liouville_outcome GZ.t GZ.zero ex_vec (Some 3))).
    vm_compute. lia.
Defined.

Lemma to_liouville_low_dim_witness :
  to_liouville GZ.t GZ.zero (Nd1 GZ.t ex_vec) = Raise IndexError.
Proof.
  apply (to_liouville_low_dim GZ.t GZ.zero (Nd1 GZ.t ex_vec)).
  - simpl. lia.
  - discriminate.
Defined.

Lemma solve_needs_two_times_witness :
  ex_solve GZ.one 0 [GZ.zero] ex_opts ex_res (ex_world true)
  = (Raise IndexError, ex_world true).
Proof.
  apply (solve_needs_two_times GZ.t GZ.zero GZ.add GZ.mul GZ.sub GZ.opp
           GZ.inv GZ.conj GZ.exp GZ.i GZ.one GZ.ltb (ex_options "rk4")
           (ex_results 1) ex_rk_method ex_rk_step).
  simpl. lia.
Defined.

Lemma solve_zero_stride_witness :
  (ex_solve GZ.one 0 ex_times ex_opts (Some (ex_results 0))
     (ex_world false)).1 = Raise ZeroDivisionError.
Proof.
  eassert (Hs : ex_solve_seed 0 ex_times ex_opts (Some (ex_results 0))
                  (ex_world false) = (Ok tt, _)) by (vm_compute; reflexivity).
  unfold ex_solve.
  rewrite (proj2 (solve_zero_stride GZ.t GZ.zero GZ.add GZ.mul GZ.sub GZ.opp
                    GZ.inv GZ.conj GZ.exp GZ.i GZ.one GZ.ltb
                    (ex_options "rk4") (ex_results 1) ex_rk_method
                    ex_rk_step GZ.one 0 ex_times ex_opts
                    (Some (ex_results 0)) (ex_world false) eq_refl)
             _ eq_refl Hs).
  reflexivity.
Defined.

Lemma solve_map_ops_assertion_witness :
  (ex_solve GZ.one 0 ex_times ex_opts (Some ex_results_mapped)
     (ex_world false)).1 = Raise AssertionError.
Proof.
  assert (Hopt : forall o, ex_opts = Some o -> is_exact GZ.t o = false)
    by (intros o [= <-]; reflexivity).
  exact (f_equal fst
    (solve_map_ops_assertion GZ.t GZ.zero GZ.add GZ.mul GZ.sub GZ.opp
       GZ.inv GZ.conj GZ.exp GZ.i GZ.one GZ.ltb (ex_options "rk4")
       (ex_results 1) ex_rk_method ex_rk_step GZ.one 0
       (GZ.of_Z 0) (GZ.of_Z 1) (map GZ.of_Z [2; 3; 4]%Z)
       ex_opts ex_results_mapped (ex_world false) eq_refl eq_refl Hopt)).
Defined.

Lemma solve_without_baths_witness :
  (ex_solve GZ.one 0 ex_times ex_opts ex_res (ex_world_bare false)).1
  = Raise TypeError /\
  (ex_solve GZ.one 0 ex_times ex_opts ex_res (ex_world_bare true)).1
  = Raise AttributeError.
Proof.
  split.
  - apply (solve_without_baths GZ.t GZ.zero GZ.add GZ.mul GZ.sub GZ.opp
             GZ.inv GZ.conj GZ.exp GZ.i GZ.one GZ.ltb (ex_options "rk4")
             (ex_results 1) ex_rk_method ex_rk_step GZ.one 0
             (GZ.of_Z 0) (GZ.of_Z 1) (map GZ.of_Z [2; 3; 4]%Z)
             ex_opts ex_res (ex_world_bare false) (2, [GZ.zero; GZ.one]));
      try reflexivity.
    intros r [= <-]. reflexivity.
  - apply (solve_without_baths GZ.t GZ.zero GZ.add GZ.mul GZ.sub GZ.opp
             GZ.inv GZ.conj GZ.exp GZ.i GZ.one GZ.ltb (ex_options "rk4")
             (ex_results 1) ex_rk_method ex_rk_step GZ.one 0
             (GZ.of_Z 0) (GZ.of_Z 1) (map GZ.of_Z [2; 3; 4]%Z)
             ex_opts ex_res (ex_world_bare true) (2, [GZ.zero; GZ.one]));
      try reflexivity.
    intros r [= <-]. reflexivity.
Defined.

Lemma solve_progress_output_witness :
  exists res w' samples,
    ex_solve GZ.one 0 ex_times ex_opts ex_res (ex_world false) = (Ok res, w') /\
    analyzed GZ.t res = samples /\
    stdout GZ.t w' = sample_indices GZ.t samples.
Proof.
  eassert (E : ex_solve GZ.one 0 ex_times ex_opts ex_res (ex_world false)
               = (Ok _, _)) by (vm_compute; reflexivity).
  destruct (solve_progress_output GZ.t GZ.zero GZ.add GZ.mul GZ.sub GZ.opp
              GZ.inv GZ.conj GZ.exp GZ.i GZ.one GZ.ltb (ex_options "rk4")
              (ex_results 1) ex_rk_method ex_rk_step GZ.one 0 ex_times
              ex_opts ex_res (ex_world false) _ _ E)
    as (samples & Han & Hout).
  eexists _, _, samples. split; [exact E|]. split; [exact Han|exact Hout].
Defined.

Lemma eom_traceless_witness :
  exists dy,
    eom GZ.t GZ.zero GZ.add GZ.mul GZ.sub GZ.opp GZ.inv GZ.conj GZ.i
      (self GZ.t (ex_seeded false)) GZ.one ex_rho0 0 = Ok dy /\
    diagonal_sum GZ.t GZ.zero GZ.add dy = GZ.zero.
Proof.
  destruct (eom_traceless GZ.t GZ.zero GZ.one GZ.add GZ.mul GZ.sub GZ.opp
              GZ_ring GZ.inv GZ.conj GZ.i (self GZ.t (ex_seeded false))
              GZ.one ex_rho0 0 2 [ex_bath] ex_Es)
    as (dy & E & _ & Htr).
  - vm_compute; reflexivity.
  - vm_compute; reflexivity.
  - ex_compute.
  - vm_compute; reflexivity.
  - ex_compute.
  - vm_compute; reflexivity.
  - ex_compute.
  - left. split; vm_compute; reflexivity.
  - exists dy. split; [exact E|exact Htr].
Defined.

Lemma update_ops_invariant_witness :
  exists s',
    rfold (update_ops GZ.t GZ.zero GZ.add GZ.mul GZ.sub GZ.opp GZ.exp GZ.i
             GZ.one GZ.ltb)
      (map GZ.of_Z [0; 1; 2; 3]%Z) (self GZ.t (ex_seeded true)) = Ok s' /\
    engine_ok GZ.t 2 [ex_bath] s'.
Proof.
  apply (update_ops_invariant GZ.t GZ.zero GZ.one GZ.add GZ.mul GZ.sub GZ.opp
           GZ_ring GZ.exp GZ.i GZ.one GZ.ltb 2 [ex_bath]
           (self GZ.t (ex_seeded true)) (map GZ.of_Z [0; 1; 2; 3]%Z)).
  unfold engine_ok, stage_rows.
  repeat match goal with |- _ /\ _ => split end; ex_compute.
Defined.

Lemma setup_time_dependent_witness :
  exists w',
    setup GZ.t GZ.zero GZ.add GZ.mul GZ.sub GZ.opp GZ.conj GZ.exp GZ.i GZ.one
      (ex_options "rk4") (ex_results 1) ex_rk_method ex_opts ex_res
      (ex_world true) = (Ok tt, w') /\
    engine_ok GZ.t 2 [ex_bath] (self GZ.t w').
Proof.
  destruct (setup_time_dependent GZ.t GZ.zero GZ.one GZ.add GZ.mul GZ.sub
              GZ.opp GZ_ring GZ.conj GZ.exp GZ.i GZ.one (ex_options "rk4")
              (ex_results 1) ex_rk_method ex_opts ex_res (ex_world true)
              2 [ex_bath] 2 [GZ.zero; GZ.one])
    as (w' & E & Hok & _).
  - reflexivity.
  - reflexivity.
  - reflexivity.
  - reflexivity.
  - split; reflexivity.
  - split; reflexivity.
  - constructor; [|constructor].
    exists ex_sigma_x. split; [reflexivity|]. split; reflexivity.
  - reflexivity.
  - reflexivity.
  - simpl. lia.
  - intros r [= <-]. reflexivity.
  - exists w'. split; [exact E|exact Hok].
Defined.


Lemma eigensystem_idempotent_witness :
  eigensystem GZ.t GZ.mul GZ.sub GZ.inv ex_eigh ex_ham GZ.one = Ok ex_ham.
Proof.
  apply (eigensystem_idempotent GZ.t GZ.zero GZ.mul GZ.sub GZ.inv GZ.conj
           ex_allclose ex_eigh ex_diag13 (Some [ex_bath]) GZ.one ex_ham).
  vm_compute. reflexivity.
Defined.
